(** * libuv: the intrusive binary min-heap and the epoll readiness
      multiplexer

    Part I embeds the heap header (struct heap_node, struct heap,
    heap_node_swap, heap_insert, heap_remove, heap_dequeue), Part II embeds
    uv__io_poll of src/unix/linux-core.c, Part III the system information
    functions of the same file (uv__hrtime, uv_exepath,
    uv_resident_set_memory, read_models, the marker loop of read_times and
    uv_interface_addresses).

    The C code is embedded shallowly.  Heap nodes live in a store indexed by
    address, [struct heap_node*] is an optional address (NULL is [None]) and
    every C statement that reads or writes through a pointer becomes a step
    of a small state-and-failure monad.  A computation yields [None] where
    the C program has no result: a NULL or wild dereference, or a failed
    [assert].  uv__io_poll is a function of the loop, the watchers and an
    outside world that answers its system calls; it keeps a log of the calls
    it makes. *)

From stdpp Require Import gmap list.
From Stdlib Require Import ZArith Lia.

Local Open Scope Z_scope.

(** ** Part I.  heap.h *)

(** [struct heap_node*]: an address, or NULL. *)
Abbreviation ptr := (option nat) (only parsing).

(** struct heap_node { left; right; parent } *)
Record heap_node : Type := HeapNode {
  left : ptr;
  right : ptr;
  parent : ptr
}.

(** struct heap { min; nelts }, with [nelts] an unsigned int. *)
Record heap : Type := Heap {
  min : ptr;
  nelts : Z
}.

Global Instance heap_node_eq_dec : EqDecision heap_node.
Proof. solve_decision. Defined.

Global Instance heap_eq_dec : EqDecision heap.
Proof. solve_decision. Defined.

(** unsigned int arithmetic wraps modulo 2^32. *)
Definition UINT_MOD : Z := 2 ^ 32.
Definition wrap32 (z : Z) : Z := z mod UINT_MOD.

(** The machine state the heap functions work on: node memory and the
    [struct heap] they are handed. *)
Definition state : Type := gmap nat heap_node * heap.

Definition M (A : Type) : Type := state → option (A * state).

Global Instance M_ret : MRet M := λ A a s, Some (a, s).
Global Instance M_bind : MBind M :=
  λ A B f c s, match c s with Some (a, s') => f a s' | None => None end.

Definition fault {A} : M A := λ _, None.

(** [assert(e)] of assert.h, compiled without NDEBUG. *)
Definition assert (b : bool) : M unit := if b then mret tt else fault.

(** [p->field] for a pointer-valued expression [p]: NULL has no fields. *)
Definition deref (p : ptr) : M nat :=
  match p with Some a => mret a | None => fault end.

Definition load_node (a : nat) : M heap_node :=
  λ s, match s.1 !! a with Some nd => Some (nd, s) | None => None end.

Definition store_node (a : nat) (f : heap_node → heap_node) : M unit :=
  λ s, match s.1 !! a with
       | Some nd => Some (tt, (<[a := f nd]> s.1, s.2))
       | None => None
       end.

Definition load_left (a : nat) : M ptr := nd ← load_node a; mret (left nd).
Definition load_right (a : nat) : M ptr := nd ← load_node a; mret (right nd).
Definition load_parent (a : nat) : M ptr := nd ← load_node a; mret (parent nd).

Definition store_left (a : nat) (v : ptr) : M unit :=
  store_node a (λ nd, HeapNode v (right nd) (parent nd)).
Definition store_right (a : nat) (v : ptr) : M unit :=
  store_node a (λ nd, HeapNode (left nd) v (parent nd)).
Definition store_parent (a : nat) (v : ptr) : M unit :=
  store_node a (λ nd, HeapNode (left nd) (right nd) v).

Definition load_min : M ptr := λ s, Some (min s.2, s).
Definition store_min (v : ptr) : M unit :=
  λ s, Some (tt, (s.1, Heap v (nelts s.2))).
Definition load_nelts : M Z := λ s, Some (nelts s.2, s).
Definition store_nelts (v : Z) : M unit :=
  λ s, Some (tt, (s.1, Heap (min s.2) v)).

(** [struct heap_node**]: the address of a pointer field, which is either
    [&heap->min], [&a->left] or [&a->right]. *)
Inductive slot : Type :=
  | min_slot
  | left_slot (a : nat)
  | right_slot (a : nat).

Global Instance slot_eq_dec : EqDecision slot.
Proof. solve_decision. Defined.

Definition load_slot (s : slot) : M ptr :=
  match s with
  | min_slot => load_min
  | left_slot a => load_left a
  | right_slot a => load_right a
  end.

Definition store_slot (s : slot) (v : ptr) : M unit :=
  match s with
  | min_slot => store_min v
  | left_slot a => store_left a v
  | right_slot a => store_right a v
  end.

Definition ptr_eqb (p q : ptr) : bool := bool_decide (p = q).

(** heap_init *)
Definition heap_init : M unit := store_min None;; store_nelts 0.

(** heap_min *)
Definition heap_min : M ptr := load_min.

(** heap_node_swap(heap, parent, child), statement by statement. *)
Definition heap_node_swap (parent_ child : nat) : M unit :=
  cp ← load_parent child;
  assert (ptr_eqb (Some parent_) cp);;
  pl ← load_left parent_;
  pr ← load_right parent_;
  assert (ptr_eqb pl (Some child) || ptr_eqb pr (Some child));;
  pp ← load_parent parent_;
  match pp with
  | None =>
      hm ← load_min;
      assert (ptr_eqb hm (Some parent_));;
      store_min (Some child)
  | Some g =>
      gl ← load_left g;
      if ptr_eqb gl (Some parent_) then store_left g (Some child)
      else
        gr ← load_right g;
        assert (ptr_eqb gr (Some parent_));;
        store_right g (Some child)
  end;;
  left_ ← load_left child;
  right_ ← load_right child;
  pp ← load_parent parent_;
  store_parent child pp;;
  pl ← load_left parent_;
  store_left child pl;;
  pr ← load_right parent_;
  store_right child pr;;
  cl ← load_left child;
  (if ptr_eqb cl (Some child) then
     store_left child (Some parent_);;
     cr ← load_right child;
     match cr with
     | Some r =>
         rp ← load_parent r;
         assert (ptr_eqb rp (Some parent_));;
         store_parent r (Some child)
     | None => mret tt
     end
   else
     cr ← load_right child;
     assert (ptr_eqb cr (Some child));;
     store_right child (Some parent_);;
     cl ← load_left child;
     match cl with
     | Some l =>
         lp ← load_parent l;
         assert (ptr_eqb lp (Some parent_));;
         store_parent l (Some child)
     | None => mret tt
     end);;
  store_parent parent_ (Some child);;
  store_left parent_ left_;;
  store_right parent_ right_;;
  pl ← load_left parent_;
  match pl with
  | Some l =>
      lp ← load_parent l;
      assert (ptr_eqb lp (Some child));;
      store_parent l (Some parent_)
  | None => mret tt
  end;;
  pr ← load_right parent_;
  match pr with
  | Some r =>
      rp ← load_parent r;
      assert (ptr_eqb rp (Some child));;
      store_parent r (Some parent_)
  | None => mret tt
  end.

(** The loop that turns an element count into a path:
    [for (k = 0, n = ...; n >= 2; k += 1, n /= 2) path = (path << 1) | (n & 1);]
    An unsigned int is halved at most 31 times before it drops below 2, so
    32 units of fuel always suffice. *)
Fixpoint heap_path (fuel : nat) (path k n : Z) : option (Z * Z) :=
  match fuel with
  | O => None
  | S fuel' =>
      if 2 <=? n
      then heap_path fuel'
             (wrap32 (Z.lor (Z.shiftl path 1) (Z.land n 1)))
             (wrap32 (k + 1)) (n / 2)
      else Some (path, k)
  end.

Definition UINT_BITS : nat := 32.

(** [path & (1 << n)] *)
Definition path_bit (path n : Z) : bool :=
  negb (Z.land path (Z.shiftl 1 n) =? 0).

(** The traversal loop of heap_insert; [cnt] counts the iterations that are
    left, that is k - n:
    [for (n = 0; n < k; n += 1)], each round stepping from the slot [child]
    to the left or right field of the node it points to. *)
Fixpoint insert_walk (cnt : nat) (path n : Z) (parent_ child : slot)
  : M (slot * slot) :=
  match cnt with
  | O => mret (parent_, child)
  | S cnt' =>
      c ← load_slot child;
      a ← deref c;
      insert_walk cnt' path (n + 1) child
        (if path_bit path n then right_slot a else left_slot a)
  end.

(** The traversal loop of heap_remove. *)
Fixpoint remove_walk (cnt : nat) (path n : Z) (max : slot) : M slot :=
  match cnt with
  | O => mret max
  | S cnt' =>
      c ← load_slot max;
      a ← deref c;
      remove_walk cnt' path (n + 1)
        (if path_bit path n then right_slot a else left_slot a)
  end.

Section Comparator.

(** heap_compare_fn: non-zero iff a < b.  The comparator looks at the objects
    that contain the two nodes, which the heap functions never write. *)
Variable less_than : nat → nat → bool.

(** The sift-up loop of heap_insert:
    [while (newnode->parent != NULL && less_than(newnode, newnode->parent))
       heap_node_swap(heap, newnode->parent, newnode);] *)
Fixpoint sift_up (fuel : nat) (newnode : nat) : M unit :=
  match fuel with
  | O => fault
  | S fuel' =>
      np ← load_parent newnode;
      match np with
      | None => mret tt
      | Some p =>
          if less_than newnode p
          then heap_node_swap p newnode;; sift_up fuel' newnode
          else mret tt
      end
  end.

(** heap_insert, up to and including [heap->nelts += 1]. *)
Definition insert_link (newnode : nat) : M unit :=
  store_left newnode None;;
  store_right newnode None;;
  store_parent newnode None;;
  n0 ← load_nelts;
  '(path, k) ← (λ s, (λ r, (r, s)) <$> heap_path UINT_BITS 0 0 (wrap32 (1 + n0)));
  '(parent_, child) ← insert_walk (Z.to_nat k) path 0 min_slot min_slot;
  pv ← load_slot parent_;
  store_parent newnode pv;;
  store_slot child (Some newnode);;
  n1 ← load_nelts;
  store_nelts (wrap32 (n1 + 1)).

(** heap_insert(heap, newnode, less_than) *)
Definition heap_insert (fuel : nat) (newnode : nat) : M unit :=
  insert_link newnode;;
  sift_up fuel newnode.

(** The sift-down loop at the end of heap_remove. *)
Fixpoint sift_down (fuel : nat) (child : nat) : M unit :=
  match fuel with
  | O => fault
  | S fuel' =>
      let smallest := child in
      cl ← load_left child;
      smallest ← (if negb (ptr_eqb cl None) && less_than smallest child
                  then deref cl else mret smallest);
      cr ← load_right child;
      smallest ← (if negb (ptr_eqb cr None) && less_than smallest child
                  then deref cr else mret smallest);
      if bool_decide (smallest = child) then mret tt
      else heap_node_swap child smallest;; sift_down fuel' child
  end.

(** heap_remove(heap, node, less_than); [node] is whatever pointer the
    caller passes, heap_dequeue passes [heap->min]. *)
Definition heap_remove (fuel : nat) (node : ptr) : M unit :=
  n0 ← load_nelts;
  if n0 =? 0 then mret tt
  else
    '(path, k) ← (λ s, (λ r, (r, s)) <$> heap_path UINT_BITS 0 0 n0);
    max ← remove_walk (Z.to_nat k) path 0 min_slot;
    n1 ← load_nelts;
    store_nelts (wrap32 (n1 - 1));;
    mc ← load_slot max;
    child ← deref mc;
    cl ← load_left child;
    assert (ptr_eqb cl None);;
    cr ← load_right child;
    assert (ptr_eqb cr None);;
    cp ← load_parent child;
    match cp with
    | None => mret tt
    | Some p =>
        pl ← load_left p;
        pr ← load_right p;
        assert (ptr_eqb pl (Some child) || ptr_eqb pr (Some child))
    end;;
    store_slot max None;;
    if ptr_eqb (Some child) node then
      hm ← load_min;
      if ptr_eqb (Some child) hm then
        np ← load_parent child;
        assert (ptr_eqb np None);;
        hm' ← load_min;
        assert (ptr_eqb hm' None);;
        n2 ← load_nelts;
        assert (n2 =? 0);;
        store_min None
      else mret tt
    else
      nd ← deref node;
      nl ← load_left nd;
      store_left child nl;;
      nr ← load_right nd;
      store_right child nr;;
      np ← load_parent nd;
      store_parent child np;;
      cl ← load_left child;
      match cl with
      | Some l => store_parent l (Some child)
      | None => mret tt
      end;;
      cr ← load_right child;
      match cr with
      | Some r => store_parent r (Some child)
      | None => mret tt
      end;;
      np ← load_parent nd;
      match np with
      | None =>
          hm ← load_min;
          assert (ptr_eqb hm (Some nd));;
          store_min (Some child)
      | Some p =>
          pl ← load_left p;
          if ptr_eqb pl (Some nd) then store_left p (Some child)
          else
            pr ← load_right p;
            assert (ptr_eqb pr (Some nd));;
            store_right p (Some child)
      end;;
      sift_down fuel child.

(** heap_dequeue(heap, less_than) *)
Definition heap_dequeue (fuel : nat) : M unit :=
  hm ← load_min;
  heap_remove fuel hm.

End Comparator.

(** ** Part II.  uv__io_poll (src/unix/linux-core.c) *)

(** Constants of the epoll ABI and of errno.h, and the loop's own
    edge-triggered flag UV__POLLET.  Their defining headers are not part of
    the translated sources, so the poll code is parametric in them;
    [linux_abi] below gives the Linux values used for concrete runs. *)
Class epoll_abi : Type := EpollAbi {
  UV__EPOLLIN : Z;
  UV__EPOLLOUT : Z;
  UV__EPOLLERR : Z;
  UV__EPOLLHUP : Z;
  UV__EPOLLET : Z;
  UV__POLLET : Z;
  EEXIST : Z;
  EINTR : Z
}.

Definition linux_abi : epoll_abi :=
  {| UV__EPOLLIN := 1; UV__EPOLLOUT := 4; UV__EPOLLERR := 8;
     UV__EPOLLHUP := 16; UV__EPOLLET := 2 ^ 31; UV__POLLET := 2 ^ 31;
     EEXIST := 17; EINTR := 4 |}.

Inductive ctl_op : Type :=
  | UV__EPOLL_CTL_ADD
  | UV__EPOLL_CTL_DEL
  | UV__EPOLL_CTL_MOD.

Global Instance ctl_op_eq_dec : EqDecision ctl_op.
Proof. solve_decision. Defined.

(** struct uv__epoll_event { events; data } *)
Record uv__epoll_event : Type := EpollEvent {
  ev_events : Z;
  ev_data : Z
}.

(** What uv__epoll_ctl hands back: 0, or -1 with errno set. *)
Inductive ctl_result : Type :=
  | CtlOk
  | CtlErr (errno : Z).

(** What uv__epoll_wait hands back: -1 with errno set, or the nfds events it
    stored in the array (nfds is the length of the list, possibly 0). *)
Inductive wait_result : Type :=
  | WaitErr (errno : Z)
  | WaitEvents (evs : list uv__epoll_event).

(** The fields of uv__io_t that uv__io_poll touches. *)
Record uv__io_t : Type := IoWatcher {
  fd : Z;
  events : Z;
  levents : Z;
  revents : Z
}.

(** The fields of uv_loop_t that uv__io_poll touches.  [watchers] is the
    array of nwatchers watcher pointers indexed by fd; [watcher_queue] lists
    the queued watchers head first. *)
Record uv_loop_t : Type := Loop {
  time : Z;
  nfds : Z;
  backend_fd : Z;
  watcher_queue : list nat;
  watchers : list (option nat)
}.

(** Everything outside the process, as far as uv__io_poll can tell: the
    kernel behind uv__epoll_ctl and uv__epoll_wait, and the monotonic clock.
    [now] is the reading of uv__hrtime in the unit of loop->time. *)
Class kernel (W : Type) : Type := Kernel {
  uv__epoll_ctl : W → Z → ctl_op → Z → uv__epoll_event → ctl_result * W;
  uv__epoll_wait : W → Z → Z → wait_result * W;
  now : W → Z
}.

(** What the program and the callbacks it runs can see and change. *)
Record config (W : Type) : Type := Config {
  loop : uv_loop_t;
  iomem : gmap nat uv__io_t;
  world : W
}.
Global Arguments Config {W} _ _ _.
Global Arguments loop {W} _.
Global Arguments iomem {W} _.
Global Arguments world {W} _.

(** The calls a run of uv__io_poll makes, in the order it makes them. *)
Inductive action : Type :=
  | EvCtl (op : ctl_op) (target : Z) (e : uv__epoll_event) (res : ctl_result)
  | EvWait (timeout : Z) (res : wait_result)
  | EvUpdateTime (t : Z)
  | EvFeed (w : nat) (pevents : Z).

Record run (W : Type) : Type := Run {
  cfg : config W;
  log : list action
}.
Global Arguments Run {W} _ _.
Global Arguments cfg {W} _.
Global Arguments log {W} _.

(** How a piece of uv__io_poll ends: it falls through with a value, the
    process aborts (abort() or a failed assert), or the model's fuel ran out
    while the C loop was still going. *)
Inductive outcome (W A : Type) : Type :=
  | Done (a : A)
  | Aborted (r : run W)
  | Spinning (r : run W).
Global Arguments Done {W A} _.
Global Arguments Aborted {W A} _.
Global Arguments Spinning {W A} _.

Definition UINT64_MOD : Z := 2 ^ 64.

Section Poll.

Context {abi : epoll_abi} {W : Type} {K : kernel W}.

(** uv__io_feed(loop, w, pevents) hands the events to the watcher.  It is
    defined outside the translated sources and runs code of the embedder, so
    it is a parameter: any function of the loop, the watchers and the
    world. *)
Variable uv__io_feed : nat → Z → config W → config W.

Definition emit (a : action) (r : run W) : run W :=
  Run (cfg r) (log r ++ [a]).

Definition set_loop (l : uv_loop_t) (r : run W) : run W :=
  Run (Config l (iomem (cfg r)) (world (cfg r))) (log r).

Definition set_io (w : nat) (io : uv__io_t) (r : run W) : run W :=
  Run (Config (loop (cfg r)) (<[w := io]> (iomem (cfg r))) (world (cfg r)))
      (log r).

Definition do_ctl (op : ctl_op) (target : Z) (e : uv__epoll_event)
    (r : run W) : ctl_result * run W :=
  let '(res, κ) :=
    uv__epoll_ctl (world (cfg r)) (backend_fd (loop (cfg r))) op target e in
  (res, emit (EvCtl op target e res)
          (Run (Config (loop (cfg r)) (iomem (cfg r)) κ) (log r))).

Definition do_wait (timeout : Z) (r : run W) : wait_result * run W :=
  let '(res, κ) :=
    uv__epoll_wait (world (cfg r)) (backend_fd (loop (cfg r))) timeout in
  (res, emit (EvWait timeout res)
          (Run (Config (loop (cfg r)) (iomem (cfg r)) κ) (log r))).

Definition do_feed (w : nat) (pevents : Z) (r : run W) : run W :=
  emit (EvFeed w pevents) (Run (uv__io_feed w pevents (cfg r)) (log r)).

(** Modelled from the spec: uv__update_time is declared in a header that is
    not among the translated sources.  The spec has it cache the monotonic
    clock in loop.time. *)
Definition uv__update_time (r : run W) : run W :=
  let l := loop (cfg r) in
  let t := now (world (cfg r)) in
  emit (EvUpdateTime t)
    (set_loop (Loop t (nfds l) (backend_fd l) (watcher_queue l) (watchers l)) r).

(** [op = UV__EPOLL_CTL_ADD; if (w->events & ~UV__POLLET) op = UV__EPOLL_CTL_MOD;] *)
Definition reconcile_op (ev : Z) : ctl_op :=
  if Z.land ev (Z.lnot UV__POLLET) =? 0
  then UV__EPOLL_CTL_ADD else UV__EPOLL_CTL_MOD.

(** The epoll_event sent to the kernel for a watcher whose levents is [lev]. *)
Definition reconcile_event (lev fd_ : Z) : uv__epoll_event :=
  EpollEvent
    (if Z.land lev UV__EPOLLET =? 0 then lev
     else Z.lor (Z.lor UV__EPOLLIN UV__EPOLLOUT) UV__EPOLLET)
    fd_.

(** One round of the while loop over loop->watcher_queue, for the watcher
    [w] that QUEUE_HEAD returned, after QUEUE_REMOVE and QUEUE_INIT. *)
Definition reconcile_one (w : nat) (r : run W) : outcome W (run W) :=
  match iomem (cfg r) !! w with
  | None => Aborted r
  | Some io =>
      if negb (levents io =? 0) && (0 <=? fd io)
         && (fd io <? Z.of_nat (length (watchers (loop (cfg r)))))
      then
        let op := reconcile_op (events io) in
        let io1 := IoWatcher (fd io) (levents io) (levents io) (revents io) in
        let r1 := set_io w io1 r in
        if bool_decide (op = UV__EPOLL_CTL_MOD)
           && negb (Z.land (levents io1) UV__POLLET =? 0)
        then
          let pevents := Z.land (levents io1) (revents io1) in
          if pevents =? 0 then Done r1
          else
            let io2 := IoWatcher (fd io1) (events io1) (levents io1)
                         (Z.land (revents io1) (Z.lnot pevents)) in
            Done (do_feed w pevents (set_io w io2 r1))
        else
          let e := reconcile_event (levents io1) (fd io1) in
          let '(res, r2) := do_ctl op (fd io1) e r1 in
          match res with
          | CtlOk => Done r2
          | CtlErr errno =>
              if negb (errno =? EEXIST) then Aborted r2
              else if negb (bool_decide (op = UV__EPOLL_CTL_ADD))
              then Aborted r2
              else if Z.land (events io1) UV__POLLET =? 0 then
                let '(res2, r3) := do_ctl UV__EPOLL_CTL_MOD (fd io1) e r2 in
                match res2 with CtlOk => Done r3 | CtlErr _ => Aborted r3 end
              else
                let '(resd, r3) := do_ctl UV__EPOLL_CTL_DEL (fd io1) e r2 in
                match resd with
                | CtlErr _ => Aborted r3
                | CtlOk =>
                    let '(res2, r4) := do_ctl op (fd io1) e r3 in
                    match res2 with
                    | CtlOk => Done r4
                    | CtlErr _ => Aborted r4
                    end
                end
          end
      else Aborted r
  end.

(** [while (!QUEUE_EMPTY(&loop->watcher_queue)) ...].  A callback run by
    uv__io_feed may queue watchers again, so the loop is driven by fuel. *)
Fixpoint reconcile (fuel : nat) (r : run W) : outcome W (run W) :=
  match watcher_queue (loop (cfg r)) with
  | [] => Done r
  | w :: q =>
      match fuel with
      | O => Spinning r
      | S fuel' =>
          let l := loop (cfg r) in
          let r0 :=
            set_loop (Loop (time l) (nfds l) (backend_fd l) q (watchers l)) r in
          match reconcile_one w r0 with
          | Done r1 => reconcile fuel' r1
          | Aborted r1 => Aborted r1
          | Spinning r1 => Spinning r1
          end
      end
  end.

(** One round of [for (i = 0; i < nfds; i++)] over the events that
    uv__epoll_wait stored; [nevents] is the running count.  [ev_data pe] is
    read as the int [fd]: the kernel hands back the data that was
    registered with the descriptor, which is [e.data = w->fd], an int that
    the conversion in [fd = pe->data] does not change. *)
Definition dispatch_event (pe : uv__epoll_event) (nevents : Z) (r : run W)
  : outcome W (run W * Z) :=
  let fd_ := ev_data pe in
  if (0 <=? fd_) && (fd_ <? Z.of_nat (length (watchers (loop (cfg r)))))
  then
    match watchers (loop (cfg r)) !! Z.to_nat fd_ with
    | None => Aborted r
    | Some None =>
        let '(_, r1) := do_ctl UV__EPOLL_CTL_DEL fd_ pe r in
        Done (r1, nevents)
    | Some (Some w) =>
        match iomem (cfg r) !! w with
        | None => Aborted r
        | Some io =>
            let io1 := IoWatcher (fd io) (events io) (levents io)
                         (Z.lor (revents io) (ev_events pe)) in
            let r1 := set_io w io1 r in
            let pevents :=
              Z.land (revents io1)
                (Z.lor (Z.lor (events io1) UV__EPOLLERR) UV__EPOLLHUP) in
            if pevents =? 0 then Done (r1, nevents)
            else Done (do_feed w pevents r1, nevents + 1)
        end
    end
  else Aborted r.

Fixpoint dispatch_events (evs : list uv__epoll_event) (nevents : Z)
    (r : run W) : outcome W (run W * Z) :=
  match evs with
  | [] => Done (r, nevents)
  | pe :: rest =>
      match dispatch_event pe nevents r with
      | Done (r1, n1) => dispatch_events rest n1 r1
      | Aborted r1 => Aborted r1
      | Spinning r1 => Spinning r1
      end
  end.

(** The code at the label update_timeout: [None] is the [return]. *)
Definition update_timeout (base timeout : Z) (r : run W) : option Z :=
  let diff := (time (loop (cfg r)) - base) mod UINT64_MOD in
  if timeout mod UINT64_MOD <=? diff then None
  else Some (timeout - diff).

(** The [for (;;)] loop around uv__epoll_wait; one unit of fuel per round. *)
Fixpoint poll_loop (fuel : nat) (base timeout : Z) (r : run W)
  : outcome W (run W) :=
  match fuel with
  | O => Spinning r
  | S fuel' =>
      let '(res, r1) := do_wait timeout r in
      let r2 := uv__update_time r1 in
      match res with
      | WaitEvents [] =>
          if negb (timeout =? -1) then Done r2 else Aborted r2
      | WaitErr errno =>
          if negb (errno =? EINTR) then Aborted r2
          else if timeout =? -1 then poll_loop fuel' base timeout r2
          else if timeout =? 0 then Done r2
          else if 0 <? timeout then
            match update_timeout base timeout r2 with
            | None => Done r2
            | Some timeout' => poll_loop fuel' base timeout' r2
            end
          else Aborted r2
      | WaitEvents evs =>
          match dispatch_events evs 0 r2 with
          | Done (r3, nevents) =>
              if negb (nevents =? 0) then Done r3
              else if timeout =? 0 then Done r3
              else if timeout =? -1 then poll_loop fuel' base timeout r3
              else if 0 <? timeout then
                match update_timeout base timeout r3 with
                | None => Done r3
                | Some timeout' => poll_loop fuel' base timeout' r3
                end
              else Aborted r3
          | Aborted r3 => Aborted r3
          | Spinning r3 => Spinning r3
          end
      end
  end.

(** uv__io_poll(loop, timeout) *)
Definition uv__io_poll (fuel : nat) (timeout : Z) (r : run W)
  : outcome W (run W) :=
  if nfds (loop (cfg r)) =? 0 then
    match watcher_queue (loop (cfg r)) with
    | [] => Done r
    | _ :: _ => Aborted r
    end
  else
    match reconcile fuel r with
    | Done r1 =>
        if -1 <=? timeout
        then poll_loop fuel (time (loop (cfg r1))) timeout r1
        else Aborted r1
    | Aborted r1 => Aborted r1
    | Spinning r1 => Spinning r1
    end.

End Poll.


(** ** Part III.  The system information functions of
       src/unix/linux-core.c *)

(** uint64_t and size_t arithmetic wraps modulo 2^64. *)
Definition wrap64 (z : Z) : Z := z mod UINT64_MOD.

(** [#define NANOSEC ((uint64_t) 1e9)] *)
Definition NANOSEC : Z := 10 ^ 9.

(** struct timespec *)
Record timespec : Type := Timespec {
  tv_sec : Z;
  tv_nsec : Z
}.

(** uv__hrtime, as a function of what clock_gettime(CLOCK_MONOTONIC, &ts)
    stored in [ts]:
    [return (((uint64_t) ts.tv_sec) * NANOSEC + ts.tv_nsec);] *)
Definition uv__hrtime (ts : timespec) : Z :=
  wrap64 (wrap64 (wrap64 (tv_sec ts) * NANOSEC) + wrap64 (tv_nsec ts)).

(** The loop of read_times that measures the marker "cpu<num> ":
    [unsigned int n = num; for (len = sizeof("cpu0"); n /= 10; len++);]
    An unsigned int is divided by 10 at most ten times before it is 0. *)
Fixpoint marker_len (fuel : nat) (n len : Z) : option Z :=
  match fuel with
  | O => None
  | S fuel' =>
      let n' := n / 10 in
      if n' =? 0 then Some len
      else marker_len fuel' n' (wrap32 (len + 1))
  end.

(** [sizeof("cpu0")] *)
Definition SIZEOF_CPU0 : Z := 5.

Definition read_times_len (num : Z) : option Z :=
  marker_len 10 num SIZEOF_CPU0.

(** uv_exepath(buffer, size).  [buffer] is the caller's array, NULL or the
    bytes it holds, as many as it has room for; [size] is NULL or the value
    of [*size].  readlink(2) is a parameter: given the bound it is called
    with, it fails with an errno or stores the bytes it returns.  The
    result is the return value with the new buffer and [*size], or [None]
    where the C program writes outside the array. *)
Definition uv_exepath (EINVAL : Z) (readlink : Z → Z + list Z)
    (buffer : option (list Z)) (size : option Z)
  : option (Z * option (list Z) * option Z) :=
  match buffer, size with
  | Some buf, Some sz =>
      match readlink (wrap64 (sz - 1)) with
      | inl errno => Some (- errno, Some buf, Some sz)
      | inr bytes =>
          let n := length bytes in
          if (n <? length buf)%nat
          then Some (0, Some (bytes ++ 0 :: drop (S n) buf),
                     Some (Z.of_nat n))
          else None
      end
  | _, _ => Some (- EINVAL, buffer, size)
  end.

(** *** uv_interface_addresses *)

(** Constants of <net/if.h>, <sys/socket.h> and <errno.h>, and
    [sizeof(address->phys_addr)] of uv.h.  These headers are not part of
    the translated sources; [linux_net] gives the values for concrete
    runs. *)
Class net_abi : Type := NetAbi {
  IFF_UP : Z;
  IFF_RUNNING : Z;
  IFF_LOOPBACK : Z;
  PF_PACKET : Z;
  AF_INET6 : Z;
  ENOMEM : Z;
  PHYS_ADDR_SIZE : nat
}.

Definition linux_net : net_abi :=
  {| IFF_UP := 1; IFF_RUNNING := 64; IFF_LOOPBACK := 8;
     PF_PACKET := 17; AF_INET6 := 10; ENOMEM := 12; PHYS_ADDR_SIZE := 6 |}.

(** struct sockaddr as the function reads it: the family, the bytes that
    follow it, and for a struct sockaddr_ll the bytes of [sll_addr]. *)
Record sockaddr : Type := Sockaddr {
  sa_family : Z;
  sa_data : list Z;
  sll_addr : list Z
}.

(** One element of the list that getifaddrs returns; a C string is the
    list of its bytes. *)
Record ifaddrs : Type := Ifaddrs {
  ifa_name : list Z;
  ifa_flags : Z;
  ifa_addr : option sockaddr;
  ifa_netmask : option sockaddr
}.

(** The unions [address] and [netmask] of uv_interface_address_t: which
    member was assigned, and from what. *)
Inductive inet_addr : Type :=
  | In4 (sa : sockaddr)
  | In6 (sa : sockaddr).

(** uv_interface_address_t.  [name] is what strdup returned (NULL is
    [None]); [phys_addr] is [None] as long as nothing has been copied into
    it, since the array comes from malloc. *)
Record uv_interface_address_t : Type := InterfaceAddress {
  name : option (list Z);
  phys_addr : option (list Z);
  address : inet_addr;
  netmask : inet_addr;
  is_internal : Z
}.

(** What the caller finds after the call: the return value, [*addresses]
    and [*count], the latter two [None] when they were not assigned.  An
    element of the array is [None] until the function has filled it. *)
Record interfaces_result : Type := InterfacesResult {
  ia_ret : Z;
  ia_addresses : option (option (list (option uv_interface_address_t)));
  ia_count : option Z
}.

Section Interfaces.

Context {net : net_abi}.

(** malloc and strdup may fail: whether malloc of an array of the given
    number of elements succeeds, and whether strdup of a string does. *)
Variable malloc : Z → bool.
Variable strdup : list Z → bool.

(** [(ent->ifa_flags & IFF_UP) && (ent->ifa_flags & IFF_RUNNING)] *)
Definition up_and_running (ent : ifaddrs) : bool :=
  negb (Z.land (ifa_flags ent) IFF_UP =? 0)
  && negb (Z.land (ifa_flags ent) IFF_RUNNING =? 0).

(** The test of the counting loop:
    [!((flags & IFF_UP) && (flags & IFF_RUNNING)) || ifa_addr == NULL ||
     ifa_addr->sa_family == PF_PACKET] *)
Definition count_skips (ent : ifaddrs) : bool :=
  negb (up_and_running ent)
  || match ifa_addr ent with
     | None => true
     | Some sa => sa_family sa =? PF_PACKET
     end.

(** The counting loop over the list, which increments [*count] for every
    entry that passes the test. *)
Fixpoint count_addresses (addrs : list ifaddrs) (count : Z) : Z :=
  match addrs with
  | [] => count
  | ent :: rest =>
      count_addresses rest (if count_skips ent then count else count + 1)
  end.

(** The loop that fills the array; [idx] is [address - *addresses].  The
    result is [None] where the C program dereferences NULL or writes
    behind the array. *)
Fixpoint fill_addresses (addrs : list ifaddrs)
    (arr : list (option uv_interface_address_t)) (idx : nat)
  : option (list (option uv_interface_address_t) * nat) :=
  match addrs with
  | [] => Some (arr, idx)
  | ent :: rest =>
      if negb (up_and_running ent) then fill_addresses rest arr idx
      else
        match ifa_addr ent with
        | None => fill_addresses rest arr idx
        | Some sa =>
            if sa_family sa =? PF_PACKET then fill_addresses rest arr idx
            else if (idx <? length arr)%nat then
              match ifa_netmask ent with
              | None => None
              | Some nm =>
                  let a :=
                    InterfaceAddress
                      (if strdup (ifa_name ent) then Some (ifa_name ent)
                       else None)
                      None
                      (if sa_family sa =? AF_INET6 then In6 sa else In4 sa)
                      (if sa_family nm =? AF_INET6 then In6 nm else In4 nm)
                      (if Z.land (ifa_flags ent) IFF_LOOPBACK =? 0
                       then 0 else 1) in
                  fill_addresses rest (<[idx := Some a]> arr) (S idx)
              end
            else None
        end
  end.

(** The inner loop over the array for one packet entry:
    [if (strcmp(address->name, ent->ifa_name) == 0) memcpy(...)]. *)
Fixpoint copy_phys (ifname hw : list Z)
    (arr : list (option uv_interface_address_t))
  : option (list (option uv_interface_address_t)) :=
  match arr with
  | [] => Some []
  | cell :: rest =>
      match cell with
      | None => None
      | Some a =>
          match name a with
          | None => None
          | Some n =>
              rest' ← copy_phys ifname hw rest;
              Some (Some (if bool_decide (n = ifname)
                          then InterfaceAddress (name a)
                                 (Some (take PHYS_ADDR_SIZE hw))
                                 (address a) (netmask a) (is_internal a)
                          else a) :: rest')
          end
      end
  end.

(** The loop that fills in the physical addresses. *)
Fixpoint fill_phys (addrs : list ifaddrs)
    (arr : list (option uv_interface_address_t))
  : option (list (option uv_interface_address_t)) :=
  match addrs with
  | [] => Some arr
  | ent :: rest =>
      if negb (up_and_running ent)
         || match ifa_addr ent with
            | None => true
            | Some sa => negb (sa_family sa =? PF_PACKET)
            end
      then fill_phys rest arr
      else
        match ifa_addr ent with
        | None => None
        | Some sa =>
            arr' ← copy_phys (ifa_name ent) (sll_addr sa) arr;
            fill_phys rest arr'
        end
  end.

(** uv_interface_addresses(addresses, count), compiled with
    HAVE_IFADDRS_H; [got] is what getifaddrs returned: an errno, or the
    list. *)
Definition uv_interface_addresses (got : Z + list ifaddrs)
  : option interfaces_result :=
  match got with
  | inl errno => Some (InterfacesResult (- errno) None None)
  | inr addrs =>
      let count := count_addresses addrs 0 in
      if malloc count then
        '(arr, _) ← fill_addresses addrs (replicate (Z.to_nat count) None) O;
        arr' ← fill_phys addrs arr;
        Some (InterfacesResult 0 (Some (Some arr')) (Some count))
      else Some (InterfacesResult (- ENOMEM) (Some None) (Some count))
  end.

(** Vocabulary of the statements about uv_interface_addresses. *)

(** The entries that are reported: up and running, with an address that is
    not a packet address. *)
Definition reported (ent : ifaddrs) : bool := negb (count_skips ent).

(** The hardware address of an up-and-running packet entry. *)
Definition packet_hw (ent : ifaddrs) : option (list Z) :=
  if up_and_running ent then
    match ifa_addr ent with
    | Some sa => if sa_family sa =? PF_PACKET then Some (sll_addr sa) else None
    | None => None
    end
  else None.

(** The physical address an array element named [n] ends up with when it
    started with [acc]: that of the last packet entry of that name. *)
Fixpoint last_hw (addrs : list ifaddrs) (n : list Z) (acc : option (list Z))
  : option (list Z) :=
  match addrs with
  | [] => acc
  | ent :: rest =>
      last_hw rest n
        (match packet_hw ent with
         | Some hw =>
             if bool_decide (n = ifa_name ent)
             then Some (take PHYS_ADDR_SIZE hw) else acc
         | None => acc
         end)
  end.

End Interfaces.


(** *** uv_resident_set_memory *)

(** The part of a char array that C treats as the string: the bytes before
    the first NUL. *)
Fixpoint c_string (bytes : list Z) : list Z :=
  match bytes with
  | [] => []
  | x :: rest => if x =? 0 then [] else x :: c_string rest
  end.

(** strchr(s, c) for a character [c] other than NUL: the rest of the string
    from the first [c] on, or NULL. *)
Fixpoint strchr (s : list Z) (c : Z) : option (list Z) :=
  match s with
  | [] => None
  | x :: rest => if x =? c then Some s else strchr rest c
  end.

(** The characters ' ', '(' and ')'. *)
Definition SPACE : Z := 32.
Definition LPAREN : Z := 40.
Definition RPAREN : Z := 41.

(** [for (i = 1; i <= 22; i++) { s = strchr(s + 1, ' '); if (s == NULL) goto err; }]
    with [cnt] rounds to go. *)
Fixpoint skip_fields (cnt : nat) (s : list Z) : option (list Z) :=
  match cnt with
  | O => Some s
  | S cnt' =>
      match strchr (drop 1 s) SPACE with
      | None => None
      | Some s' => skip_fields cnt' s'
      end
  end.

(** The file system and libc as uv_resident_set_memory sees them: open of
    /proc/self/stat gives an errno or a descriptor, read gives an errno or
    the bytes it stored, close ends the descriptor. *)
Class procfs (W : Type) : Type := Procfs {
  open_stat : W → (Z + Z) * W;
  read_stat : W → Z → Z → (Z + list Z) * W;
  close_stat : W → Z → W
}.

Section ResidentSet.

Context {W : Type} {P : procfs W}.

(** Constants of <errno.h>, the page size, and strtol(s, NULL, 10) of libc:
    the value it returns and the errno it leaves, 0 if it sets none. *)
Variable EINVAL : Z.
Variable EINTR_ : Z.
Variable getpagesize : Z.
Variable strtol : list Z → Z * Z.

(** [do fd = open("/proc/self/stat", O_RDONLY); while (fd == -1 && errno == EINTR);] *)
Fixpoint open_retry (fuel : nat) (w : W) : option ((Z + Z) * W) :=
  match fuel with
  | O => None
  | S fuel' =>
      match open_stat w with
      | (inl errno, w') =>
          if errno =? EINTR_ then open_retry fuel' w' else Some (inl errno, w')
      | (inr fd_, w') => Some (inr fd_, w')
      end
  end.

(** [sizeof(buf) - 1] *)
Definition STAT_BUF_MAX : Z := 1023.

(** [do n = read(fd, buf, sizeof(buf) - 1); while (n == -1 && errno == EINTR);] *)
Fixpoint read_retry (fuel : nat) (fd_ : Z) (w : W)
  : option ((Z + list Z) * W) :=
  match fuel with
  | O => None
  | S fuel' =>
      match read_stat w fd_ STAT_BUF_MAX with
      | (inl errno, w') =>
          if errno =? EINTR_ then read_retry fuel' fd_ w'
          else Some (inl errno, w')
      | (inr bytes, w') => Some (inr bytes, w')
      end
  end.

(** From [s = strchr(buf, ' ')] to the end of the function: the return
    value and what is stored in [*rss], if anything. *)
Definition parse_stat (buf : list Z) : Z * option Z :=
  match strchr buf SPACE with
  | None => (- EINVAL, None)
  | Some s =>
      let s := drop 1 s in
      if negb (default 0 (head s) =? LPAREN) then (- EINVAL, None)
      else
        match strchr s RPAREN with
        | None => (- EINVAL, None)
        | Some s =>
            match skip_fields 22 s with
            | None => (- EINVAL, None)
            | Some s =>
                let '(val, errno) := strtol s in
                if negb (errno =? 0) then (- EINVAL, None)
                else if val <? 0 then (- EINVAL, None)
                else (0, Some (wrap64 (val * getpagesize)))
            end
        end
  end.

(** uv_resident_set_memory(rss).  [None] is a run that is still retrying
    when the fuel is used up, or one in which read stores more than it was
    asked for. *)
Definition uv_resident_set_memory (fuel : nat) (w : W)
  : option (Z * option Z * W) :=
  '(o, w1) ← open_retry fuel w;
  match o with
  | inl errno => Some (- errno, None, w1)
  | inr fd_ =>
      '(rd, w2) ← read_retry fuel fd_ w1;
      let w3 := close_stat w2 fd_ in
      match rd with
      | inl errno => Some (- errno, None, w3)
      | inr bytes =>
          if Z.of_nat (length bytes) <=? STAT_BUF_MAX
          then Some (parse_stat (c_string bytes), w3)
          else None
      end
  end.

End ResidentSet.

(** The text of fields that each follow a space, as in /proc/self/stat. *)
Fixpoint stat_fields (fields : list (list Z)) : list Z :=
  match fields with
  | [] => []
  | f :: rest => SPACE :: f ++ stat_fields rest
  end.


(** *** read_models *)

(** uv_cpu_info_t, as far as read_models writes it. *)
Record uv_cpu_info_t : Type := CpuInfo {
  model : option (list Z);
  speed : Z
}.

(** "model name\t: ", "cpu MHz\t\t: " and "unknown" *)
Definition model_marker : list Z :=
  [109; 111; 100; 101; 108; 32; 110; 97; 109; 101; 9; 58; 32].
Definition speed_marker : list Z :=
  [99; 112; 117; 32; 77; 72; 122; 9; 9; 58; 32].
Definition unknown_model : list Z := [117; 110; 107; 110; 111; 119; 110].

Section ReadModels.

(** ENOMEM, atoi of libc, and whether strndup of a given string
    succeeds. *)
Variable ENOMEM_ : Z.
Variable atoi : list Z → Z.
Variable strndup_ok : list Z → bool.

(** [strndup(model, strlen(model) - 1)], the length being a size_t. *)
Definition strip_newline (s : list Z) : list Z :=
  take (Z.to_nat (wrap64 (Z.of_nat (length s) - 1))) s.

(** The loop [while (fgets(buf, sizeof(buf), fp))] of read_models as it is
    compiled for x86: [lines] is what the calls of fgets return.  [inl] is
    a [return] inside the loop, with the array as it is then. *)
Fixpoint read_models_lines (lines : list (list Z)) (numcpus : nat)
    (ci : list uv_cpu_info_t) (model_idx speed_idx : nat)
  : Z * list uv_cpu_info_t + list uv_cpu_info_t * nat :=
  match lines with
  | [] => inr (ci, model_idx)
  | buf :: rest =>
      if (model_idx <? numcpus)%nat
         && bool_decide (take (length model_marker) buf = model_marker)
      then
        let m := drop (length model_marker) buf in
        if strndup_ok m then
          read_models_lines rest numcpus
            (alter (λ c, CpuInfo (Some (strip_newline m)) (speed c))
               model_idx ci)
            (S model_idx) speed_idx
        else inl (- ENOMEM_, ci)
      else if (speed_idx <? numcpus)%nat
              && bool_decide (take (length speed_marker) buf = speed_marker)
      then
        read_models_lines rest numcpus
          (alter (λ c, CpuInfo (model c)
                         (atoi (drop (length speed_marker) buf)))
             speed_idx ci)
          model_idx (S speed_idx)
      else read_models_lines rest numcpus ci model_idx speed_idx
  end.

(** [while (model_idx < numcpus) { model = strndup(inferred_model, ...); ... }] *)
Fixpoint fill_models (fuel : nat) (inferred : list Z) (numcpus : nat)
    (ci : list uv_cpu_info_t) (model_idx : nat)
  : option (Z * list uv_cpu_info_t) :=
  match fuel with
  | O => None
  | S fuel' =>
      if (model_idx <? numcpus)%nat then
        if strndup_ok inferred then
          fill_models fuel' inferred numcpus
            (alter (λ c, CpuInfo (Some inferred) (speed c)) model_idx ci)
            (S model_idx)
        else Some (- ENOMEM_, ci)
      else Some (0, ci)
  end.

(** read_models(numcpus, ci) on x86; [cpuinfo] is the errno of a failed
    fopen of /proc/cpuinfo, or the lines of the file.  The result is the
    return value and the array, or [None] where the C program reads through
    a NULL model pointer. *)
Definition read_models (numcpus : nat) (ci : list uv_cpu_info_t)
    (cpuinfo : Z + list (list Z)) : option (Z * list uv_cpu_info_t) :=
  match cpuinfo with
  | inl errno => Some (- errno, ci)
  | inr lines =>
      match read_models_lines lines numcpus ci O O with
      | inl (ret, ci1) => Some (ret, ci1)
      | inr (ci1, model_idx) =>
          match
            (if (0 <? model_idx)%nat
             then ci1 !! (model_idx - 1)%nat ≫= model
             else Some unknown_model)
          with
          | None => None
          | Some inferred =>
              fill_models (S numcpus) inferred numcpus ci1 model_idx
          end
      end
  end.

(** The model names that /proc/cpuinfo gives, in the order of the file. *)
Definition model_lines (lines : list (list Z)) : list (list Z) :=
  omap (λ buf,
          if bool_decide (take (length model_marker) buf = model_marker)
          then Some (strip_newline (drop (length model_marker) buf))
          else None) lines.

End ReadModels.

(** ** Concrete inputs *)

(** Node memory in which the given addresses hold nodes that are in no heap
    yet, and the heap that heap_init leaves. *)
Definition blank : heap_node := HeapNode None None None.

Definition fresh_nodes (l : list nat) : state :=
  (list_to_map ((λ a, (a, blank)) <$> l), Heap None 0).

(** A heap whose only node is the one at address 1, next to a node at
    address 0 that is in no heap. *)
Definition single_heap : state :=
  ({[ 0%nat := blank; 1%nat := blank ]}, Heap (Some 1%nat) 1).

(** A comparator for concrete runs: the key of a node is its address. *)
Definition by_address : nat → nat → bool := Nat.ltb.

(** A scripted outside world: uv__epoll_wait answers with the next entry of
    [pending_waits] after the given number of clock ticks has passed,
    uv__epoll_ctl with the next entry of [pending_ctls]; once a script is
    used up, wait reports no events and ctl succeeds. *)
Record script : Type := Script {
  pending_waits : list (wait_result * nat);
  pending_ctls : list ctl_result;
  clock : Z
}.

Global Instance script_kernel : kernel script :=
  {| uv__epoll_ctl κ _ _ _ _ :=
       match pending_ctls κ with
       | res :: rest => (res, Script (pending_waits κ) rest (clock κ))
       | [] => (CtlOk, κ)
       end;
     uv__epoll_wait κ _ _ :=
       match pending_waits κ with
       | (res, dt) :: rest =>
           (res, Script rest (pending_ctls κ) (clock κ + Z.of_nat dt))
       | [] => (WaitEvents [], κ)
       end;
     now := clock |}.

(** A callback that leaves the loop, the watchers and the world alone. *)
Definition quiet_feed : nat → Z → config script → config script :=
  λ _ _ c, c.

Definition one_watcher_loop (t : Z) : uv_loop_t :=
  Loop t 1 3 [] [None; None; None; None; None; Some 7%nat].

(** A loop with one registered descriptor, fd 5, watched by the watcher at
    address 7. *)
Definition eintr_twice : run script :=
  Run (Config (one_watcher_loop 0)
         {[ 7%nat := IoWatcher 5 1 1 0 ]}
         (Script [(WaitErr 4, 40%nat); (WaitErr 4, 30%nat)] [] 0)) [].

(** The watcher at address 7 asks for level-triggered read readiness on
    fd 5, which the loop has not registered yet; the kernel will answer the
    ctl calls with [answers], in this order. *)
Definition fresh_add_run (answers : list ctl_result) : run script :=
  Run (Config (Loop 0 1 3 [] [None; None; None; None; None; Some 7%nat])
         {[ 7%nat := IoWatcher 5 0 1 0 ]}
         (Script [] answers 0)) [].

(** The watcher at address 7 is registered edge-triggered for reading and
    now asks for writing instead; write readiness is already latent in
    revents. *)
Definition edge_run : run script :=
  Run (Config (Loop 0 1 3 [] [None; None; None; None; None; Some 7%nat])
         {[ 7%nat := IoWatcher 5 (1 + 2 ^ 31) (4 + 2 ^ 31) 4 ]}
         (Script [] [] 0)) [].

(** ** Vocabulary of the statements about heap.h *)

(** Positions in a binary tree, in level order: 1 is the root, [p~0] the
    left child of the node at [p] and [p~1] its right child.  The binary
    expansion of a position, read from below its leading 1 down to its last
    bit, is the path from the root with 0 for left and 1 for right. *)
Definition up (p : positive) : option positive :=
  match p with
  | xH => None
  | xO q | xI q => Some q
  end.

(** The number of steps from the root down to a position. *)
Fixpoint depth (p : positive) : nat :=
  match p with
  | xH => O
  | xO q | xI q => S (depth q)
  end.

(** The link fields a node at position [p] must hold when the nodes are laid
    out as [L] says. *)
Definition node_at (L : gmap positive nat) (p : positive) : heap_node :=
  HeapNode (L !! p~0)%positive (L !! p~1)%positive
    (match up p with Some q => L !! q | None => None end).

(** The address of the pointer field that holds the node at position [p]. *)
Definition slot_of (L : gmap positive nat) (p : positive) : option slot :=
  match p with
  | xH => Some min_slot
  | xO q => left_slot <$> L !! q
  | xI q => right_slot <$> L !! q
  end.

(** The slot the traversal loop of heap_insert has in [parent] when it
    stops at position [p]. *)
Definition parent_slot_of (L : gmap positive nat) (p : positive) : option slot :=
  match up p with
  | Some q => slot_of L q
  | None => Some min_slot
  end.

(** [s] holds a complete binary tree of [nelts] nodes laid out as [L]:
    exactly the positions 1 .. nelts are taken, each by a node of its own,
    [min] is the node at the root and the three link fields of every node
    agree with the layout. *)
Record heap_wf (L : gmap positive nat) (s : state) : Prop := HeapWf {
  wf_range : 0 ≤ nelts s.2 < UINT_MOD;
  wf_complete : ∀ p, is_Some (L !! p) ↔ Z.pos p ≤ nelts s.2;
  wf_inj : ∀ p q a, L !! p = Some a → L !! q = Some a → p = q;
  wf_min : min s.2 = L !! 1%positive;
  wf_node : ∀ p a, L !! p = Some a → s.1 !! a = Some (node_at L p)
}.

(** The nodes of a layout. *)
Definition in_layout (L : gmap positive nat) (a : nat) : Prop :=
  ∃ p, L !! p = Some a.

(** The layout of [single_heap]. *)
Definition single_layout : gmap positive nat := {[ 1%positive := 1%nat ]}.

(** What the store looks like after [x->parent = v] for a pointer [x] that
    may be NULL. *)
Definition reparent (x : ptr) (v : nat) (m : gmap nat heap_node)
  : gmap nat heap_node :=
  match x with
  | Some r =>
      match m !! r with
      | Some nd => <[r := HeapNode (left nd) (right nd) (Some v)]> m
      | None => m
      end
  | None => m
  end.

(** ** Vocabulary of the statements about uv__io_poll *)

Section PollVocabulary.

Context {abi : epoll_abi} {W : Type} {K : kernel W}.
Variable feed : nat → Z → config W → config W.

(** The run a piece of uv__io_poll was in when it ended, however it ended. *)
Definition end_run (o : outcome W (run W)) : run W :=
  match o with Done r | Aborted r | Spinning r => r end.

Definition end_run2 (o : outcome W (run W * Z)) : run W :=
  match o with Done (r, _) => r | Aborted r | Spinning r => r end.

(** Every uv__epoll_wait in the log is followed at once by the update of the
    cached time. *)
Fixpoint wait_then_update (tr : list action) : Prop :=
  match tr with
  | [] => True
  | EvWait _ _ :: rest =>
      match rest with
      | EvUpdateTime _ :: _ => wait_then_update rest
      | _ => False
      end
  | _ :: rest => wait_then_update rest
  end.

(** The values that the updates in the log wrote to loop.time rise: the
    first is not below [lo], the cached time before the log, each later one
    is not below the one before it, and the last is not above [hi]. *)
Fixpoint time_rises (lo : Z) (tr : list action) (hi : Z) : Prop :=
  match tr with
  | [] => lo ≤ hi
  | EvUpdateTime t :: rest => lo ≤ t ∧ time_rises t rest hi
  | _ :: rest => time_rises lo rest hi
  end.

(** The run [r], whose log has grown by [tr], holds the time of its last
    update: if nothing was logged after the last wait and its update, then
    loop.time is the value that was written, and that value is what the
    clock reads in the world the wait returned. *)
Definition holds_update (tr : list action) (r : run W) : Prop :=
  ∀ tr0 timeout res t,
    tr = tr0 ++ [EvWait timeout res; EvUpdateTime t] →
    time (loop (cfg r)) = t ∧ t = now (world (cfg r)).

(** [r] is a later stage of the run that was at [r0]: the log has grown by
    calls that respect [wait_then_update], [time_rises] and [holds_update],
    the cached time has not gone back, and it is not ahead of the clock. *)
Definition extends (r0 r : run W) : Prop :=
  (∃ tr, log r = log r0 ++ tr ∧ wait_then_update tr ∧
     time_rises (time (loop (cfg r0))) tr (time (loop (cfg r))) ∧
     holds_update tr r) ∧
  time (loop (cfg r0)) ≤ time (loop (cfg r)) ∧
  time (loop (cfg r)) ≤ now (world (cfg r)).

(** The clock source never goes back across a system call. *)
Definition monotone_clock : Prop :=
  (∀ κ epfd op target e, now κ ≤ now (uv__epoll_ctl κ epfd op target e).2) ∧
  (∀ κ epfd timeout, now κ ≤ now (uv__epoll_wait κ epfd timeout).2).

(** Callbacks change loop.time, if at all, by reading the same clock. *)
Definition feed_keeps_time : Prop :=
  ∀ w pevents c,
    time (loop c) ≤ now (world c) →
    time (loop c) ≤ time (loop (feed w pevents c)) ∧
    time (loop (feed w pevents c)) ≤ now (world (feed w pevents c)).

End PollVocabulary.

(** ** More vocabulary for heap.h: the order of the nodes *)

(** No node is less than the node above it. *)
Definition heap_ordered (less_than : nat → nat → bool)
    (L : gmap positive nat) : Prop :=
  ∀ p q a b,
    up p = Some q → L !! p = Some a → L !! q = Some b → less_than a b = false.

(** The same, except that the node at [r] has not been compared with the
    node above it yet; the nodes below [r] are already known not to be less
    than the node above [r]. *)
Definition ordered_but (less_than : nat → nat → bool)
    (L : gmap positive nat) (r : positive) : Prop :=
  (∀ p q a b,
     p ≠ r → up p = Some q → L !! p = Some a → L !! q = Some b →
     less_than a b = false) ∧
  (∀ p q a b,
     up p = Some r → up r = Some q → L !! p = Some a → L !! q = Some b →
     less_than a b = false).

(** What the heap asks of a comparator: a < b excludes b < a, and being not
    less is transitive (a strict weak order). *)
Definition strict_weak (less_than : nat → nat → bool) : Prop :=
  (∀ a b, less_than a b = true → less_than b a = false) ∧
  (∀ a b c,
     less_than a b = false → less_than b c = false → less_than a c = false).

(** The layout heap_remove leaves when it is given the node at [r] of a heap
    whose last node is at [last]: the last position is given up, and unless
    the removed node was the last one, the last node takes its place. *)
Definition removed_layout (L : gmap positive nat) (r last : positive)
  : gmap positive nat :=
  match L !! last with
  | Some c => if decide (r = last) then delete last L
              else <[r := c]> (delete last L)
  | None => L
  end.

(** heap.h has no allocator: the addresses that hold a node are the same
    after a heap function as before it. *)
Definition keeps_nodes {A} (c : M A) : Prop :=
  ∀ s a s', c s = Some (a, s') → ∀ b, is_Some (s'.1 !! b) ↔ is_Some (s.1 !! b).

(** A caller that inserts the nodes of a list, one heap_insert after the
    other. *)
Fixpoint insert_each (less_than : nat → nat → bool) (fuel : nat)
    (l : list nat) : M unit :=
  match l with
  | [] => mret tt
  | n :: l' => heap_insert less_than fuel n;; insert_each less_than fuel l'
  end.

(** The heap of the nodes 1, 2, 3 with node 1 at the root, next to the
    nodes 0 and 4 that are in no heap, and its layout. *)
Definition three_layout : gmap positive nat :=
  {[ 1%positive := 1%nat; 2%positive := 2%nat; 3%positive := 3%nat ]}.

Definition three_heap : state :=
  ({[ 0%nat := blank;
      1%nat := HeapNode (Some 2%nat) (Some 3%nat) None;
      2%nat := HeapNode None None (Some 1%nat);
      3%nat := HeapNode None None (Some 1%nat);
      4%nat := blank ]},
   Heap (Some 1%nat) 3).

(** ** More vocabulary for uv__io_poll: what a stretch of the log holds *)

(** The timeouts of the uv__epoll_wait calls, in the order of the calls. *)
Definition wait_timeouts (tr : list action) : list Z :=
  omap (λ a, match a with EvWait t _ => Some t | _ => None end) tr.

(** The watchers that were fed, with the events they were fed. *)
Definition feeds (tr : list action) : list (nat * Z) :=
  omap (λ a, match a with EvFeed w p => Some (w, p) | _ => None end) tr.

(** The operations of the uv__epoll_ctl calls. *)
Definition ctl_ops (tr : list action) : list ctl_op :=
  omap (λ a, match a with EvCtl op _ _ _ => Some op | _ => None end) tr.

(** What one round of the event loop of uv__io_poll appends: a DEL for a
    descriptor without watcher, or at most one callback. *)
Definition dispatch_trace (tr : list action) : Prop :=
  Forall (λ a, match a with
               | EvCtl op _ _ _ => op = UV__EPOLL_CTL_DEL
               | EvFeed _ _ => True
               | _ => False
               end) tr.

(** A list of timeouts that starts at most at [T], never grows and stays
    positive. *)
Fixpoint shrinking (T : Z) (l : list Z) : Prop :=
  match l with
  | [] => True
  | t :: l' => 0 < t ≤ T ∧ shrinking t l'
  end.

(** A stretch of a run in which no wait is made and at most [k] ctl calls
    are. *)
Definition ctl_steps {W : Type} (k : nat) (r0 r : run W) : Prop :=
  ∃ tr, log r = log r0 ++ tr ∧ wait_timeouts tr = [] ∧
        (length (ctl_ops tr) ≤ k)%nat.

(** uv__io_feed leaves loop->watcher_queue alone. *)
Definition feed_keeps_queue {W : Type}
    (feed : nat → Z → config W → config W) : Prop :=
  ∀ w pevents c,
    watcher_queue (loop (feed w pevents c)) = watcher_queue (loop c).

(** A world in which every uv__epoll_wait is interrupted by a signal and
    every uv__epoll_ctl succeeds; the state is the clock. *)
Definition signal_storm : kernel Z :=
  {| uv__epoll_ctl κ _ _ _ _ := (CtlOk, κ);
     uv__epoll_wait κ _ _ := (WaitErr 4, κ + 1);
     now κ := κ |}.

(** The watcher at address 7 asks for level-triggered read readiness on
    fd 5 and is queued for the next uv__io_poll. *)
Definition queued_run : run script :=
  Run (Config (Loop 0 1 3 [7%nat] [None; None; None; None; None; Some 7%nat])
         {[ 7%nat := IoWatcher 5 0 1 0 ]}
         (Script [] [] 0)) [].

(** fd 5 is registered for reading; the first wait is interrupted, the
    second reports fd 5 readable. *)
Definition ready_run : run script :=
  Run (Config (one_watcher_loop 0)
         {[ 7%nat := IoWatcher 5 1 1 0 ]}
         (Script [(WaitErr 4, 10%nat);
                  (WaitEvents [EpollEvent 1 5], 20%nat)] [] 0)) [].

(** A loop with one registered descriptor in the world of [signal_storm]. *)
Definition stormy_run : run Z :=
  Run (Config (one_watcher_loop 0) {[ 7%nat := IoWatcher 5 1 1 0 ]} 0) [].


(** *** Concrete inputs for the system information functions *)

(** readlink(2) as Linux has it, for a link whose target is [link].  The
    system call takes the bound as an int: it fails with EINVAL (22) unless
    that int is positive, and otherwise stores as much of the target as the
    bound allows. *)
Definition readlink_of (link : list Z) : Z → Z + list Z :=
  λ bufsiz,
    let n := (bufsiz + 2 ^ 31) mod 2 ^ 32 - 2 ^ 31 in
    if n <=? 0 then inl 22 else inr (take (Z.to_nat n) link).

(** A getifaddrs list: the loopback interface with an IPv4 address, eth0
    with its packet entry, an IPv4 and an IPv6 address, and eth1, which is
    down. *)
Definition demo_ifaddrs : list ifaddrs :=
  [ Ifaddrs [108; 111] 73 (Some (Sockaddr 17 [] [0; 0; 0; 0; 0; 0; 0; 0]))
      None;
    Ifaddrs [108; 111] 73 (Some (Sockaddr 2 [127; 0; 0; 1] []))
      (Some (Sockaddr 2 [255; 0; 0; 0] []));
    Ifaddrs [101; 116; 104; 48] 67
      (Some (Sockaddr 17 [] [2; 66; 172; 17; 0; 2; 0; 0])) None;
    Ifaddrs [101; 116; 104; 48] 67 (Some (Sockaddr 2 [10; 0; 0; 2] []))
      (Some (Sockaddr 2 [255; 255; 255; 0] []));
    Ifaddrs [101; 116; 104; 48] 67 (Some (Sockaddr 10 [254; 128] []))
      (Some (Sockaddr 10 [255; 255] []));
    Ifaddrs [101; 116; 104; 49] 2 (Some (Sockaddr 2 [10; 0; 1; 2] []))
      (Some (Sockaddr 2 [255; 255; 255; 0] [])) ].

(** An up-and-running interface whose entry has no netmask. *)
Definition tunnel_ifaddrs : list ifaddrs :=
  [ Ifaddrs [116; 117; 110; 48] 65 (Some (Sockaddr 2 [10; 8; 0; 1] [])) None ].

(** A /proc/self/stat whose content is the state: open gives descriptor 3,
    read gives the content. *)
Definition stat_file : procfs (list Z) :=
  {| open_stat w := (inr 3, w);
     read_stat w _ _ := (inr w, w);
     close_stat w _ := w |}.

(** A /proc/self/stat that cannot be opened (ENOENT). *)
Definition no_procfs : procfs unit :=
  {| open_stat w := (inl 2, w);
     read_stat w _ _ := (inl 9, w);
     close_stat w _ := w |}.

(** strtol for concrete runs: it skips spaces and reads decimal digits, and
    leaves errno alone (the runs have no sign and no overflow). *)
Fixpoint digits_value (s : list Z) (acc : Z) : Z :=
  match s with
  | [] => acc
  | x :: rest =>
      if (48 <=? x) && (x <=? 57) then digits_value rest (acc * 10 + (x - 48))
      else acc
  end.

Fixpoint skip_spaces (s : list Z) : list Z :=
  match s with
  | [] => []
  | x :: rest => if x =? SPACE then skip_spaces rest else s
  end.

Definition decimal_strtol (s : list Z) : Z * Z :=
  (digits_value (skip_spaces s) 0, 0).

(** The fields 3 to 25 of a stat line: twenty fields "0", then "5", "7"
    and "9" as fields 23, 24 and 25. *)
Definition demo_fields : list (list Z) :=
  replicate 20 [48] ++ [[53]; [55]; [57]].

(** The stat line of process 1 with the given command name. *)
Definition stat_line (comm : list Z) : list Z :=
  [49] ++ SPACE :: LPAREN :: comm ++ RPAREN :: stat_fields demo_fields.

(** A /proc/cpuinfo with one processor block: a line that is neither
    marker, the model name "Z80" and the speed "800.000". *)
Definition demo_cpuinfo : list (list Z) :=
  [ [112; 114; 111; 99; 101; 115; 115; 111; 114; 9; 58; 32; 48; 10];
    model_marker ++ [90; 56; 48; 10];
    speed_marker ++ [56; 48; 48; 46; 48; 48; 48; 10] ].


(** ** Facts about heap.h *)

(** *** Running the monad one statement at a time *)

Lemma bind_unfold {A B} (c : M A) (f : A → M B) (s : state) :
  (c ≫= f) s = match c s with Some (a, s') => f a s' | None => None end.
Proof. reflexivity. Qed.

Lemma bind_ret {A B} (a : A) (f : A → M B) (s : state) :
  (mret a ≫= f) s = f a s.
Proof. reflexivity. Qed.

Lemma bind_assoc {A B C} (c : M A) (g : A → M B) (f : B → M C) (s : state) :
  ((c ≫= g) ≫= f) s = (c ≫= λ a, g a ≫= f) s.
Proof. rewrite !bind_unfold. by destruct (c s) as [[a s']|]. Qed.

Lemma bind_assert_true {B} (f : unit → M B) (s : state) :
  (assert true ≫= f) s = f tt s.
Proof. reflexivity. Qed.

Lemma bind_deref {B} (a : nat) (f : nat → M B) (s : state) :
  (deref (Some a) ≫= f) s = f a s.
Proof. reflexivity. Qed.

Lemma bind_load_left {B} (a : nat) (nd : heap_node) (f : ptr → M B) m h :
  m !! a = Some nd → (load_left a ≫= f) (m, h) = f (left nd) (m, h).
Proof.
  intros H. unfold load_left, load_node. rewrite !bind_unfold. simpl.
  by rewrite H.
Qed.

Lemma bind_load_right {B} (a : nat) (nd : heap_node) (f : ptr → M B) m h :
  m !! a = Some nd → (load_right a ≫= f) (m, h) = f (right nd) (m, h).
Proof.
  intros H. unfold load_right, load_node. rewrite !bind_unfold. simpl.
  by rewrite H.
Qed.

Lemma bind_load_parent {B} (a : nat) (nd : heap_node) (f : ptr → M B) m h :
  m !! a = Some nd → (load_parent a ≫= f) (m, h) = f (parent nd) (m, h).
Proof.
  intros H. unfold load_parent, load_node. rewrite !bind_unfold. simpl.
  by rewrite H.
Qed.

Lemma bind_store_left {B} (a : nat) (v : ptr) (nd : heap_node)
    (f : unit → M B) m h :
  m !! a = Some nd →
  (store_left a v ≫= f) (m, h) =
    f tt (<[a := HeapNode v (right nd) (parent nd)]> m, h).
Proof.
  intros H. unfold store_left, store_node. rewrite bind_unfold. simpl.
  by rewrite H.
Qed.

Lemma bind_store_right {B} (a : nat) (v : ptr) (nd : heap_node)
    (f : unit → M B) m h :
  m !! a = Some nd →
  (store_right a v ≫= f) (m, h) =
    f tt (<[a := HeapNode (left nd) v (parent nd)]> m, h).
Proof.
  intros H. unfold store_right, store_node. rewrite bind_unfold. simpl.
  by rewrite H.
Qed.

Lemma bind_store_parent {B} (a : nat) (v : ptr) (nd : heap_node)
    (f : unit → M B) m h :
  m !! a = Some nd →
  (store_parent a v ≫= f) (m, h) =
    f tt (<[a := HeapNode (left nd) (right nd) v]> m, h).
Proof.
  intros H. unfold store_parent, store_node. rewrite bind_unfold. simpl.
  by rewrite H.
Qed.

Lemma bind_load_min {B} (f : ptr → M B) m h :
  (load_min ≫= f) (m, h) = f (min h) (m, h).
Proof. reflexivity. Qed.

Lemma bind_store_min {B} (v : ptr) (f : unit → M B) m h :
  (store_min v ≫= f) (m, h) = f tt (m, Heap v (nelts h)).
Proof. reflexivity. Qed.

Lemma bind_load_nelts {B} (f : Z → M B) m h :
  (load_nelts ≫= f) (m, h) = f (nelts h) (m, h).
Proof. reflexivity. Qed.

Lemma bind_store_nelts {B} (v : Z) (f : unit → M B) m h :
  (store_nelts v ≫= f) (m, h) = f tt (m, Heap (min h) v).
Proof. reflexivity. Qed.

Lemma ptr_eqb_refl (p : ptr) : ptr_eqb p p = true.
Proof. unfold ptr_eqb. by apply bool_decide_eq_true_2. Qed.

Lemma ptr_eqb_ne (p q : ptr) : p ≠ q → ptr_eqb p q = false.
Proof. intros H. unfold ptr_eqb. by apply bool_decide_eq_false_2. Qed.

Section HeapFacts.

Variable less_than : nat → nat → bool.

(** With a comparator under which no node is less than itself, the loop at
    the end of heap_remove stops in its first round without a swap: both
    tests compare [child] with itself. *)
Lemma sift_down_never_swaps (fuel : nat) (child : nat) (s : state) :
  (∀ a, less_than a a = false) →
  is_Some (s.1 !! child) →
  sift_down less_than (S fuel) child s = Some (tt, s).
Proof.
  intros Hirr [nd Hnd]. destruct s as [m h]. simpl in Hnd.
  cbn [sift_down].
  rewrite (bind_load_left _ _ _ _ _ Hnd), Hirr, andb_false_r, bind_ret.
  rewrite (bind_load_right _ _ _ _ _ Hnd), Hirr, andb_false_r, bind_ret.
  by rewrite bool_decide_eq_true_2.
Qed.

(** Removing the only node of a heap leaves the empty heap, and the store
    as it was. *)
Lemma heap_remove_only_node (fuel : nat) (n : nat) (m : gmap nat heap_node) :
  m !! n = Some (HeapNode None None None) →
  heap_remove less_than fuel (Some n) (m, Heap (Some n) 1)
    = Some (tt, (m, Heap None 0)).
Proof.
  intros Hn. unfold heap_remove. rewrite bind_load_nelts.
  cbn [nelts Z.eqb]. rewrite bind_unfold.
  change (heap_path UINT_BITS 0 0 1) with (Some (0, 0)).
  cbn [fmap option_fmap option_map]. cbn beta iota.
  change (Z.to_nat 0) with 0%nat. cbn [remove_walk].
  rewrite bind_ret, bind_load_nelts.
  rewrite bind_store_nelts. cbn [load_slot store_slot min nelts].
  rewrite bind_load_min. cbn [min]. rewrite bind_deref.
  rewrite (bind_load_left _ _ _ _ _ Hn). cbn [left].
  rewrite ptr_eqb_refl, bind_assert_true.
  rewrite (bind_load_right _ _ _ _ _ Hn). cbn [right].
  rewrite ptr_eqb_refl, bind_assert_true.
  rewrite (bind_load_parent _ _ _ _ _ Hn). cbn [parent].
  rewrite bind_ret, bind_store_min, bind_load_min. cbn [min].
  by rewrite ptr_eqb_ne.
Qed.

(** C10.  On a heap with nelts == 0, heap_remove returns at once and leaves
    node memory and the heap as they were, whatever pointer it is given and
    whatever the comparator; so does heap_dequeue. *)
Theorem heap_remove_empty_unchanged
    (fuel : nat) (node : ptr) (m : gmap nat heap_node) (h : heap) :
  nelts h = 0 →
  heap_remove less_than fuel node (m, h) = Some (tt, (m, h)) ∧
  heap_dequeue less_than fuel (m, h) = Some (tt, (m, h)).
Proof.
  intros Hn. unfold heap_dequeue. rewrite bind_load_min.
  unfold heap_remove. rewrite !bind_load_nelts, Hn. split; reflexivity.
Qed.

End HeapFacts.

(** *** The path loop *)

Lemma wrap32_small (z : Z) : 0 ≤ z < UINT_MOD → wrap32 z = z.
Proof. intros H. unfold wrap32. by apply Z.mod_small. Qed.

Lemma push_bit (path n : Z) :
  Z.lor (Z.shiftl path 1) (Z.land n 1) = 2 * path + n mod 2.
Proof.
  rewrite Z.shiftl_mul_pow2 by lia.
  change 1 with (Z.ones 1) at 2. rewrite Z.land_ones by lia.
  change (2 ^ 1) with 2.
  assert (Hd : Z.land (path * 2) (n mod 2) = 0).
  { apply Z.bits_inj'. intros i Hi. rewrite Z.land_spec, Z.bits_0.
    destruct (decide (i = 0)) as [->|Hne].
    - rewrite Z.mul_comm, Z.testbit_even_0. done.
    - assert (Hm : Z.testbit (n mod 2) i = false); [|by rewrite Hm, andb_false_r].
      change 2 with (2 ^ 1). rewrite Z.mod_pow2_bits_high; [done|lia]. }
  rewrite <- Z.lxor_lor by done. rewrite <- Z.add_nocarry_lxor by done. lia.
Qed.

Lemma path_bit_testbit (path n : Z) :
  0 ≤ n → path_bit path n = Z.testbit path n.
Proof.
  intros Hn. unfold path_bit. rewrite Z.shiftl_1_l.
  destruct (Z.testbit path n) eqn:Hb.
  - apply negb_true_iff, Z.eqb_neq. intros H0.
    apply (f_equal (λ z, Z.testbit z n)) in H0.
    rewrite Z.land_spec, Z.bits_0, Hb, Z.pow2_bits_true in H0; done.
  - apply negb_false_iff, Z.eqb_eq. apply Z.bits_inj'. intros i Hi.
    rewrite Z.land_spec, Z.bits_0, Z.pow2_bits_eqb by done.
    destruct (Z.eqb_spec n i) as [->|]; [by rewrite Hb|apply andb_false_r].
Qed.

Lemma heap_path_pos (p : positive) : ∀ (fuel : nat) (path k : Z),
  (depth p < fuel)%nat →
  0 ≤ k → 0 ≤ path < 2 ^ k →
  k + Z.of_nat (depth p) ≤ 32 →
  ∃ path',
    heap_path fuel path k (Z.pos p) = Some (path', k + Z.of_nat (depth p)) ∧
    0 ≤ path' ∧
    (∀ i, 0 ≤ i < Z.of_nat (depth p) →
       Z.testbit path' i = Z.testbit (Z.pos p) (Z.of_nat (depth p) - 1 - i)) ∧
    (∀ i, Z.of_nat (depth p) ≤ i →
       Z.testbit path' i = Z.testbit path (i - Z.of_nat (depth p))).
Proof.
  assert (Hstep : ∀ (q : positive) (b : bool) fuel path k,
    (depth q < fuel)%nat → 0 ≤ k → 0 ≤ path < 2 ^ k →
    k + Z.of_nat (S (depth q)) ≤ 32 →
    heap_path (S fuel) path k (2 * Z.pos q + Z.b2z b) =
      heap_path fuel (2 * path + Z.b2z b) (k + 1) (Z.pos q) ∧
    0 ≤ 2 * path + Z.b2z b < 2 ^ (k + 1)).
  { intros q b fuel path k Hf Hk Hp Hd.
    assert (Hpow : 2 ^ (k + 1) = 2 * 2 ^ k)
      by (rewrite Z.pow_add_r by lia; change (2 ^ 1) with 2; lia).
    assert (Hle : 2 ^ (k + 1) ≤ 2 ^ 32) by (apply Z.pow_le_mono_r; lia).
    assert (Hb : 0 ≤ Z.b2z b ≤ 1) by (destruct b; simpl; lia).
    split; [|lia]. cbn [heap_path].
    assert (H2 : (2 <=? 2 * Z.pos q + Z.b2z b) = true) by (apply Z.leb_le; lia).
    rewrite H2, push_bit.
    replace ((2 * Z.pos q + Z.b2z b) mod 2) with (Z.b2z b)
      by (apply (Z.mod_unique _ 2 (Z.pos q)); lia).
    replace ((2 * Z.pos q + Z.b2z b) / 2) with (Z.pos q)
      by (apply (Z.div_unique _ 2 _ (Z.b2z b)); lia).
    rewrite !wrap32_small; [done| |].
    - unfold UINT_MOD. lia.
    - unfold UINT_MOD. lia. }
  assert (Hcons : ∀ (q : positive) (b : bool),
    (∀ (fuel : nat) (path k : Z),
      (depth q < fuel)%nat → 0 ≤ k → 0 ≤ path < 2 ^ k →
      k + Z.of_nat (depth q) ≤ 32 →
      ∃ path',
        heap_path fuel path k (Z.pos q) = Some (path', k + Z.of_nat (depth q)) ∧
        0 ≤ path' ∧
        (∀ i, 0 ≤ i < Z.of_nat (depth q) →
           Z.testbit path' i = Z.testbit (Z.pos q) (Z.of_nat (depth q) - 1 - i)) ∧
        (∀ i, Z.of_nat (depth q) ≤ i →
           Z.testbit path' i = Z.testbit path (i - Z.of_nat (depth q)))) →
    ∀ (fuel : nat) (path k : Z),
      (S (depth q) < fuel)%nat → 0 ≤ k → 0 ≤ path < 2 ^ k →
      k + Z.of_nat (S (depth q)) ≤ 32 →
      ∃ path',
        heap_path fuel path k (2 * Z.pos q + Z.b2z b) =
          Some (path', k + Z.of_nat (S (depth q))) ∧
        0 ≤ path' ∧
        (∀ i, 0 ≤ i < Z.of_nat (S (depth q)) →
           Z.testbit path' i =
             Z.testbit (2 * Z.pos q + Z.b2z b) (Z.of_nat (S (depth q)) - 1 - i)) ∧
        (∀ i, Z.of_nat (S (depth q)) ≤ i →
           Z.testbit path' i = Z.testbit path (i - Z.of_nat (S (depth q))))).
  { intros q b IH fuel path k Hf Hk Hp Hd.
    destruct fuel as [|fuel]; [lia|].
    destruct (Hstep q b fuel path k) as [Heq Hb]; [lia|done..|].
    destruct (IH fuel (2 * path + Z.b2z b) (k + 1))
      as (path' & H1 & H2 & H3 & H4); [lia|lia|done|lia|].
    exists path'. rewrite Heq, H1. split; [f_equal; f_equal; lia|].
    split; [done|]. split.
    - intros i Hi. destruct (decide (i = Z.of_nat (depth q))) as [->|Hne].
      + rewrite H4 by lia. rewrite Z.sub_diag, Z.testbit_0_r.
        replace (Z.of_nat (S (depth q)) - 1 - Z.of_nat (depth q)) with 0 by lia.
        by rewrite Z.testbit_0_r.
      + rewrite H3 by lia.
        replace (Z.of_nat (S (depth q)) - 1 - i)
          with (Z.succ (Z.of_nat (depth q) - 1 - i)) by lia.
        by rewrite Z.testbit_succ_r by lia.
    - intros i Hi. rewrite H4 by lia.
      replace (i - Z.of_nat (depth q))
        with (Z.succ (i - Z.of_nat (S (depth q)))) by lia.
      by rewrite Z.testbit_succ_r by lia. }
  induction p as [q IH|q IH|]; intros fuel path k Hf Hk Hp Hd.
  - apply (Hcons q true IH); done.
  - apply (Hcons q false IH); done.
  - destruct fuel as [|fuel]; [simpl in Hf; lia|].
    exists path. simpl. split; [f_equal; f_equal; lia|]. split; [lia|].
    split; [lia|]. intros i Hi. f_equal. lia.
Qed.

(** *** Walking down a well-formed heap *)

Lemma up_lt (p q : positive) : up p = Some q → (Z.pos q < Z.pos p).
Proof. destruct p; simpl; intros [= <-]; lia. Qed.

Lemma wf_up_occupied L s p q :
  heap_wf L s → Z.pos p ≤ nelts s.2 + 1 → up p = Some q → is_Some (L !! q).
Proof.
  intros Hwf Hp Hup. apply (wf_complete _ _ Hwf).
  apply up_lt in Hup. lia.
Qed.

Lemma load_slot_of {B} L m h p sl (f : ptr → M B) :
  heap_wf L (m, h) → slot_of L p = Some sl →
  (load_slot sl ≫= f) (m, h) = f (L !! p) (m, h).
Proof.
  intros Hwf Hsl. destruct p as [q|q|]; simpl in Hsl.
  - destruct (L !! q) as [a|] eqn:Hq; [|done]. injection Hsl as <-.
    simpl. rewrite (bind_load_right _ _ _ _ _ (wf_node _ _ Hwf _ _ Hq)). done.
  - destruct (L !! q) as [a|] eqn:Hq; [|done]. injection Hsl as <-.
    simpl. rewrite (bind_load_left _ _ _ _ _ (wf_node _ _ Hwf _ _ Hq)). done.
  - injection Hsl as <-. simpl. rewrite bind_load_min.
    pose proof (wf_min _ _ Hwf) as Hm. simpl in Hm. by rewrite Hm.
Qed.

Lemma insert_walk_snoc (cnt : nat) : ∀ path n par child s,
  insert_walk (S cnt) path n par child s =
    match insert_walk cnt path n par child s with
    | Some ((_, child'), s') =>
        (c ← load_slot child';
         a ← deref c;
         mret (child', if path_bit path (n + Z.of_nat cnt)
                       then right_slot a else left_slot a)) s'
    | None => None
    end.
Proof.
  induction cnt as [|cnt IH]; intros path n par child s.
  - rewrite Z.add_0_r. reflexivity.
  - change (insert_walk (S (S cnt)) path n par child s)
      with ((c ← load_slot child; a ← deref c;
             insert_walk (S cnt) path (n + 1) child
               (if path_bit path n then right_slot a else left_slot a)) s).
    change (insert_walk (S cnt) path n par child s)
      with ((c ← load_slot child; a ← deref c;
             insert_walk cnt path (n + 1) child
               (if path_bit path n then right_slot a else left_slot a)) s).
    rewrite !bind_unfold.
    destruct (load_slot child s) as [[c s']|]; [|done].
    rewrite !bind_unfold. destruct (deref c s') as [[a s'']|]; [|done].
    rewrite IH. replace (n + 1 + Z.of_nat cnt) with (n + Z.of_nat (S cnt)) by lia.
    done.
Qed.

Lemma insert_walk_reaches L m h path (p : positive) :
  heap_wf L (m, h) →
  Z.pos p ≤ nelts h + 1 →
  (∀ i, 0 ≤ i < Z.of_nat (depth p) →
     path_bit path i = Z.testbit (Z.pos p) (Z.of_nat (depth p) - 1 - i)) →
  ∃ par child,
    insert_walk (depth p) path 0 min_slot min_slot (m, h)
      = Some ((par, child), (m, h)) ∧
    slot_of L p = Some child ∧
    parent_slot_of L p = Some par.
Proof.
  intros Hwf. induction p as [q IH|q IH|]; intros Hp Hbits.
  - destruct IH as (par & child & Hwalk & Hchild & _); [lia| |].
    { intros i Hi. rewrite Hbits by (simpl depth; lia). simpl depth.
      replace (Z.of_nat (S (depth q)) - 1 - i)
        with (Z.succ (Z.of_nat (depth q) - 1 - i)) by lia.
      change (Z.pos q~1) with (2 * Z.pos q + Z.b2z true).
      by rewrite Z.testbit_succ_r by lia. }
    destruct (wf_up_occupied L (m, h) q~1 q Hwf Hp eq_refl) as [a Ha].
    simpl depth. rewrite insert_walk_snoc, Hwalk.
    rewrite (load_slot_of L m h q child _ Hwf Hchild), Ha, bind_deref.
    rewrite Z.add_0_l, Hbits by (simpl depth; lia). simpl depth.
    replace (Z.of_nat (S (depth q)) - 1 - Z.of_nat (depth q)) with 0 by lia.
    change (Z.pos q~1) with (2 * Z.pos q + Z.b2z true).
    rewrite Z.testbit_0_r. eexists _, _. split; [reflexivity|].
    unfold parent_slot_of. simpl. by rewrite Ha.
  - destruct IH as (par & child & Hwalk & Hchild & _); [lia| |].
    { intros i Hi. rewrite Hbits by (simpl depth; lia). simpl depth.
      replace (Z.of_nat (S (depth q)) - 1 - i)
        with (Z.succ (Z.of_nat (depth q) - 1 - i)) by lia.
      change (Z.pos q~0) with (2 * Z.pos q + Z.b2z false).
      by rewrite Z.testbit_succ_r by lia. }
    destruct (wf_up_occupied L (m, h) q~0 q Hwf Hp eq_refl) as [a Ha].
    simpl depth. rewrite insert_walk_snoc, Hwalk.
    rewrite (load_slot_of L m h q child _ Hwf Hchild), Ha, bind_deref.
    rewrite Z.add_0_l, Hbits by (simpl depth; lia). simpl depth.
    replace (Z.of_nat (S (depth q)) - 1 - Z.of_nat (depth q)) with 0 by lia.
    change (Z.pos q~0) with (2 * Z.pos q + Z.b2z false).
    rewrite Z.testbit_0_r. eexists _, _. split; [reflexivity|].
    unfold parent_slot_of. simpl. by rewrite Ha.
  - exists min_slot, min_slot. done.
Qed.

(** *** Linking the new node *)

Lemma depth_pow (p : positive) : 2 ^ Z.of_nat (depth p) ≤ Z.pos p.
Proof.
  induction p as [q IH|q IH|]; simpl depth; [| |done].
  - rewrite Nat2Z.inj_succ, Z.pow_succ_r by lia. lia.
  - rewrite Nat2Z.inj_succ, Z.pow_succ_r by lia. lia.
Qed.

Lemma depth_bound (p : positive) (n : nat) :
  Z.pos p < 2 ^ Z.of_nat n → (depth p < n)%nat.
Proof.
  intros H. pose proof (depth_pow p) as Hp.
  destruct (decide (depth p < n)%nat) as [|Hge]; [done|].
  assert (2 ^ Z.of_nat n ≤ 2 ^ Z.of_nat (depth p))
    by (apply Z.pow_le_mono_r; lia).
  lia.
Qed.

Lemma wf_frame L m h n nd :
  heap_wf L (m, h) → ¬ in_layout L n → heap_wf L (<[n := nd]> m, h).
Proof.
  intros [H1 H2 H3 H4 H5] Hn. split; try done.
  intros p a Hp. simpl. rewrite lookup_insert_ne.
  - by apply H5.
  - intros ->. apply Hn. by exists p.
Qed.

Lemma wf_above_empty L s p :
  heap_wf L s → nelts s.2 < Z.pos p → L !! p = None.
Proof.
  intros Hwf Hp. destruct (L !! p) as [a|] eqn:E; [|done].
  assert (is_Some (L !! p)) as Hs by (by exists a).
  apply (wf_complete _ _ Hwf) in Hs. lia.
Qed.

Lemma bind_heap_path {B} fuel path k n r (f : Z * Z → M B) s :
  heap_path fuel path k n = Some r →
  ((λ s, (λ r, (r, s)) <$> heap_path fuel path k n) ≫= f) s = f r s.
Proof. intros H. rewrite bind_unfold, H. reflexivity. Qed.

Lemma node_at_insert_inner (L : gmap positive nat) p n r :
  up p ≠ Some r → r ≠ p → up r ≠ Some p →
  node_at (<[p := n]> L) r = node_at L r.
Proof.
  intros H1 H4 H5. unfold node_at.
  rewrite !lookup_insert_ne by (intros ->; by apply H1).
  f_equal. destruct (up r) as [q|] eqn:E; [|done].
  rewrite lookup_insert_ne; [done|]. intros ->. done.
Qed.

Lemma insert_link_wf L m h (n : nat) :
  heap_wf L (m, h) →
  nelts h + 1 < UINT_MOD →
  is_Some (m !! n) →
  ¬ in_layout L n →
  ∃ s1,
    insert_link n (m, h) = Some (tt, s1) ∧
    heap_wf (<[Z.to_pos (nelts h + 1) := n]> L) s1 ∧
    nelts s1.2 = nelts h + 1.
Proof.
  intros Hwf Hlt [nd0 Hn] Hfresh.
  pose proof (wf_range _ _ Hwf) as Hrange. simpl in Hrange.
  set (p := Z.to_pos (nelts h + 1)).
  assert (Hp : Z.pos p = nelts h + 1) by (subst p; lia).
  unfold insert_link.
  rewrite (bind_store_left _ _ _ _ _ _ Hn).
  rewrite (bind_store_right n None _ _ _ _ (lookup_insert_eq _ _ _)).
  rewrite (bind_store_parent n None _ _ _ _ (lookup_insert_eq _ _ _)).
  rewrite !insert_insert_eq. cbn [left right parent].
  set (m1 := <[n := HeapNode None None None]> m).
  assert (Hwf1 : heap_wf L (m1, h)) by (by apply wf_frame).
  rewrite bind_load_nelts.
  rewrite wrap32_small by lia.
  destruct (heap_path_pos p UINT_BITS 0 0) as (path & Hpath & Hpath0 & Hbits & _);
    [apply depth_bound; unfold UINT_BITS; change (2 ^ Z.of_nat 32) with UINT_MOD; lia
    |done|done| |].
  { pose proof (depth_bound p 32) as Hd. unfold UINT_MOD in Hlt.
    change (2 ^ Z.of_nat 32) with (2 ^ 32) in Hd. lia. }
  replace (1 + nelts h) with (Z.pos p) by lia.
  rewrite (bind_heap_path _ _ _ _ _ _ _ Hpath). cbn beta iota.
  rewrite Z.add_0_l, Nat2Z.id.
  destruct (insert_walk_reaches L m1 h path p Hwf1) as (par & child & Hwalk & Hchild & Hpar);
    [simpl; lia| |].
  { intros i Hi. rewrite path_bit_testbit by lia. by apply Hbits. }
  rewrite bind_unfold, Hwalk. cbn beta iota.
  assert (Hn1 : m1 !! n = Some (HeapNode None None None))
    by apply lookup_insert_eq.
  assert (Hfree : ∀ r, Z.pos p ≤ Z.pos r → L !! r = None).
  { intros r Hr. apply (wf_above_empty L (m, h)); [done|simpl; lia]. }
  assert (Hcomplete : ∀ r, is_Some (<[p:=n]> L !! r) ↔ Z.pos r ≤ nelts h + 1).
  { intros r. destruct (decide (r = p)) as [->|Hne].
    - rewrite lookup_insert_eq. split; [lia|by eexists].
    - rewrite lookup_insert_ne by done.
      rewrite (wf_complete _ _ Hwf r). simpl. split; [lia|].
      intros Hle. assert (Z.pos r ≠ Z.pos p) by (intros [= ->]; done). lia. }
  assert (Hinj : ∀ r1 r2 a, <[p:=n]> L !! r1 = Some a →
                   <[p:=n]> L !! r2 = Some a → r1 = r2).
  { intros r1 r2 a.
    destruct (decide (r1 = p)) as [->|Hne1], (decide (r2 = p)) as [->|Hne2];
      rewrite ?lookup_insert_eq, ?lookup_insert_ne by done; try done.
    - intros [= <-] H2. exfalso. apply Hfresh. by exists r2.
    - intros H1 [= <-]. exfalso. apply Hfresh. by exists r1.
    - apply (wf_inj _ _ Hwf). }
  clearbody p. destruct p as [q|q|].
  - (* the slot is the right field of the node at q *)
    destruct (wf_up_occupied L (m, h) q~1 q Hwf) as [a Ha]; [simpl; lia|done|].
    simpl in Hchild. rewrite Ha in Hchild. injection Hchild as <-.
    unfold parent_slot_of in Hpar. simpl in Hpar.
    rewrite (load_slot_of L m1 h q par _ Hwf1 Hpar), Ha.
    assert (Han : a ≠ n) by (intros ->; apply Hfresh; by exists q).
    rewrite (bind_store_parent n (Some a) _ _ _ _ Hn1). cbn [left right].
    cbn [store_slot].
    assert (Ha1 : <[n:=HeapNode None None (Some a)]> m1 !! a = Some (node_at L q)).
    { rewrite lookup_insert_ne by done. apply (wf_node _ _ Hwf1 _ _ Ha). }
    rewrite (bind_store_right a (Some n) _ _ _ _ Ha1).
    rewrite bind_load_nelts. eexists. split; [reflexivity|].
    cbn [store_nelts fst snd nelts min]. rewrite wrap32_small by lia.
    split; [|done]. split; cbn [fst snd nelts min]; try done.
    + lia.
    + rewrite lookup_insert_ne by done. apply (wf_min _ _ Hwf).
    + intros r x. destruct (decide (r = q~1%positive)) as [->|Hne].
      * rewrite lookup_insert_eq. intros [= <-].
        rewrite lookup_insert_ne by done. rewrite lookup_insert_eq.
        unfold node_at. rewrite !lookup_insert_ne by lia.
        rewrite !Hfree by lia. simpl. rewrite lookup_insert_ne by lia.
        by rewrite Ha.
      * rewrite lookup_insert_ne by done. intros Hr.
        destruct (decide (r = q)) as [->|Hnq].
        -- assert (x = a) as -> by congruence.
           rewrite lookup_insert_eq. unfold node_at. cbn [left right parent].
           rewrite lookup_insert_eq, lookup_insert_ne by lia. f_equal.
           f_equal. destruct (up q) as [g|] eqn:E; [|done].
           rewrite lookup_insert_ne; [done|]. intros <-. apply up_lt in E. lia.
        -- assert (x ≠ a).
           { intros ->. apply Hnq. by apply (wf_inj _ _ Hwf _ _ a). }
           assert (x ≠ n) by (intros ->; apply Hfresh; by exists r).
           rewrite !lookup_insert_ne by done.
           rewrite node_at_insert_inner.
           ++ apply (wf_node _ _ Hwf1 _ _ Hr).
           ++ simpl. congruence.
           ++ done.
           ++ intros E. apply up_lt in E.
              assert (is_Some (L !! r)) as Hs by (by eexists).
              apply (wf_complete _ _ Hwf) in Hs. simpl in Hs. lia.
  - (* the slot is the left field of the node at q *)
    destruct (wf_up_occupied L (m, h) q~0 q Hwf) as [a Ha]; [simpl; lia|done|].
    simpl in Hchild. rewrite Ha in Hchild. injection Hchild as <-.
    unfold parent_slot_of in Hpar. simpl in Hpar.
    rewrite (load_slot_of L m1 h q par _ Hwf1 Hpar), Ha.
    assert (Han : a ≠ n) by (intros ->; apply Hfresh; by exists q).
    rewrite (bind_store_parent n (Some a) _ _ _ _ Hn1). cbn [left right].
    cbn [store_slot].
    assert (Ha1 : <[n:=HeapNode None None (Some a)]> m1 !! a = Some (node_at L q)).
    { rewrite lookup_insert_ne by done. apply (wf_node _ _ Hwf1 _ _ Ha). }
    rewrite (bind_store_left a (Some n) _ _ _ _ Ha1).
    rewrite bind_load_nelts. eexists. split; [reflexivity|].
    cbn [store_nelts fst snd nelts min]. rewrite wrap32_small by lia.
    split; [|done]. split; cbn [fst snd nelts min]; try done.
    + lia.
    + rewrite lookup_insert_ne by done. apply (wf_min _ _ Hwf).
    + intros r x. destruct (decide (r = q~0%positive)) as [->|Hne].
      * rewrite lookup_insert_eq. intros [= <-].
        rewrite lookup_insert_ne by done. rewrite lookup_insert_eq.
        unfold node_at. rewrite !lookup_insert_ne by lia.
        rewrite !Hfree by lia. simpl. rewrite lookup_insert_ne by lia.
        by rewrite Ha.
      * rewrite lookup_insert_ne by done. intros Hr.
        destruct (decide (r = q)) as [->|Hnq].
        -- assert (x = a) as -> by congruence.
           rewrite lookup_insert_eq. unfold node_at. cbn [left right parent].
           rewrite lookup_insert_eq, lookup_insert_ne by lia. f_equal.
           f_equal. destruct (up q) as [g|] eqn:E; [|done].
           rewrite lookup_insert_ne; [done|]. intros <-. apply up_lt in E. lia.
        -- assert (x ≠ a).
           { intros ->. apply Hnq. by apply (wf_inj _ _ Hwf _ _ a). }
           assert (x ≠ n) by (intros ->; apply Hfresh; by exists r).
           rewrite !lookup_insert_ne by done.
           rewrite node_at_insert_inner.
           ++ apply (wf_node _ _ Hwf1 _ _ Hr).
           ++ simpl. congruence.
           ++ done.
           ++ intros E. apply up_lt in E.
              assert (is_Some (L !! r)) as Hs by (by eexists).
              apply (wf_complete _ _ Hwf) in Hs. simpl in Hs. lia.
  - (* the heap is empty and the slot is heap->min *)
    simpl in Hchild, Hpar. injection Hchild as <-. injection Hpar as <-.
    cbn [load_slot store_slot]. rewrite bind_load_min.
    pose proof (wf_min _ _ Hwf) as Hm. simpl in Hm.
    rewrite Hm, (Hfree 1%positive) by lia.
    rewrite (bind_store_parent n None _ _ _ _ Hn1). cbn [left right].
    rewrite bind_store_min, bind_load_nelts. eexists. split; [reflexivity|].
    cbn [store_nelts fst snd nelts min]. rewrite wrap32_small by lia.
    split; [|done]. split; cbn [fst snd nelts min]; try done.
    + lia.
    + by rewrite lookup_insert_eq.
    + intros r x. destruct (decide (r = 1%positive)) as [->|Hne].
      * rewrite lookup_insert_eq. intros [= <-]. rewrite lookup_insert_eq.
        unfold node_at. rewrite !lookup_insert_ne by lia.
        by rewrite !Hfree by lia.
      * rewrite lookup_insert_ne by done. rewrite Hfree by lia. done.
Qed.

(** *** Swapping a node with its parent *)

Lemma reparent_lookup_ne x v (m : gmap nat heap_node) a :
  x ≠ Some a → reparent x v m !! a = m !! a.
Proof.
  intros H. unfold reparent. destruct x as [r|]; [|done].
  destruct (m !! r); [|done]. apply lookup_insert_ne. congruence.
Qed.

Lemma reparent_lookup_eq v (m : gmap nat heap_node) a nd :
  m !! a = Some nd →
  reparent (Some a) v m !! a = Some (HeapNode (left nd) (right nd) (Some v)).
Proof. intros H. unfold reparent. rewrite H. apply lookup_insert_eq. Qed.

Lemma bind_reparent {B} (x : ptr) (old new : nat) (f : unit → M B) m h :
  (∀ r, x = Some r → ∃ nd, m !! r = Some nd ∧ parent nd = Some old) →
  (match x with
   | Some r =>
       rp ← load_parent r;
       assert (ptr_eqb rp (Some old));;
       store_parent r (Some new)
   | None => mret tt
   end ≫= f) (m, h) = f tt (reparent x new m, h).
Proof.
  intros H. destruct x as [r|]; [|done].
  destruct (H r eq_refl) as (nd & Hnd & Hp).
  rewrite bind_assoc, (bind_load_parent _ _ _ _ _ Hnd), Hp.
  unfold ptr_eqb. rewrite bool_decide_eq_true_2 by done.
  rewrite bind_assoc, bind_assert_true.
  rewrite (bind_store_parent _ _ _ _ _ _ Hnd).
  unfold reparent. by rewrite Hnd.
Qed.

Lemma run_reparent (x : ptr) (old new : nat) m h :
  (∀ r, x = Some r → ∃ nd, m !! r = Some nd ∧ parent nd = Some old) →
  match x with
  | Some r =>
      rp ← load_parent r;
      assert (ptr_eqb rp (Some old));;
      store_parent r (Some new)
  | None => mret tt
  end (m, h) = Some (tt, (reparent x new m, h)).
Proof.
  intros H. pose proof (bind_reparent x old new mret m h H) as E.
  rewrite bind_unfold in E.
  match type of E with
  | match ?c with _ => _ end = _ => destruct c as [[[] s']|]; done
  end.
Qed.

(** Two nodes of a layout at different positions are different nodes. *)
Ltac addr_ne :=
  let E := fresh "E" in
  intros E; try (injection E as E); subst;
  match goal with
  | Hwf : heap_wf ?L _, H1 : ?L !! ?r1 = Some ?a, H2 : ?L !! ?r2 = Some ?a |- _ =>
      pose proof (wf_inj _ _ Hwf _ _ _ H1 H2); lia
  end.

(** Looking a node up in a store that is a stack of writes: skip the writes
    to other nodes, stop at the last write to this one. *)
Ltac mlookup_rw close :=
  repeat first
    [ rewrite lookup_insert_eq
    | rewrite lookup_insert_ne by addr_ne
    | rewrite reparent_lookup_ne by addr_ne
    | erewrite reparent_lookup_eq by (mlookup_rw close; close) ].

Ltac mlookup_close :=
  first [ reflexivity | eassumption
        | match goal with
          | Hwf : heap_wf ?L _ |- _ => eapply (wf_node _ _ Hwf); eassumption
          end ].

Ltac mlookup := mlookup_rw mlookup_close; mlookup_close.


Lemma wf_occupied_le L s p q :
  heap_wf L s → is_Some (L !! p) → Z.pos q ≤ Z.pos p → is_Some (L !! q).
Proof.
  intros Hwf Hp Hle. apply (wf_complete _ _ Hwf).
  apply (wf_complete _ _ Hwf) in Hp. lia.
Qed.

(** Run one load or one store; the node it touches is looked up in the
    store as it is at that point. *)
Ltac mload :=
  first
    [ erewrite bind_load_left by mlookup
    | erewrite bind_load_right by mlookup
    | erewrite bind_load_parent by mlookup ];
  cbn [left right parent node_at up].

Ltac mstore :=
  first
    [ erewrite bind_store_left by mlookup
    | erewrite bind_store_right by mlookup
    | erewrite bind_store_parent by mlookup ];
  cbn [left right parent node_at up].


(** Replace the positions whose node is known by that node. *)
Ltac lay :=
  repeat match goal with
         | H : ?L !! ?p = Some ?a |- context [?L !! ?p] => rewrite H
         end.

(** The node whose parent field is about to be redirected is there and
    still points to its old parent. *)
Ltac reparent_pre :=
  let r := fresh "r" in
  let Hr := fresh "Hr" in
  intros r Hr; eexists; split;
  [ mlookup | cbn [parent node_at up]; first [ assumption | reflexivity ] ].

(** Run the next statement of heap_node_swap. *)
Ltac mstep :=
  first
    [ rewrite bind_assert_true
    | rewrite bind_ret
    | rewrite bind_load_min
    | rewrite bind_store_min
    | mload
    | mstore
    | rewrite bind_reparent by reparent_pre
    | rewrite run_reparent by reparent_pre
    | rewrite bind_assoc
    | rewrite ptr_eqb_ne by addr_ne ];
  cbn beta iota; lay; rewrite ?ptr_eqb_refl; cbn [orb].


(** The layout after two taken positions have changed hands. *)
Section SwapLayout.
Variables (L : gmap positive nat) (q qc : positive) (pa c : nat).
Hypothesis Hq : L !! q = Some pa.
Hypothesis Hc : L !! qc = Some c.
Hypothesis Hinj : ∀ p1 p2 a, L !! p1 = Some a → L !! p2 = Some a → p1 = p2.

Lemma swapped_occupied r :
  is_Some (<[q := c]> (<[qc := pa]> L) !! r) ↔ is_Some (L !! r).
Proof.
  destruct (decide (r = q)) as [->|H1].
  { rewrite lookup_insert_eq, Hq. split; by eexists. }
  rewrite lookup_insert_ne by done.
  destruct (decide (r = qc)) as [->|H2].
  { rewrite lookup_insert_eq, Hc. split; by eexists. }
  by rewrite lookup_insert_ne by done.
Qed.

Lemma swapped_nodes a :
  in_layout (<[q := c]> (<[qc := pa]> L)) a ↔ in_layout L a.
Proof.
  split; intros [r Hr].
  - destruct (decide (r = q)) as [->|H1].
    { rewrite lookup_insert_eq in Hr. injection Hr as <-. by exists qc. }
    rewrite lookup_insert_ne in Hr by done.
    destruct (decide (r = qc)) as [->|H2].
    { rewrite lookup_insert_eq in Hr. injection Hr as <-. by exists q. }
    rewrite lookup_insert_ne in Hr by done. by exists r.
  - destruct (decide (a = c)) as [->|H1].
    { exists q. by rewrite lookup_insert_eq. }
    destruct (decide (a = pa)) as [->|H2].
    { exists qc. destruct (decide (qc = q)) as [E|E].
      - rewrite E in Hc. congruence.
      - rewrite lookup_insert_ne by done. by rewrite lookup_insert_eq. }
    exists r. rewrite !lookup_insert_ne; [done| |]; intros <-; congruence.
Qed.

Lemma swapped_inj r1 r2 a :
  <[q := c]> (<[qc := pa]> L) !! r1 = Some a →
  <[q := c]> (<[qc := pa]> L) !! r2 = Some a → r1 = r2.
Proof.
  set (σ := λ r, if decide (r = q) then qc
                 else if decide (r = qc) then q else r).
  assert (Hlk : ∀ r, <[q := c]> (<[qc := pa]> L) !! r = L !! σ r).
  { intros r. unfold σ. destruct (decide (r = q)) as [->|H1].
    - by rewrite lookup_insert_eq.
    - rewrite lookup_insert_ne by done.
      destruct (decide (r = qc)) as [->|H2].
      + by rewrite lookup_insert_eq.
      + by rewrite lookup_insert_ne by done. }
  rewrite !Hlk. intros H1 H2. pose proof (Hinj _ _ _ H1 H2) as E.
  unfold σ in E. repeat case_decide; congruence.
Qed.

End SwapLayout.


(** Read the swapped layout at a position. *)
Ltac layout_rw :=
  repeat first [ rewrite lookup_insert_eq | rewrite lookup_insert_ne by lia ].

Ltac node_done :=
  unfold node_at; cbn [up]; layout_rw; lay; reflexivity.

(** The node at a position next to the swapped pair: its record in the new
    store is the one the new layout asks for. *)
Ltac near_case r sp Hr :=
  destruct (decide (r = sp)) as [->|?];
  [ try done;
    try match goal with
        | H : ?L !! sp = Some ?x |- _ =>
            lazymatch H with
            | Hr => fail
            | _ => rewrite H in Hr; injection Hr as <-
            end
        end;
    lay; mlookup_rw mlookup_close;
    first [ node_done | destruct sp; node_done ]
  | ].

(** A node away from the swapped pair: untouched, and the layout around it
    is the old one. *)
Ltac far_case r Hr :=
  mlookup_rw mlookup_close;
  erewrite (wf_node _ _ ltac:(eassumption)) by exact Hr;
  destruct r; first [ congruence | node_done ].


(** What is left to show once heap_node_swap has been run: the new store
    and heap are well formed for the swapped layout.  [q] and [qc] are the
    positions of the parent and the child, [near] handles the node above the
    pair, if there is one. *)
Ltac swap_wf Hwf Hq Hc q qc near :=
  eexists; split; [reflexivity|]; split; [|reflexivity];
  split; cbn [fst snd nelts min];
  [ apply (wf_range _ _ Hwf)
  | let r := fresh "r" in
    intros r; rewrite (swapped_occupied _ _ _ _ _ Hq Hc);
    apply (wf_complete _ _ Hwf)
  | apply (swapped_inj _ _ _ _ _ Hq Hc (wf_inj _ _ Hwf))
  | first [ by rewrite lookup_insert_eq
          | rewrite !lookup_insert_ne by lia; apply (wf_min _ _ Hwf) ]
  | let r := fresh "r" in
    let a := fresh "a" in
    let Hr := fresh "Hr" in
    intros r a;
    destruct (decide (r = q)) as [->|?];
    [ rewrite lookup_insert_eq; intros [= <-];
      mlookup_rw mlookup_close; node_done |];
    rewrite lookup_insert_ne by done;
    destruct (decide (r = qc)) as [->|?];
    [ rewrite lookup_insert_eq; intros [= <-];
      mlookup_rw mlookup_close; node_done |];
    rewrite lookup_insert_ne by done; intros Hr;
    near r Hr;
    near_case r (q~0)%positive Hr;
    near_case r (q~1)%positive Hr;
    near_case r (qc~0)%positive Hr;
    near_case r (qc~1)%positive Hr;
    far_case r Hr ].

Lemma heap_node_swap_wf L m h (q qc : positive) (pa c : nat) :
  heap_wf L (m, h) →
  up qc = Some q →
  L !! q = Some pa →
  L !! qc = Some c →
  ∃ s',
    heap_node_swap pa c (m, h) = Some (tt, s') ∧
    heap_wf (<[q := c]> (<[qc := pa]> L)) s' ∧
    nelts s'.2 = nelts h.
Proof.
  intros Hwf Hup Hq Hc.
  assert (Hgrand : ∀ gq, up q = Some gq → is_Some (L !! gq)).
  { intros gq Hgq. apply (wf_occupied_le L (m, h) q); [done|by eexists|].
    apply up_lt in Hgq. lia. }
  destruct qc as [q0|q0|]; simpl in Hup; [injection Hup as -> ..|done];
    (destruct q as [gq|gq|];
     [ destruct (Hgrand gq eq_refl) as [g Hg]
     | destruct (Hgrand gq eq_refl) as [g Hg]
     | pose proof (wf_min _ _ Hwf) as Hmin; simpl in Hmin ];
     clear Hgrand; unfold heap_node_swap; repeat mstep).
  - swap_wf Hwf Hq Hc (gq~1)%positive (gq~1~1)%positive
      ltac:(fun r Hr => near_case r gq Hr).
  - swap_wf Hwf Hq Hc (gq~0)%positive (gq~0~1)%positive
      ltac:(fun r Hr => near_case r gq Hr).
  - rewrite Hmin, Hq, ptr_eqb_refl. repeat mstep.
    swap_wf Hwf Hq Hc 1%positive 3%positive ltac:(fun r Hr => idtac).
  - swap_wf Hwf Hq Hc (gq~1)%positive (gq~1~0)%positive
      ltac:(fun r Hr => near_case r gq Hr).
  - swap_wf Hwf Hq Hc (gq~0)%positive (gq~0~0)%positive
      ltac:(fun r Hr => near_case r gq Hr).
  - rewrite Hmin, Hq, ptr_eqb_refl. repeat mstep.
    swap_wf Hwf Hq Hc 1%positive 2%positive ltac:(fun r Hr => idtac).
Qed.

(** *** Sifting up *)

Section InsertFacts.

Variable less_than : nat → nat → bool.

Lemma sift_up_wf (fuel : nat) : ∀ L m h (r : positive) (n : nat),
  heap_wf L (m, h) →
  L !! r = Some n →
  (depth r < fuel)%nat →
  ∃ L' s',
    sift_up less_than fuel n (m, h) = Some (tt, s') ∧
    heap_wf L' s' ∧
    nelts s'.2 = nelts h ∧
    (∀ a, in_layout L' a ↔ in_layout L a).
Proof.
  induction fuel as [|fuel IH]; intros L m h r n Hwf Hr Hfuel; [lia|].
  cbn [sift_up].
  pose proof (wf_node _ _ Hwf _ _ Hr) as Hnd. simpl in Hnd.
  rewrite (bind_load_parent _ _ _ _ _ Hnd).
  cbn [parent node_at].
  destruct (up r) as [q|] eqn:Hup.
  - destruct (wf_occupied_le L (m, h) r q Hwf) as [pa Hq];
      [by eexists|apply up_lt in Hup; lia|].
    rewrite Hq. destruct (less_than n pa).
    + destruct (heap_node_swap_wf L m h q r pa n Hwf Hup Hq Hr)
        as ([m1 h1] & Hswap & Hwf1 & Hn1).
      cbn iota. rewrite bind_unfold, Hswap.
      destruct (IH _ m1 h1 q n Hwf1) as (L' & s' & Hrun & Hwf' & Hn' & Hsame).
      * by rewrite lookup_insert_eq.
      * destruct r; simpl in Hup; simplify_eq; simpl in Hfuel; lia.
      * exists L', s'. split; [done|]. split; [done|]. split.
        -- simpl in Hn1. lia.
        -- intros a. rewrite Hsame.
           apply (swapped_nodes L q r pa n Hq Hr).
    + exists L, (m, h). done.
  - exists L, (m, h). done.
Qed.

Lemma depth_log2 (p : positive) : Z.of_nat (depth p) = Z.log2 (Z.pos p).
Proof.
  assert (Hsize : ∀ q, Z.pos (Pos.size q) = Z.of_nat (depth q) + 1).
  { induction q as [q IH|q IH|]; simpl; lia. }
  destruct p as [q|q|]; simpl; rewrite ?Hsize; lia.
Qed.

(** C3.  On a heap that is a complete tree of nelts nodes, with room for one
    more in the unsigned count, heap_insert of a node that is not in the
    heap (1) computes the path whose bit i, for i below k = log2(nelts+1),
    is bit k-1-i of nelts+1, so that the walk from the root reads the binary
    expansion of nelts+1 from just below its leading 1 down to its last bit;
    (2) that walk ends at position nelts+1, which is free while every
    position before it is taken; (3) the node is linked there and nelts
    goes up by one, which leaves a complete tree of nelts+1 nodes; and
    (4) the tree is still a complete tree of nelts+1 nodes, made of the old
    nodes and the new one, when heap_insert returns. *)
Theorem heap_insert_complete (fuel : nat) (L : gmap positive nat)
    (m : gmap nat heap_node) (h : heap) (newnode : nat) :
  heap_wf L (m, h) →
  nelts h + 1 < UINT_MOD →
  is_Some (m !! newnode) →
  ¬ in_layout L newnode →
  (32 ≤ fuel)%nat →
  let target := Z.to_pos (nelts h + 1) in
  let k := Z.log2 (nelts h + 1) in
  (∃ path par child,
     heap_path UINT_BITS 0 0 (wrap32 (1 + nelts h)) = Some (path, k) ∧
     (∀ i, 0 ≤ i < k →
        path_bit path i = Z.testbit (nelts h + 1) (k - 1 - i)) ∧
     insert_walk (Z.to_nat k) path 0 min_slot min_slot (m, h)
       = Some ((par, child), (m, h)) ∧
     slot_of L target = Some child) ∧
  (L !! target = None ∧ ∀ p, (p < target)%positive → is_Some (L !! p)) ∧
  (∃ s1,
     insert_link newnode (m, h) = Some (tt, s1) ∧
     heap_wf (<[target := newnode]> L) s1 ∧
     nelts s1.2 = nelts h + 1) ∧
  (∃ L' s',
     heap_insert less_than fuel newnode (m, h) = Some (tt, s') ∧
     heap_wf L' s' ∧
     nelts s'.2 = nelts h + 1 ∧
     ∀ a, in_layout L' a ↔ a = newnode ∨ in_layout L a).
Proof.
  intros Hwf Hlt Hnew Hfresh Hfuel target k.
  pose proof (wf_range _ _ Hwf) as Hrange. simpl in Hrange.
  assert (Htarget : Z.pos target = nelts h + 1) by (subst target; lia).
  assert (Hdepth : (depth target < 32)%nat).
  { apply depth_bound. change (2 ^ Z.of_nat 32) with UINT_MOD. lia. }
  assert (Hk : k = Z.of_nat (depth target)).
  { subst k. by rewrite depth_log2, Htarget. }
  destruct (insert_link_wf L m h newnode Hwf Hlt Hnew Hfresh)
    as ([m1 h1] & Hlink & Hwf1 & Hn1).
  fold target in Hwf1.
  split; [|split; [|split]].
  - destruct (heap_path_pos target UINT_BITS 0 0)
      as (path & Hpath & _ & Hbits & _); [done|done|done|lia|].
    assert (Hpb : ∀ i, 0 ≤ i < Z.of_nat (depth target) →
      path_bit path i =
        Z.testbit (Z.pos target) (Z.of_nat (depth target) - 1 - i)).
    { intros i Hi. rewrite path_bit_testbit by lia. by apply Hbits. }
    destruct (insert_walk_reaches L m h path target Hwf)
      as (par & child & Hwalk & Hchild & _); [lia|done|].
    exists path, par, child. rewrite wrap32_small by lia.
    replace (1 + nelts h) with (Z.pos target) by lia.
    rewrite Hk, Nat2Z.id. split; [by rewrite Hpath|].
    split; [|done]. intros i Hi. rewrite Hpb by done. by rewrite Htarget.
  - split.
    + apply (wf_above_empty L (m, h)); [done|simpl; lia].
    + intros p Hp. apply (wf_complete _ _ Hwf). simpl. lia.
  - by exists (m1, h1).
  - destruct (sift_up_wf fuel (<[target := newnode]> L) m1 h1 target newnode)
      as (L' & s' & Hrun & Hwf' & Hn' & Hsame); [done| |lia|].
    { by rewrite lookup_insert_eq. }
    exists L', s'. unfold heap_insert. rewrite bind_unfold, Hlink.
    split; [done|]. split; [done|]. split; [simpl in Hn1; lia|].
    intros a. rewrite Hsame. unfold in_layout. split.
    + intros [p Hp]. destruct (decide (p = target)) as [->|Hne].
      * rewrite lookup_insert_eq in Hp. left. congruence.
      * rewrite lookup_insert_ne in Hp by done. right. by exists p.
    + intros [->|[p Hp]].
      * exists target. by rewrite lookup_insert_eq.
      * exists p. rewrite lookup_insert_ne; [done|].
        intros <-. apply Hfresh. exists target.
        assert (is_Some (L !! target)) as Hs by (by eexists).
        apply (wf_complete _ _ Hwf) in Hs. simpl in Hs. lia.
Qed.

End InsertFacts.

(** *** Concrete runs *)

Lemma heap_remove_empty_unchanged_witness :
  let s := fresh_nodes [4%nat] in
  heap_remove by_address 0 (Some 4%nat) s = Some (tt, s) ∧
  heap_dequeue by_address 0 s = Some (tt, s).
Proof.
  intros s. apply (heap_remove_empty_unchanged by_address 0 (Some 4%nat)).
  reflexivity.
Defined.

Lemma single_heap_wf : heap_wf single_layout single_heap.
Proof.
  unfold single_layout. split.
  - simpl. unfold UINT_MOD. lia.
  - intros p. simpl. destruct (decide (p = 1%positive)) as [->|Hne].
    + rewrite lookup_singleton_eq. split; [lia|by eexists].
    + rewrite lookup_singleton_ne by done. split; [by intros [? ?]|lia].
  - intros p q a [<- <-]%lookup_singleton_Some [<- _]%lookup_singleton_Some.
    done.
  - reflexivity.
  - intros p a [<- <-]%lookup_singleton_Some. vm_compute. reflexivity.
Qed.

Lemma heap_insert_complete_witness :
  ∃ L' s',
    heap_insert by_address 32 0 single_heap = Some (tt, s') ∧
    heap_wf L' s' ∧
    nelts s'.2 = 2 ∧
    ∀ a, in_layout L' a ↔ a = 0%nat ∨ in_layout single_layout a.
Proof.
  destruct (heap_insert_complete by_address 32 single_layout
              single_heap.1 single_heap.2 0 single_heap_wf)
    as (_ & _ & _ & H).
  - reflexivity.
  - by eexists.
  - unfold single_layout. intros [p [_ [=]]%lookup_singleton_Some].
  - lia.
  - exact H.
Defined.

(** C1 (failing run).  Nodes 1, 2, 3 are inserted into the empty heap and
    the min, node 1, is removed.  The last node, 3, takes the place of the
    root and stays there: the heap is left with root 3 over its left child
    2, although 2 is less than 3. *)
Theorem heap_remove_leaves_larger_root :
  ∃ m h,
    (heap_insert by_address 32 1;; heap_insert by_address 32 2;;
     heap_insert by_address 32 3;; heap_remove by_address 32 (Some 1%nat))
      (fresh_nodes [1; 2; 3]%nat) = Some (tt, (m, h)) ∧
    min h = Some 3%nat ∧
    nelts h = 2 ∧
    left <$> m !! 3%nat = Some (Some 2%nat) ∧
    by_address 2 3 = true.
Proof.
  eexists _, _. split; [vm_compute; reflexivity|]. repeat split.
Qed.

(** C2 (failing run).  The heap holds 1 at the root over 2 and 3.  Node 0 is
    inserted, which sifts up to the root, and removed again.  The heap is
    left with 2 at the root over 1 and 3: nodes 1 and 2 have changed
    places. *)
Theorem heap_insert_remove_moves_nodes :
  ∃ m0 h0 m1 h1,
    (heap_insert by_address 32 1;; heap_insert by_address 32 2;;
     heap_insert by_address 32 3)
      (fresh_nodes [0; 1; 2; 3]%nat) = Some (tt, (m0, h0)) ∧
    (heap_insert by_address 32 0;; heap_remove by_address 32 (Some 0%nat))
      (m0, h0) = Some (tt, (m1, h1)) ∧
    (min h0 = Some 1%nat ∧ m0 !! 1%nat = Some (HeapNode (Some 2%nat) (Some 3%nat) None)) ∧
    (min h1 = Some 2%nat ∧ m1 !! 2%nat = Some (HeapNode (Some 1%nat) (Some 3%nat) None)) ∧
    nelts h1 = nelts h0.
Proof.
  eexists _, _, _, _. split; [vm_compute; reflexivity|].
  split; [vm_compute; reflexivity|]. repeat split.
Qed.

(** ** Facts about uv__io_poll *)

Section PollFacts.
Context {abi : epoll_abi} {W : Type} {K : kernel W}.
Variable feed : nat → Z → config W → config W.

Lemma do_ctl_log op target e r :
  log (do_ctl op target e r).2 = log r ++ [EvCtl op target e (do_ctl op target e r).1].
Proof.
  unfold do_ctl. destruct (uv__epoll_ctl _ _ _ _ _) as [res κ]. reflexivity.
Qed.

Lemma do_ctl_loop op target e r : loop (cfg (do_ctl op target e r).2) = loop (cfg r).
Proof. unfold do_ctl. destruct (uv__epoll_ctl _ _ _ _ _) as [res κ]. reflexivity. Qed.

Lemma do_ctl_iomem op target e r : iomem (cfg (do_ctl op target e r).2) = iomem (cfg r).
Proof. unfold do_ctl. destruct (uv__epoll_ctl _ _ _ _ _) as [res κ]. reflexivity. Qed.

(** C5 (amended).  The operation chosen for a drained watcher is ADD exactly
    when its committed mask [events] has no bit outside the edge-triggered
    flag UV__POLLET, that is when [events & UV__POLLET == events]; it is MOD
    exactly when some other bit is set.  For a mask without the flag this
    is ADD for [events == 0] and MOD for every other mask. *)
Theorem reconcile_op_spec (ev : Z) :
  (reconcile_op ev = UV__EPOLL_CTL_ADD ↔ Z.land ev UV__POLLET = ev) ∧
  (reconcile_op ev = UV__EPOLL_CTL_MOD ↔ Z.land ev UV__POLLET ≠ ev) ∧
  (Z.land ev UV__POLLET = 0 →
   (reconcile_op ev = UV__EPOLL_CTL_ADD ↔ ev = 0) ∧
   (reconcile_op ev = UV__EPOLL_CTL_MOD ↔ ev ≠ 0)).
Proof.
  assert (Hiff : Z.land ev (Z.lnot UV__POLLET) = 0 ↔ Z.land ev UV__POLLET = ev).
  { split; intros H.
    - apply Z.bits_inj'. intros i Hi.
      apply (f_equal (λ z, Z.testbit z i)) in H.
      rewrite Z.land_spec, Z.lnot_spec, Z.bits_0 in H by done.
      rewrite Z.land_spec.
      destruct (Z.testbit ev i), (Z.testbit UV__POLLET i); done.
    - apply Z.bits_inj'. intros i Hi.
      apply (f_equal (λ z, Z.testbit z i)) in H.
      rewrite Z.land_spec in H.
      rewrite Z.land_spec, Z.lnot_spec, Z.bits_0 by done.
      destruct (Z.testbit ev i), (Z.testbit UV__POLLET i); done. }
  assert (Hop : (reconcile_op ev = UV__EPOLL_CTL_ADD ↔
                   Z.land ev UV__POLLET = ev) ∧
                (reconcile_op ev = UV__EPOLL_CTL_MOD ↔
                   Z.land ev UV__POLLET ≠ ev)).
  { unfold reconcile_op.
    destruct (Z.eqb_spec (Z.land ev (Z.lnot UV__POLLET)) 0) as [H0|H0];
      rewrite <- Hiff; split; split; intros; try done. }
  destruct Hop as [Hadd Hmod]. split; [done|]. split; [done|].
  intros Hno. rewrite Hadd, Hmod, Hno. split; split; congruence.
Qed.

Lemma set_io_twice w io io' (r : run W) : set_io w io' (set_io w io r) = set_io w io' r.
Proof. unfold set_io. simpl. by rewrite insert_insert_eq. Qed.

Ltac step_ctl res r' L Mm :=
  match goal with
  | |- context [do_ctl ?op ?t ?e ?r] =>
      pose proof (do_ctl_log op t e r) as L;
      pose proof (do_ctl_iomem op t e r) as Mm;
      destruct (do_ctl op t e r) as [res r'];
      simpl in L, Mm
  end.

(** C6 (amended).  For a pending watcher that passes the assertions,
    [events := levents] is committed first.  If the operation is MOD and the
    requested mask carries UV__POLLET, no ctl call is made: the latent
    [revents & levents], when non-zero, are cleared from revents and handed
    to uv__io_feed.  On every other path the first thing that follows the
    commit is the ctl call, and the commit stays whether or not that call
    succeeds, also when the process aborts. *)
Theorem reconcile_one_commits_first (w : nat) (io : uv__io_t) (r : run W) :
  iomem (cfg r) !! w = Some io →
  levents io ≠ 0 →
  0 ≤ fd io < Z.of_nat (length (watchers (loop (cfg r)))) →
  let pevents := Z.land (levents io) (revents io) in
  let committed := IoWatcher (fd io) (levents io) (levents io) (revents io) in
  let drained :=
    IoWatcher (fd io) (levents io) (levents io)
      (Z.land (revents io) (Z.lnot pevents)) in
  (reconcile_op (events io) = UV__EPOLL_CTL_MOD →
   Z.land (levents io) UV__POLLET ≠ 0 →
   reconcile_one feed w r =
     Done (if pevents =? 0 then set_io w committed r
           else do_feed feed w pevents (set_io w drained r))) ∧
  (reconcile_op (events io) = UV__EPOLL_CTL_ADD ∨
   Z.land (levents io) UV__POLLET = 0 →
   let r' := end_run (reconcile_one feed w r) in
   iomem (cfg r') = <[w := committed]> (iomem (cfg r)) ∧
   ∃ res tr,
     log r' =
       log r ++ EvCtl (reconcile_op (events io)) (fd io)
                  (reconcile_event (levents io) (fd io)) res :: tr).
Proof.
  intros Hw Hlev [Hfd0 Hfd1] pevents committed drained.
  assert (Hguard : negb (levents io =? 0) && (0 <=? fd io)
      && (fd io <? Z.of_nat (length (watchers (loop (cfg r))))) = true).
  { rewrite !andb_true_iff, negb_true_iff. repeat split.
    - by apply Z.eqb_neq.
    - by apply Z.leb_le.
    - by apply Z.ltb_lt. }
  split.
  - intros Hop Het. unfold reconcile_one. rewrite Hw, Hguard. simpl.
    rewrite Hop. rewrite bool_decide_eq_true_2 by done.
    apply Z.eqb_neq in Het. rewrite Het. simpl.
    fold pevents. destruct (pevents =? 0); [done|].
    rewrite set_io_twice. reflexivity.
  - intros Hcase. unfold reconcile_one. rewrite Hw, Hguard. simpl.
    assert (Hsc : bool_decide (reconcile_op (events io) = UV__EPOLL_CTL_MOD)
                  && negb (Z.land (levents io) UV__POLLET =? 0) = false).
    { destruct Hcase as [Hadd|Hlt].
      - rewrite Hadd. by rewrite bool_decide_eq_false_2.
      - rewrite Hlt. simpl. apply andb_false_r. }
    rewrite Hsc. clear Hsc Hguard.
    step_ctl res1 r1 L1 M1. destruct res1 as [|errno]; simpl.
    { split; [done|]. by eexists _, []. }
    destruct (errno =? EEXIST); simpl.
    2:{ split; [done|]. by eexists _, []. }
    destruct (bool_decide (_ = UV__EPOLL_CTL_ADD)); simpl.
    2:{ split; [done|]. by eexists _, []. }
    destruct (Z.land (levents io) UV__POLLET =? 0).
    + step_ctl res2 r2 L2 M2.
      assert (iomem (cfg r2) = <[w:=committed]> (iomem (cfg r)) ∧
        ∃ res tr, log r2 = log r ++
          EvCtl (reconcile_op (events io)) (fd io)
            (reconcile_event (levents io) (fd io)) res :: tr) as Hgoal.
      { split; [by rewrite M2|]. eexists _, _. rewrite L2, L1.
        by rewrite <- app_assoc. }
      by destruct res2.
    + step_ctl res2 r2 L2 M2. destruct res2; simpl.
      2:{ split; [by rewrite M2|]. eexists _, _. rewrite L2, L1.
          by rewrite <- app_assoc. }
      step_ctl res3 r3 L3 M3.
      assert (iomem (cfg r3) = <[w:=committed]> (iomem (cfg r)) ∧
        ∃ res tr, log r3 = log r ++
          EvCtl (reconcile_op (events io)) (fd io)
            (reconcile_event (levents io) (fd io)) res :: tr) as Hgoal.
      { split; [by rewrite M3, M2|]. eexists _, _. rewrite L3, L2, L1.
        by rewrite <- !app_assoc. }
      by destruct res3.
Qed.

Lemma reconcile_guard (io : uv__io_t) (n : nat) :
  levents io ≠ 0 → 0 ≤ fd io < Z.of_nat n →
  negb (levents io =? 0) && (0 <=? fd io) && (fd io <? Z.of_nat n) = true.
Proof.
  intros Hlev [H0 H1]. rewrite !andb_true_iff, negb_true_iff. repeat split.
  - by apply Z.eqb_neq.
  - by apply Z.leb_le.
  - by apply Z.ltb_lt.
Qed.



Lemma wait_then_update_app tr1 tr2 :
  wait_then_update tr1 → wait_then_update tr2 → wait_then_update (tr1 ++ tr2).
Proof.
  induction tr1 as [|a tr1 IH]; simpl; [done|].
  intros H1 H2. destruct a; try by apply IH.
  destruct tr1 as [|[] tr1]; try done. by apply IH.
Qed.

Lemma time_rises_weaken lo lo' tr hi :
  lo' ≤ lo → time_rises lo tr hi → time_rises lo' tr hi.
Proof.
  revert lo lo'. induction tr as [|a tr IH]; intros lo lo' Hlo; simpl; [lia|].
  destruct a; try by apply IH. intros [H1 H2]. split; [lia|done].
Qed.

Lemma time_rises_app lo tr1 mid tr2 hi :
  time_rises lo tr1 mid → time_rises mid tr2 hi →
  time_rises lo (tr1 ++ tr2) hi.
Proof.
  revert lo. induction tr1 as [|a tr1 IH]; intros lo; simpl.
  - intros H. by apply time_rises_weaken.
  - destruct a; try by apply IH. intros [H1 H2] H3. split; [done|by apply IH].
Qed.

Lemma last_of_two (tr tr0 : list action) x y z :
  tr ++ [x] = tr0 ++ [y; z] → x = z.
Proof.
  change (tr0 ++ [y; z]) with (tr0 ++ [y] ++ [z]). rewrite app_assoc.
  by intros [_ ->]%app_inj_tail.
Qed.

Lemma extends_refl r : time (loop (cfg r)) ≤ now (world (cfg r)) → extends r r.
Proof.
  intros H. split; [|lia]. exists []. rewrite app_nil_r.
  split; [done|]. split; [done|]. split; [simpl; lia|].
  intros tr0 timeout res t E. by destruct tr0.
Qed.

Lemma extends_step r0 r r' a :
  extends r0 r →
  log r' = log r ++ a →
  wait_then_update a →
  time_rises (time (loop (cfg r))) a (time (loop (cfg r'))) →
  time (loop (cfg r)) ≤ time (loop (cfg r')) →
  time (loop (cfg r')) ≤ now (world (cfg r')) →
  (∀ tr, holds_update tr r → holds_update (tr ++ a) r') →
  extends r0 r'.
Proof.
  intros [(tr & Hlog & Htr & Hrise & Hupd) [H1 H2]] Hlog' Ha Hr H3 H4 Hu.
  split; [|lia].
  exists (tr ++ a). split; [by rewrite Hlog', Hlog, <- app_assoc|].
  split; [by apply wait_then_update_app|].
  split; [by apply (time_rises_app _ _ (time (loop (cfg r))))|].
  by apply Hu.
Qed.

(** A step that logs nothing and leaves loop.time and the world alone. *)
Lemma extends_silent r0 r r' :
  extends r0 r →
  log r' = log r →
  time (loop (cfg r')) = time (loop (cfg r)) →
  world (cfg r') = world (cfg r) →
  extends r0 r'.
Proof.
  intros H Hlog Ht Hw. destruct (H) as (_ & _ & Hn).
  apply (extends_step r0 r r' []); simpl; try done.
  - by rewrite app_nil_r.
  - lia.
  - lia.
  - by rewrite Ht, Hw.
  - intros tr Hu. rewrite app_nil_r. intros tr0 timeout res t E.
    rewrite Ht, Hw. by apply (Hu tr0 timeout res).
Qed.

Section Monotone.
Hypothesis Hclock : monotone_clock.
Hypothesis Hfeed : feed_keeps_time feed.

Lemma extends_set_io r0 r w io : extends r0 r → extends r0 (set_io w io r).
Proof. intros H. by apply (extends_silent r0 r). Qed.

Lemma extends_ctl r0 r op target e :
  extends r0 r → extends r0 (do_ctl op target e r).2.
Proof.
  intros H. destruct (H) as (_ & _ & Hn).
  assert (Hnow : time (loop (cfg r)) ≤ now (world (cfg (do_ctl op target e r).2))).
  { destruct Hclock as [Hc _].
    specialize (Hc (world (cfg r)) (backend_fd (loop (cfg r))) op target e).
    unfold do_ctl. destruct (uv__epoll_ctl _ _ _ _ _) as [res κ].
    simpl in *. lia. }
  apply (extends_step r0 r _ [EvCtl op target e (do_ctl op target e r).1]).
  - done.
  - apply do_ctl_log.
  - done.
  - simpl. by rewrite do_ctl_loop.
  - by rewrite do_ctl_loop.
  - by rewrite do_ctl_loop.
  - intros tr _ tr0 timeout res t E. by apply last_of_two in E.
Qed.

Lemma extends_feed r0 r w pevents :
  extends r0 r → extends r0 (do_feed feed w pevents r).
Proof.
  intros H. destruct (H) as (_ & _ & Hn).
  destruct (Hfeed w pevents (cfg r) Hn) as [H1 H2].
  apply (extends_step r0 r _ [EvFeed w pevents]); try done.
  intros tr _ tr0 timeout res t E. by apply last_of_two in E.
Qed.

Lemma extends_wait_update r0 r timeout :
  extends r0 r → extends r0 (uv__update_time (do_wait timeout r).2).
Proof.
  intros H. destruct (H) as (_ & _ & Hn).
  destruct Hclock as [_ Hc].
  specialize (Hc (world (cfg r)) (backend_fd (loop (cfg r))) timeout).
  unfold do_wait. destruct (uv__epoll_wait _ _ _) as [res κ]. simpl in Hc.
  apply (extends_step r0 r _ [EvWait timeout res; EvUpdateTime (now κ)]);
    simpl; try done.
  - by rewrite <- app_assoc.
  - lia.
  - lia.
  - intros tr _ tr0 timeout' res' t E.
    apply app_inj_2 in E as [_ E]; [|done]. by injection E as _ _ <-.
Qed.

Lemma reconcile_one_extends r0 r w :
  extends r0 r → extends r0 (end_run (reconcile_one feed w r)).
Proof.
  intros H. unfold reconcile_one.
  destruct (iomem (cfg r) !! w) as [io|]; [|done].
  destruct (_ && _ && _); [|done].
  destruct (_ && _).
  { destruct (_ =? 0); simpl.
    - by apply extends_set_io.
    - by apply extends_feed, extends_set_io, extends_set_io. }
  match goal with |- context [do_ctl ?a ?b ?c ?d] =>
    pose proof (extends_ctl r0 d a b c (extends_set_io _ _ _ _ H)) as H1;
    destruct (do_ctl a b c d) as [res1 r1] end.
  simpl in H1. destruct res1 as [|errno]; [done|].
  destruct (negb _); [done|]. destruct (negb _); [done|].
  destruct (_ =? 0).
  - match goal with |- context [do_ctl ?a ?b ?c ?d] =>
      pose proof (extends_ctl r0 d a b c H1) as H2;
      destruct (do_ctl a b c d) as [res2 r2] end.
    by destruct res2.
  - match goal with |- context [do_ctl ?a ?b ?c ?d] =>
      pose proof (extends_ctl r0 d a b c H1) as H2;
      destruct (do_ctl a b c d) as [res2 r2] end.
    destruct res2; [|done].
    match goal with |- context [do_ctl ?a ?b ?c ?d] =>
      pose proof (extends_ctl r0 d a b c H2) as H3;
      destruct (do_ctl a b c d) as [res3 r3] end.
    by destruct res3.
Qed.

Lemma reconcile_extends fuel r0 r :
  extends r0 r → extends r0 (end_run (reconcile feed fuel r)).
Proof.
  revert r. induction fuel as [|fuel IH]; intros r H; simpl.
  - by destruct (watcher_queue _).
  - destruct (watcher_queue (loop (cfg r))) as [|w q] eqn:Hq; [done|].
    match goal with |- context [reconcile_one feed w ?d] =>
      assert (extends r0 d) as H0 end.
    { by apply (extends_silent r0 r). }
    pose proof (reconcile_one_extends r0 _ w H0) as H1.
    destruct (reconcile_one feed w _) as [r1|r1|r1]; simpl in *; try done.
    by apply IH.
Qed.

Lemma dispatch_event_extends r0 r pe nevents :
  extends r0 r → extends r0 (end_run2 (dispatch_event feed pe nevents r)).
Proof.
  intros H. unfold dispatch_event.
  destruct (_ && _); [|done].
  destruct (watchers _ !! _) as [[w|]|]; [| |done].
  - destruct (iomem _ !! w) as [io|]; [|done].
    destruct (_ =? 0); simpl.
    + by apply extends_set_io.
    + by apply extends_feed, extends_set_io.
  - pose proof (extends_ctl r0 r UV__EPOLL_CTL_DEL (ev_data pe) pe H) as H1.
    by destruct (do_ctl _ _ _ _).
Qed.

Lemma dispatch_events_extends evs r0 r nevents :
  extends r0 r → extends r0 (end_run2 (dispatch_events feed evs nevents r)).
Proof.
  revert r nevents. induction evs as [|pe evs IH]; intros r nevents H; simpl.
  - done.
  - pose proof (dispatch_event_extends r0 r pe nevents H) as H1.
    destruct (dispatch_event feed pe nevents r) as [[r1 n1]|r1|r1]; simpl in *;
      try done.
    by apply IH.
Qed.

Lemma poll_loop_extends fuel base timeout r0 r :
  extends r0 r → extends r0 (end_run (poll_loop feed fuel base timeout r)).
Proof.
  revert timeout r. induction fuel as [|fuel IH]; intros timeout r H; simpl.
  - done.
  - pose proof (extends_wait_update r0 r timeout H) as H1.
    destruct (do_wait timeout r) as [res r1]. simpl in H1.
    destruct res as [errno|evs].
    + destruct (negb _); [done|].
      destruct (timeout =? -1); [by apply IH|].
      destruct (timeout =? 0); [done|].
      destruct (0 <? timeout); [|done].
      destruct (update_timeout _ _ _); [by apply IH|done].
    + destruct evs as [|pe evs]; [by destruct (negb _)|].
      pose proof (dispatch_events_extends (pe :: evs) r0 _ 0 H1) as H2.
      destruct (dispatch_events feed (pe :: evs) 0 _) as [[r3 n3]|r3|r3];
        simpl in H2; try done.
      destruct (negb _); [done|].
      destruct (timeout =? 0); [done|].
      destruct (timeout =? -1); [by apply IH|].
      destruct (0 <? timeout); [|done].
      destruct (update_timeout _ _ _); [by apply IH|done].
Qed.

End Monotone.

(** With timeout -1, as long as the kernel keeps reporting EINTR the loop
    keeps waiting: whatever fuel it is given, the model is still in the loop
    when the fuel is gone. *)
Lemma poll_loop_eintr_forever (fuel : nat) (base : Z) (r : run W) :
  (∀ κ epfd, (uv__epoll_wait κ epfd (-1)).1 = WaitErr EINTR) →
  ∃ r', poll_loop feed fuel base (-1) r = Spinning r'.
Proof.
  intros Hintr. revert r. induction fuel as [|fuel IH]; intros r.
  - by exists r.
  - cbn [poll_loop]. unfold do_wait.
    specialize (Hintr (world (cfg r)) (backend_fd (loop (cfg r)))).
    destruct (uv__epoll_wait _ _ _) as [res κ]. simpl in Hintr. subst res.
    rewrite Z.eqb_refl. cbn [negb]. apply IH.
Qed.

(** One round of the [for (;;)] loop.  [r2] is the run right after the wait
    returned: the world is the one the kernel left, loop.time is what the
    clock reads in it, and the log has grown by the wait and the update.
    Whatever the round does next starts from [r2]. *)
Lemma poll_loop_round (fuel : nat) (base T : Z) (r : run W) :
  let answer := uv__epoll_wait (world (cfg r)) (backend_fd (loop (cfg r))) T in
  let l := loop (cfg r) in
  let r2 :=
    Run (Config (Loop (now answer.2) (nfds l) (backend_fd l) (watcher_queue l)
                   (watchers l))
           (iomem (cfg r)) answer.2)
        (log r ++ [EvWait T answer.1; EvUpdateTime (now answer.2)]) in
  let o := poll_loop feed (S fuel) base T r in
  o = Done r2 ∨ o = Aborted r2 ∨
  (∃ T', o = poll_loop feed fuel base T' r2) ∨
  ∃ evs, answer.1 = WaitEvents evs ∧
    match dispatch_events feed evs 0 r2 with
    | Done (r3, _) =>
        o = Done r3 ∨ o = Aborted r3 ∨ ∃ T', o = poll_loop feed fuel base T' r3
    | Aborted r3 => o = Aborted r3
    | Spinning r3 => o = Spinning r3
    end.
Proof.
  intros answer l r2 o. subst o. cbn [poll_loop]. unfold do_wait.
  fold answer. destruct answer as [res κ] eqn:E. cbn [fst snd] in r2.
  assert (Hr2 : uv__update_time
            (emit (EvWait T res)
               (Run (Config (loop (cfg r)) (iomem (cfg r)) κ) (log r))) = r2).
  { subst r2 l. unfold uv__update_time, emit, set_loop. cbn.
    by rewrite <- app_assoc. }
  rewrite Hr2. clearbody r2. cbn [fst].
  assert (Hstay : ∀ r3,
    let o := (if T =? -1 then poll_loop feed fuel base T r3
              else if T =? 0 then Done r3
              else if 0 <? T then
                match update_timeout base T r3 with
                | None => Done r3
                | Some T' => poll_loop feed fuel base T' r3
                end
              else Aborted r3) in
    o = Done r3 ∨ o = Aborted r3 ∨ ∃ T', o = poll_loop feed fuel base T' r3).
  { intros r3. cbn zeta.
    destruct (T =? -1); [by right; right; exists T|].
    destruct (T =? 0); [by left|].
    destruct (0 <? T); [|by right; left].
    destruct (update_timeout base T r3) as [T'|]; [|by left].
    right. right. by exists T'. }
  destruct res as [errno|evs].
  - destruct (negb (errno =? EINTR)); [by right; left|].
    destruct (Hstay r2) as [H|[H|H]]; [by left|by right; left|by right; right; left].
  - destruct evs as [|pe evs].
    { destruct (negb (T =? -1)); [by left|by right; left]. }
    right. right. right. exists (pe :: evs). split; [done|].
    destruct (dispatch_events feed (pe :: evs) 0 r2) as [[r3 n3]|r3|r3];
      [|done|done].
    destruct (negb (n3 =? 0)); [by left|].
    destruct (T =? 0) eqn:E0; [by left|].
    exact (Hstay r3).
Qed.

End PollFacts.

(** *** Concrete runs *)

(** C5 (counterexample).  With the Linux value of the flag, a committed mask
    of UV__POLLET alone is non-zero and still yields ADD. *)
Lemma reconcile_op_add_on_nonzero_events :
  @reconcile_op linux_abi (2 ^ 31) = UV__EPOLL_CTL_ADD ∧ 2 ^ 31 ≠ 0.
Proof. split; [reflexivity | discriminate]. Qed.

(** C6 (counterexample).  In two runs [events] becomes [levents] although no
    ctl call has succeeded: in the first the only call fails with ENOMEM
    (12) and the process aborts with the mask already committed, in the
    second no call is made at all. *)
Lemma reconcile_one_commits_without_success :
  (let r' := end_run (@reconcile_one linux_abi script script_kernel
                        quiet_feed 7 (fresh_add_run [CtlErr 12])) in
   events <$> iomem (cfg r') !! 7%nat = Some 1 ∧
   log r' = [EvCtl UV__EPOLL_CTL_ADD 5 (EpollEvent 1 5) (CtlErr 12)]) ∧
  (let r' := end_run (@reconcile_one linux_abi script script_kernel
                        quiet_feed 7 edge_run) in
   events <$> iomem (cfg r') !! 7%nat = Some (4 + 2 ^ 31) ∧
   log r' = [EvFeed 7 4]).
Proof. repeat split; vm_compute; reflexivity. Qed.

Lemma reconcile_one_commits_first_witness :
  @reconcile_one linux_abi script script_kernel quiet_feed 7 edge_run =
    Done (do_feed quiet_feed 7 4
            (set_io 7 (IoWatcher 5 (4 + 2 ^ 31) (4 + 2 ^ 31) 0) edge_run)).
Proof.
  refine (proj1 (@reconcile_one_commits_first linux_abi script script_kernel
                   quiet_feed 7 (IoWatcher 5 (1 + 2 ^ 31) (4 + 2 ^ 31) 4)
                   edge_run _ _ _) _ _).
  - reflexivity.
  - discriminate.
  - simpl. lia.
  - reflexivity.
  - discriminate.
Defined.



Lemma script_clock_monotone : @monotone_clock script script_kernel.
Proof.
  split.
  - intros κ epfd op target e. simpl. destruct (pending_ctls κ); simpl; lia.
  - intros κ epfd timeout. simpl.
    destruct (pending_waits κ) as [|[res dt] rest]; simpl; lia.
Qed.

Lemma quiet_feed_keeps_time : @feed_keeps_time script script_kernel quiet_feed.
Proof. intros w pevents c H. unfold quiet_feed. lia. Qed.


(** C4 (failing run).  uv__io_poll is asked to block for 100; the wait is
    interrupted when 40 have passed and again when 70 have passed.  After
    the first interruption the remaining time is 60, as it should be.  After
    the second one the code compares the 70 that have passed since entry
    with the 60 that were left and returns, 30 short of the block time that
    was asked for. *)
Theorem uv__io_poll_returns_before_timeout :
  ∃ r',
    @uv__io_poll linux_abi script script_kernel quiet_feed 10 100 eintr_twice
      = Done r' ∧
    log r' = [EvWait 100 (WaitErr 4); EvUpdateTime 40;
              EvWait 60 (WaitErr 4); EvUpdateTime 70] ∧
    time (loop (cfg r')) - time (loop (cfg eintr_twice)) = 70.
Proof. eexists. split; [vm_compute; reflexivity|]. split; reflexivity. Qed.

(** ** More facts about heap.h *)

Lemma swapped_lookup (L : gmap positive nat) (q r : positive) (pa n : nat) x :
  <[q := n]> (<[r := pa]> L) !! x =
    if decide (x = q) then Some n
    else if decide (x = r) then Some pa else L !! x.
Proof.
  destruct (decide (x = q)) as [->|H1]; [by rewrite lookup_insert_eq|].
  rewrite lookup_insert_ne by done.
  destruct (decide (x = r)) as [->|H2]; [by rewrite lookup_insert_eq|].
  by rewrite lookup_insert_ne by done.
Qed.

Lemma up_child (p q : positive) :
  up p = Some q ↔ p = (q~0)%positive ∨ p = (q~1)%positive.
Proof.
  destruct p as [p|p|]; simpl; split.
  - intros [= ->]. by right.
  - intros [[=]|[= ->]]. done.
  - intros [= ->]. by left.
  - intros [[= ->]|[=]]. done.
  - done.
  - intros [[=]|[=]].
Qed.

Section OrderFacts.

Variable less_than : nat → nat → bool.
Hypothesis Hsw : strict_weak less_than.

Lemma less_than_irrefl a : less_than a a = false.
Proof.
  destruct Hsw as [Hasym _]. destruct (less_than a a) eqn:E; [|done].
  by rewrite (Hasym a a E) in E.
Qed.

Lemma less_than_trans a b c :
  less_than a b = true → less_than b c = true → less_than a c = true.
Proof.
  destruct Hsw as [Hasym Hneg]. intros Hab Hbc.
  destruct (less_than a c) eqn:E; [done|].
  pose proof (Hneg a c b E (Hasym _ _ Hbc)) as H. congruence.
Qed.

Lemma ordered_but_swap (L : gmap positive nat) (q r : positive) (pa n : nat) :
  (∀ p1 p2 a, L !! p1 = Some a → L !! p2 = Some a → p1 = p2) →
  up r = Some q →
  L !! q = Some pa →
  L !! r = Some n →
  less_than n pa = true →
  ordered_but less_than L r →
  ordered_but less_than (<[q := n]> (<[r := pa]> L)) q.
Proof.
  intros Hinj Hup Hq Hr Hlt [Hord1 Hord2].
  destruct Hsw as [Hasym Hneg].
  assert (Hqr : q ≠ r) by (intros ->; destruct r; simpl in Hup; simplify_eq; lia).
  split.
  - intros p p' a b Hp Hup'. rewrite !swapped_lookup.
    rewrite (decide_False (P := p = q)) by done.
    destruct (decide (p = r)) as [->|Hpr].
    + (* the old parent, now below the node *)
      intros [= <-]. rewrite Hup in Hup'. injection Hup' as <-.
      rewrite decide_True by done. intros [= <-]. by apply Hasym.
    + intros Ha. destruct (decide (p' = q)) as [->|Hp'q].
      * (* the other node below q *)
        intros [= <-]. destruct (less_than a n) eqn:E; [|done].
        pose proof (less_than_trans _ _ _ E Hlt) as Hc.
        rewrite (Hord1 p q a pa Hpr Hup' Ha Hq) in Hc. done.
      * destruct (decide (p' = r)) as [->|Hp'r].
        -- (* a node below r *)
           intros [= <-]. by apply (Hord2 p q a pa Hup' Hup Ha Hq).
        -- intros Hb. by apply (Hord1 p p' a b Hpr Hup' Ha Hb).
  - intros p g a b Hup' Hupq. rewrite !swapped_lookup.
    assert (Hpq : p ≠ q) by (intros ->; destruct q; simpl in Hup'; simplify_eq; lia).
    assert (Hgq : g ≠ q) by (intros ->; destruct q; simpl in Hupq; simplify_eq; lia).
    assert (Hgr : g ≠ r).
    { intros ->. apply up_lt in Hup, Hupq. lia. }
    rewrite (decide_False (P := p = q)), (decide_False (P := g = q)),
      (decide_False (P := g = r)) by done.
    destruct (decide (p = r)) as [->|Hpr].
    + intros [= <-] Hb. by apply (Hord1 q g pa b Hqr Hupq Hq Hb).
    + intros Ha Hb. apply (Hneg a pa b).
      * by apply (Hord1 p q a pa Hpr Hup' Ha Hq).
      * by apply (Hord1 q g pa b Hqr Hupq Hq Hb).
Qed.

Lemma sift_up_ordered (fuel : nat) : ∀ L m h (r : positive) (n : nat),
  heap_wf L (m, h) →
  L !! r = Some n →
  (depth r < fuel)%nat →
  ordered_but less_than L r →
  ∃ L' s',
    sift_up less_than fuel n (m, h) = Some (tt, s') ∧
    heap_wf L' s' ∧
    nelts s'.2 = nelts h ∧
    (∀ a, in_layout L' a ↔ in_layout L a) ∧
    heap_ordered less_than L'.
Proof.
  induction fuel as [|fuel IH]; intros L m h r n Hwf Hr Hfuel Hord; [lia|].
  cbn [sift_up].
  pose proof (wf_node _ _ Hwf _ _ Hr) as Hnd. simpl in Hnd.
  rewrite (bind_load_parent _ _ _ _ _ Hnd).
  cbn [parent node_at].
  destruct (up r) as [q|] eqn:Hup.
  - destruct (wf_occupied_le L (m, h) r q Hwf) as [pa Hq];
      [by eexists|apply up_lt in Hup; lia|].
    rewrite Hq. destruct (less_than n pa) eqn:Hlt.
    + destruct (heap_node_swap_wf L m h q r pa n Hwf Hup Hq Hr)
        as ([m1 h1] & Hswap & Hwf1 & Hn1).
      cbn iota. rewrite bind_unfold, Hswap.
      destruct (IH _ m1 h1 q n Hwf1)
        as (L' & s' & Hrun & Hwf' & Hn' & Hsame & Hord').
      * by rewrite lookup_insert_eq.
      * destruct r; simpl in Hup; simplify_eq; simpl in Hfuel; lia.
      * by apply ordered_but_swap; [apply (wf_inj _ _ Hwf)|..].
      * exists L', s'. split; [done|]. split; [done|]. split; [|split; [|done]].
        -- simpl in Hn1. lia.
        -- intros a. rewrite Hsame.
           apply (swapped_nodes L q r pa n Hq Hr).
    + exists L, (m, h).
      split; [done|]. split; [done|]. split; [done|]. split; [done|].
      intros p p' a b Hup' Ha Hb. destruct Hord as [Hord1 _].
      destruct (decide (p = r)) as [->|Hpr].
      * rewrite Hup in Hup'. injection Hup' as <-. congruence.
      * by apply (Hord1 p p' a b).
  - exists L, (m, h).
    split; [done|]. split; [done|]. split; [done|]. split; [done|].
    intros p p' a b Hup' Ha Hb. destruct Hord as [Hord1 _].
    apply (Hord1 p p' a b); try done. intros ->. congruence.
Qed.

(** In an ordered heap no node is less than the root. *)
Lemma ordered_root_least (L : gmap positive nat) s (root : nat) :
  heap_wf L s →
  heap_ordered less_than L →
  L !! 1%positive = Some root →
  ∀ p a, L !! p = Some a → less_than a root = false.
Proof.
  intros Hwf Hord Hroot. destruct Hsw as [Hasym Hneg].
  assert (Hstep : ∀ (q p : positive) (a : nat), (p = q~0 ∨ p = q~1)%positive →
    (∀ x, L !! q = Some x → less_than x root = false) →
    L !! p = Some a → less_than a root = false).
  { intros q p a Hp IH Ha.
    destruct (wf_occupied_le L s p q Hwf) as [x Hx];
      [by eexists|destruct Hp as [-> | ->]; lia|].
    apply (Hneg a x root); [|by apply IH].
    apply (Hord p q a x); [|done..]. by apply up_child. }
  induction p as [q IH|q IH|]; intros a Ha.
  - apply (Hstep q (q~1)%positive a); auto.
  - apply (Hstep q (q~0)%positive a); auto.
  - rewrite Hroot in Ha. injection Ha as <-. apply less_than_irrefl.
Qed.

End OrderFacts.

(** *** Removing a node *)

Lemma remove_walk_insert_walk (cnt : nat) : ∀ path n par child s,
  remove_walk cnt path n child s =
    match insert_walk cnt path n par child s with
    | Some ((_, c), s') => Some (c, s')
    | None => None
    end.
Proof.
  induction cnt as [|cnt IH]; intros path n par child s; [done|].
  cbn [remove_walk insert_walk]. rewrite !bind_unfold.
  destruct (load_slot child s) as [[c s']|]; [|done].
  rewrite !bind_unfold. destruct (deref c s') as [[a s'']|]; [|done].
  apply IH.
Qed.

(** A node that is in no position differs from every node of the layout. *)
Ltac fresh_ne :=
  let E := fresh "E" in
  intros E; try (injection E as E); subst;
  match goal with
  | Hf : ¬ in_layout _ _ |- _ => apply Hf; eexists; eassumption
  end.

Ltac xlookup_rw close :=
  repeat first
    [ rewrite lookup_insert_eq
    | rewrite lookup_insert_ne by first [ addr_ne | fresh_ne ]
    | rewrite reparent_lookup_ne by first [ addr_ne | fresh_ne ]
    | erewrite reparent_lookup_eq by (xlookup_rw close; close) ].

Ltac xlookup := xlookup_rw mlookup_close; mlookup_close.

Ltac xload :=
  first
    [ erewrite bind_load_left by xlookup
    | erewrite bind_load_right by xlookup
    | erewrite bind_load_parent by xlookup ];
  cbn [left right parent node_at up].

Ltac xstore :=
  first
    [ erewrite bind_store_left by xlookup
    | erewrite bind_store_right by xlookup
    | erewrite bind_store_parent by xlookup ];
  cbn [left right parent node_at up].

(** [x->parent = v] without the assertion, as heap_remove has it. *)
Lemma bind_set_parent {B} (x : ptr) (v : nat) (f : unit → M B) m h :
  (∀ r, x = Some r → is_Some (m !! r)) →
  (match x with
   | Some r => store_parent r (Some v)
   | None => mret tt
   end ≫= f) (m, h) = f tt (reparent x v m, h).
Proof.
  intros H. destruct x as [r|]; [|done].
  destruct (H r eq_refl) as [nd Hnd].
  rewrite (bind_store_parent _ _ _ _ _ _ Hnd).
  unfold reparent. by rewrite Hnd.
Qed.


(** Putting a node that is in no position at an occupied position. *)
Lemma replaced_wf L m h m' h' (r : positive) (c nd : nat) :
  heap_wf L (m, h) →
  ¬ in_layout L c →
  L !! r = Some nd →
  nelts h' = nelts h →
  min h' = <[r := c]> L !! 1%positive →
  m' !! c = Some (node_at (<[r := c]> L) r) →
  (∀ p a, L !! p = Some a → p ≠ r →
     m' !! a = Some (node_at (<[r := c]> L) p)) →
  heap_wf (<[r := c]> L) (m', h').
Proof.
  intros Hwf Hfresh Hr Hn Hmin Hc Hrest.
  assert (Hocc : ∀ p, is_Some (<[r := c]> L !! p) ↔ is_Some (L !! p)).
  { intros p. destruct (decide (p = r)) as [->|Hp].
    - rewrite lookup_insert_eq, Hr. split; by eexists.
    - by rewrite lookup_insert_ne by done. }
  split; cbn [fst snd].
  - rewrite Hn. apply (wf_range _ _ Hwf).
  - intros p. rewrite Hocc, Hn. apply (wf_complete _ _ Hwf).
  - intros p1 p2 a H1 H2.
    destruct (decide (p1 = r)) as [->|Hp1]; destruct (decide (p2 = r)) as [->|Hp2];
      try done.
    + rewrite lookup_insert_eq in H1. injection H1 as <-.
      rewrite lookup_insert_ne in H2 by done. destruct Hfresh. by exists p2.
    + rewrite lookup_insert_eq in H2. injection H2 as <-.
      rewrite lookup_insert_ne in H1 by done. destruct Hfresh. by exists p1.
    + rewrite lookup_insert_ne in H1, H2 by done.
      apply (wf_inj _ _ Hwf _ _ _ H1 H2).
  - done.
  - intros p a Hp. destruct (decide (p = r)) as [->|Hne].
    + rewrite lookup_insert_eq in Hp. by injection Hp as <-.
    + rewrite lookup_insert_ne in Hp by done. by apply Hrest.
Qed.

(** The record of the node at [p] is the one the layout with [c] at [r]
    asks for: [p] is the position above [r], one of the two below it, or
    away from it. *)
Ltac spliced_node p r Hp :=
  first
    [ destruct (decide (p = r~0%positive)) as [->|?];
      [ lay; xlookup_rw mlookup_close; node_done |];
      destruct (decide (p = r~1%positive)) as [->|?];
      [ lay; xlookup_rw mlookup_close; node_done |];
      xlookup_rw mlookup_close;
      erewrite (wf_node _ _ ltac:(eassumption)) by exact Hp;
      f_equal; symmetry; apply node_at_insert_inner;
      [ cbn [up]; intros [=]; lia | done
      | destruct p; cbn [up]; intros [=]; lia ] ].

(** Dropping the last position of a complete tree. *)
Lemma unlinked_wf L m h m' h' (last : positive) :
  heap_wf L (m, h) →
  nelts h = Z.pos last →
  nelts h' = nelts h - 1 →
  min h' = delete last L !! 1%positive →
  (∀ p a, L !! p = Some a → p ≠ last →
     m' !! a = Some (node_at (delete last L) p)) →
  heap_wf (delete last L) (m', h').
Proof.
  intros Hwf Hlast Hn Hmin Hrest.
  pose proof (wf_range _ _ Hwf) as Hrange. cbn [snd] in Hrange.
  split; cbn [fst snd].
  - lia.
  - intros p. destruct (decide (p = last)) as [->|Hp].
    + rewrite lookup_delete_eq. split; [by intros [? ?]|lia].
    + rewrite lookup_delete_ne by done.
      rewrite (wf_complete _ _ Hwf). cbn [snd]. lia.
  - intros p1 p2 a H1 H2.
    apply lookup_delete_Some in H1 as [_ H1].
    apply lookup_delete_Some in H2 as [_ H2].
    apply (wf_inj _ _ Hwf _ _ _ H1 H2).
  - done.
  - intros p a Hp. apply lookup_delete_Some in Hp as [Hne Hp].
    by apply Hrest.
Qed.

Lemma node_at_delete_inner (L : gmap positive nat) p r :
  up p ≠ Some r → r ≠ p → up r ≠ Some p →
  node_at (delete p L) r = node_at L r.
Proof.
  intros H1 H4 H5. unfold node_at.
  rewrite !lookup_delete_ne by (intros ->; by apply H1).
  f_equal. destruct (up r) as [q|] eqn:E; [|done].
  rewrite lookup_delete_ne; [done|]. intros ->. done.
Qed.

Section RemoveFacts.

Variable less_than : nat → nat → bool.
Hypothesis Hirr : ∀ a, less_than a a = false.

(** The second half of heap_remove: the unlinked last node [c] takes the
    place of the node [nd] at position [r]. *)
Lemma splice_wf (fuel : nat) L m h (r : positive) (c nd : nat) :
  heap_wf L (m, h) →
  is_Some (m !! c) →
  ¬ in_layout L c →
  L !! r = Some nd →
  ∃ s',
    (nd ← deref (Some nd);
      nl ← load_left nd;
      store_left c nl;;
      nr ← load_right nd;
      store_right c nr;;
      np ← load_parent nd;
      store_parent c np;;
      cl ← load_left c;
      match cl with
      | Some l => store_parent l (Some c)
      | None => mret tt
      end;;
      cr ← load_right c;
      match cr with
      | Some r => store_parent r (Some c)
      | None => mret tt
      end;;
      np ← load_parent nd;
      match np with
      | None =>
          hm ← load_min;
          assert (ptr_eqb hm (Some nd));;
          store_min (Some c)
      | Some p =>
          pl ← load_left p;
          if ptr_eqb pl (Some nd) then store_left p (Some c)
          else
            pr ← load_right p;
            assert (ptr_eqb pr (Some nd));;
            store_right p (Some c)
      end;;
      sift_down less_than (S fuel) c) (m, h) = Some (tt, s') ∧
    heap_wf (<[r := c]> L) s' ∧ nelts s'.2 = nelts h.
Proof.
  intros Hwf [c0 Hc0] Hfresh Hr.
  rewrite bind_deref.
  xload. xstore. xload. xstore. xload. xstore. xload.
  rewrite bind_set_parent.
  2:{ intros x Hx. xlookup_rw mlookup_close. eexists. mlookup_close. }
  xload.
  rewrite bind_set_parent.
  2:{ intros x Hx. eexists. xlookup. }
  xload. rewrite !insert_insert_eq.
  assert (Hup : ∀ q, up r = Some q → is_Some (L !! q)).
  { intros q Hq. apply (wf_occupied_le L (m, h) r); [done|by eexists|].
    apply up_lt in Hq. lia. }
  destruct r as [q|q|]; cbn [up].
  - destruct (Hup q eq_refl) as [pa Hpa]. rewrite Hpa.
    cbn beta iota. rewrite bind_assoc.
    xload. rewrite ptr_eqb_ne by addr_ne. rewrite bind_assoc.
    xload. lay. rewrite bind_assoc, ptr_eqb_refl, bind_assert_true.
    erewrite bind_store_right by xlookup. cbn [left right parent node_at up].
    rewrite sift_down_never_swaps; [|done|].
    2:{ cbn [fst]. eexists. xlookup. }
    eexists. split; [reflexivity|]. split; [|reflexivity].
    cbn [fst snd].
    eapply replaced_wf; try done.
    + rewrite lookup_insert_ne by lia. apply (wf_min _ _ Hwf).
    + xlookup_rw mlookup_close. unfold node_at. cbn [up].
      rewrite !lookup_insert_ne by lia. by rewrite Hpa.
    + intros p a Hp Hne.
      destruct (decide (p = q)) as [->|?].
      { rewrite Hpa in Hp. injection Hp as <-. xlookup_rw mlookup_close.
        destruct q; node_done. }
      spliced_node p (q~1)%positive Hp.
  - destruct (Hup q eq_refl) as [pa Hpa]. rewrite Hpa.
    cbn beta iota. rewrite bind_assoc.
    xload. lay. rewrite ptr_eqb_refl.
    erewrite bind_store_left by xlookup. cbn [left right parent node_at up].
    rewrite sift_down_never_swaps; [|done|].
    2:{ cbn [fst]. eexists. xlookup. }
    eexists. split; [reflexivity|]. split; [|reflexivity].
    cbn [fst snd].
    eapply replaced_wf; try done.
    + rewrite lookup_insert_ne by lia. apply (wf_min _ _ Hwf).
    + xlookup_rw mlookup_close. unfold node_at. cbn [up].
      rewrite !lookup_insert_ne by lia. by rewrite Hpa.
    + intros p a Hp Hne.
      destruct (decide (p = q)) as [->|?].
      { rewrite Hpa in Hp. injection Hp as <-. xlookup_rw mlookup_close.
        destruct q; node_done. }
      spliced_node p (q~0)%positive Hp.
  - pose proof (wf_min _ _ Hwf) as Hmin. cbn [snd] in Hmin.
    cbn beta iota. rewrite bind_assoc, bind_load_min, Hmin, Hr.
    rewrite bind_assoc, ptr_eqb_refl, bind_assert_true, bind_store_min.
    rewrite sift_down_never_swaps; [|done|].
    2:{ cbn [fst]. eexists. xlookup. }
    eexists. split; [reflexivity|]. split; [|reflexivity].
    cbn [fst snd].
    eapply replaced_wf; try done.
    + by rewrite lookup_insert_eq.
    + xlookup_rw mlookup_close. unfold node_at. cbn [up].
      by rewrite !lookup_insert_ne by lia.
    + intros p a Hp Hne.
      spliced_node p 1%positive Hp.
Qed.


(** The record of the node at [p] once the last position has been
    vacated: [p] is away from the position above the last one. *)
Ltac unlinked_node p Hp :=
  xlookup_rw mlookup_close;
  erewrite (wf_node _ _ ltac:(eassumption)) by exact Hp;
  f_equal; symmetry; apply node_at_delete_inner;
  [ cbn [up]; intros [=]; lia | done
  | destruct p; cbn [up]; intros [=]; subst; congruence ].

(** What is left of heap_remove once the last node [c] is unlinked and the
    store and heap are well formed for the layout without it. *)
Ltac unlinked_rest Hwf Hwf' Hmin fuel r c nd Hr Hc :=
  let Hne := fresh "Hne" in
  destruct (decide (r = _)) as [->|Hne];
  [ rewrite Hc in Hr; injection Hr as <-;
    rewrite ptr_eqb_refl, bind_load_min; cbn [min];
    rewrite ptr_eqb_ne
      by (let E := fresh "E" in
          rewrite Hmin; intros E; symmetry in E; revert E; addr_ne);
    eexists; split; [reflexivity|]; split; [|reflexivity];
    exact Hwf'
  | rewrite ptr_eqb_ne by addr_ne;
    let s' := fresh "s'" in
    let Hrun := fresh "Hrun" in
    let Hwf'' := fresh "Hwf''" in
    let Hn := fresh "Hn" in
    edestruct (splice_wf fuel _ _ _ r c nd Hwf') as (s' & Hrun & Hwf'' & Hn);
    [ eexists; xlookup
    | let x := fresh "x" in
      let Hx1 := fresh "Hx1" in
      let Hx2 := fresh "Hx2" in
      intros [x [Hx1 Hx2]%lookup_delete_Some];
      by pose proof (wf_inj _ _ Hwf _ _ _ Hx2 Hc)
    | by rewrite lookup_delete_ne by done
    | exists s'; split; [exact Hrun|]; split; [exact Hwf''|exact Hn] ] ].

Lemma heap_remove_wf (fuel : nat) L m h (r last : positive) (nd : nat) :
  heap_wf L (m, h) →
  nelts h = Z.pos last →
  L !! r = Some nd →
  ∃ s',
    heap_remove less_than (S fuel) (Some nd) (m, h) = Some (tt, s') ∧
    heap_wf (removed_layout L r last) s' ∧
    nelts s'.2 = nelts h - 1.
Proof.
  intros Hwf Hlast Hr.
  pose proof (wf_range _ _ Hwf) as Hrange. cbn [snd] in Hrange.
  pose proof (wf_min _ _ Hwf) as Hmin. cbn [snd] in Hmin.
  destruct (proj2 (wf_complete _ _ Hwf last)) as [c Hc]; [cbn [snd]; lia|].
  assert (Hrl : Z.pos r ≤ Z.pos last).
  { rewrite <- Hlast. apply (wf_complete _ _ Hwf r). by eexists. }
  assert (Hl0 : L !! (last~0)%positive = None)
    by (apply (wf_above_empty _ _ last~0 Hwf); cbn [snd]; lia).
  assert (Hl1 : L !! (last~1)%positive = None)
    by (apply (wf_above_empty _ _ last~1 Hwf); cbn [snd]; lia).
  unfold heap_remove. rewrite bind_load_nelts.
  assert (Hnz : (nelts h =? 0) = false) by (apply Z.eqb_neq; lia).
  rewrite Hnz.
  destruct (heap_path_pos last UINT_BITS 0 0)
    as (path & Hpath & _ & Hbits & _);
    [apply depth_bound; change (2 ^ Z.of_nat UINT_BITS) with UINT_MOD; lia
    |done|done| |].
  { pose proof (depth_bound last 32) as Hd.
    change (2 ^ Z.of_nat 32) with UINT_MOD in Hd. lia. }
  rewrite Hlast.
  rewrite (bind_heap_path _ _ _ _ _ _ _ Hpath). cbn beta iota.
  rewrite Z.add_0_l, Nat2Z.id.
  destruct (insert_walk_reaches L m h path last Hwf)
    as (par & child & Hwalk & Hchild & _); [lia| |].
  { intros i Hi. rewrite path_bit_testbit by lia. by apply Hbits. }
  rewrite bind_unfold, (remove_walk_insert_walk _ _ _ min_slot), Hwalk.
  rewrite bind_load_nelts, bind_store_nelts, Hlast.
  rewrite wrap32_small by lia.
  unfold removed_layout. rewrite Hc.
  destruct last as [ql|ql|]; cbn [slot_of] in Hchild.
  - destruct (L !! ql) as [pa|] eqn:Hpa; [|done]. injection Hchild as <-.
    cbn [load_slot store_slot].
    mload. lay. rewrite bind_deref.
    mload. rewrite Hl0, ptr_eqb_refl, bind_assert_true.
    mload. rewrite Hl1, ptr_eqb_refl, bind_assert_true.
    mload. lay. cbn beta iota. rewrite !bind_assoc.
    mload. rewrite bind_assoc. mload. lay. rewrite ptr_eqb_refl, orb_true_r, bind_assert_true.
    mstore. lay.
    match goal with
    | |- ∃ s', _ (?mu, ?hu) = _ ∧ _ =>
        assert (heap_wf (delete (ql~1)%positive L) (mu, hu)) as Hwf'
    end.
    { apply (unlinked_wf L m h _ _ _ Hwf Hlast); cbn [nelts min].
      - lia.
      - rewrite lookup_delete_ne by lia. apply (wf_min _ _ Hwf).
      - intros p a Hp Hne.
        destruct (decide (p = ql)) as [->|?].
        { rewrite Hpa in Hp. injection Hp as <-. xlookup_rw mlookup_close.
          unfold node_at. rewrite lookup_delete_eq.
          rewrite lookup_delete_ne by lia.
          destruct ql; cbn [up]; by rewrite ?lookup_delete_ne by lia. }
        unlinked_node p Hp. }
    unlinked_rest Hwf Hwf' Hmin fuel r c nd Hr Hc.
  - destruct (L !! ql) as [pa|] eqn:Hpa; [|done]. injection Hchild as <-.
    cbn [load_slot store_slot].
    mload. lay. rewrite bind_deref.
    mload. rewrite Hl0, ptr_eqb_refl, bind_assert_true.
    mload. rewrite Hl1, ptr_eqb_refl, bind_assert_true.
    mload. lay. cbn beta iota. rewrite !bind_assoc.
    mload. rewrite bind_assoc. mload. lay.
    rewrite ptr_eqb_refl, orb_true_l, bind_assert_true.
    mstore. lay.
    match goal with
    | |- ∃ s', _ (?mu, ?hu) = _ ∧ _ =>
        assert (heap_wf (delete (ql~0)%positive L) (mu, hu)) as Hwf'
    end.
    { apply (unlinked_wf L m h _ _ _ Hwf Hlast); cbn [nelts min].
      - lia.
      - rewrite lookup_delete_ne by lia. apply (wf_min _ _ Hwf).
      - intros p a Hp Hne.
        destruct (decide (p = ql)) as [->|?].
        { rewrite Hpa in Hp. injection Hp as <-. xlookup_rw mlookup_close.
          unfold node_at. rewrite lookup_delete_eq.
          rewrite lookup_delete_ne by lia.
          destruct ql; cbn [up]; by rewrite ?lookup_delete_ne by lia. }
        unlinked_node p Hp. }
    unlinked_rest Hwf Hwf' Hmin fuel r c nd Hr Hc.
  - injection Hchild as <-. cbn [load_slot store_slot].
    assert (r = 1%positive) as -> by lia.
    rewrite Hc in Hr. injection Hr as <-.
    rewrite bind_load_min. cbn [min]. rewrite Hmin, Hc, bind_deref.
    mload. rewrite Hl0, ptr_eqb_refl, bind_assert_true.
    mload. rewrite Hl1, ptr_eqb_refl, bind_assert_true.
    mload. cbn beta iota. rewrite bind_ret, bind_store_min.
    rewrite ?ptr_eqb_refl, bind_load_min. cbn [min].
    rewrite ptr_eqb_ne by done.
    eexists. split; [reflexivity|]. split; [|reflexivity].
    rewrite decide_True by done.
    apply (unlinked_wf L m h _ _ _ Hwf Hlast); cbn [nelts min].
    + lia.
    + by rewrite lookup_delete_eq.
    + intros p a Hp Hne.
      assert (is_Some (L !! p)) as Hs by (by eexists).
      apply (wf_complete _ _ Hwf) in Hs. cbn [snd] in Hs. lia.
Qed.

End RemoveFacts.

(** *** A concrete heap *)

Lemma three_layout_lookup p :
  three_layout !! p =
    if decide (p = 1%positive) then Some 1%nat
    else if decide (p = 2%positive) then Some 2%nat
    else if decide (p = 3%positive) then Some 3%nat else None.
Proof.
  unfold three_layout.
  repeat case_decide; subst;
    repeat first [ rewrite lookup_insert_eq | rewrite lookup_insert_ne by done
                 | rewrite lookup_singleton_eq | rewrite lookup_singleton_ne by done ];
    done.
Qed.

Lemma three_heap_wf : heap_wf three_layout three_heap.
Proof.
  split.
  - simpl. unfold UINT_MOD. lia.
  - intros p. rewrite three_layout_lookup. cbn [snd three_heap nelts].
    repeat case_decide; subst; split; try lia; try (by eexists); by intros [? ?].
  - intros p q a. rewrite !three_layout_lookup.
    repeat case_decide; subst; congruence.
  - reflexivity.
  - intros p a. rewrite three_layout_lookup.
    repeat case_decide; subst; intros [= <-]; vm_compute; reflexivity.
Qed.

Lemma three_heap_built :
  (heap_insert by_address 32 1;; heap_insert by_address 32 2;;
   heap_insert by_address 32 3) (fresh_nodes [0; 1; 2; 3; 4]%nat)
  = Some (tt, three_heap).
Proof. vm_compute. reflexivity. Qed.

(** *** The heap functions neither add nor drop node addresses *)

Lemma kn_ret {A} (a : A) : keeps_nodes (mret a).
Proof. intros s a' s' [= <- <-] b. done. Qed.

Lemma kn_bind {A B} (c : M A) (f : A → M B) :
  keeps_nodes c → (∀ a, keeps_nodes (f a)) → keeps_nodes (c ≫= f).
Proof.
  intros Hc Hf s b s' H. rewrite bind_unfold in H.
  destruct (c s) as [[a s1]|] eqn:E; [|done].
  intros x. rewrite (Hf a _ _ _ H x). apply (Hc _ _ _ E).
Qed.

Lemma kn_fault {A} : keeps_nodes (@fault A).
Proof. intros s a s' [=]. Qed.

Lemma kn_assert b : keeps_nodes (assert b).
Proof. destruct b; [apply kn_ret|apply kn_fault]. Qed.

Lemma kn_deref p : keeps_nodes (deref p).
Proof. destruct p; [apply kn_ret|apply kn_fault]. Qed.

Lemma kn_load_node a : keeps_nodes (load_node a).
Proof.
  intros s nd s' H. unfold load_node in H.
  destruct (s.1 !! a); [|done]. by injection H as <- <-.
Qed.

Lemma kn_store_node a f : keeps_nodes (store_node a f).
Proof.
  intros s u s' H. unfold store_node in H.
  destruct (s.1 !! a) as [nd|] eqn:E; [|done]. injection H as <- <-.
  intros b. cbn [fst]. destruct (decide (a = b)) as [<-|Hne].
  - rewrite lookup_insert_eq, E. split; by eexists.
  - by rewrite lookup_insert_ne by done.
Qed.

Lemma kn_state {A} (c : M A) :
  (∀ s a s', c s = Some (a, s') → s'.1 = s.1) → keeps_nodes c.
Proof. intros H s a s' E b. by rewrite (H _ _ _ E). Qed.

Ltac kn :=
  repeat first
    [ apply kn_ret | apply kn_fault | apply kn_assert | apply kn_deref
    | apply kn_load_node | apply kn_store_node
    | apply kn_state; intros ? ? ? [= <- <-]; reflexivity
    | apply kn_bind; [|intros ?]
    | match goal with
      | |- keeps_nodes (match ?x with _ => _ end) => destruct x
      end ].

Lemma kn_load_slot sl : keeps_nodes (load_slot sl).
Proof.
  destruct sl; cbn [load_slot];
    unfold load_min, load_left, load_right; kn.
Qed.

Lemma kn_store_slot sl v : keeps_nodes (store_slot sl v).
Proof.
  destruct sl; cbn [store_slot];
    unfold store_min, store_left, store_right; kn.
Qed.

Lemma kn_heap_node_swap pa c : keeps_nodes (heap_node_swap pa c).
Proof.
  unfold heap_node_swap, load_left, load_right, load_parent, store_left,
    store_right, store_parent, load_min, store_min.
  kn.
Qed.

Lemma kn_insert_walk cnt : ∀ path n par child,
  keeps_nodes (insert_walk cnt path n par child).
Proof.
  induction cnt as [|cnt IH]; intros path n par child; cbn [insert_walk].
  - kn.
  - apply kn_bind; [apply kn_load_slot|intros c].
    apply kn_bind; [apply kn_deref|intros ?]. apply IH.
Qed.

Lemma kn_sift_up less_than fuel n : keeps_nodes (sift_up less_than fuel n).
Proof.
  induction fuel as [|fuel IH]; cbn [sift_up]; [kn|].
  unfold load_parent.
  apply kn_bind; [kn|intros np]. destruct np as [p|]; [|kn].
  destruct (less_than n p); [|kn].
  apply kn_bind; [apply kn_heap_node_swap|intros _; apply IH].
Qed.

Lemma kn_heap_insert less_than fuel n :
  keeps_nodes (heap_insert less_than fuel n).
Proof.
  unfold heap_insert. apply kn_bind; [|intros _; apply kn_sift_up].
  unfold insert_link, store_left, store_right, store_parent, load_nelts,
    store_nelts.
  do 4 (apply kn_bind; [kn|intros ?]).
  apply kn_bind.
  { apply kn_state. intros s r s' H.
    destruct (heap_path _ _ _ _); [|done]. by injection H as <- <-. }
  intros [path k].
  apply kn_bind; [apply kn_insert_walk|intros [par child]].
  apply kn_bind; [apply kn_load_slot|intros pv].
  apply kn_bind; [kn|intros _].
  apply kn_bind; [apply kn_store_slot|intros _].
  kn.
Qed.

(** *** Order, removal and round trips *)

Lemma removed_layout_nodes L s (r last : positive) (nd : nat) :
  heap_wf L s →
  nelts s.2 = Z.pos last →
  L !! r = Some nd →
  ∀ a, in_layout (removed_layout L r last) a ↔ in_layout L a ∧ a ≠ nd.
Proof.
  intros Hwf Hlast Hr a.
  destruct (proj2 (wf_complete _ _ Hwf last)) as [c Hc]; [lia|].
  pose proof (wf_inj _ _ Hwf) as Hinj.
  unfold removed_layout. rewrite Hc. destruct (decide (r = last)) as [->|Hne].
  - rewrite Hc in Hr. injection Hr as <-. split.
    + intros [p [Hp1 Hp2]%lookup_delete_Some]. split; [by exists p|].
      intros ->. by pose proof (Hinj _ _ _ Hp2 Hc).
    + intros [[p Hp] Ha]. exists p. apply lookup_delete_Some. split; [|done].
      intros <-. congruence.
  - split.
    + intros [p Hp]. destruct (decide (p = r)) as [->|Hpr].
      * rewrite lookup_insert_eq in Hp. injection Hp as <-.
        split; [by exists last|]. intros ->.
        by pose proof (Hinj _ _ _ Hr Hc).
      * rewrite lookup_insert_ne in Hp by done.
        apply lookup_delete_Some in Hp as [Hp1 Hp2].
        split; [by exists p|]. intros ->.
        by pose proof (Hinj _ _ _ Hr Hp2).
    + intros [[p Hp] Ha]. destruct (decide (p = last)) as [->|Hpl].
      * exists r. rewrite lookup_insert_eq. congruence.
      * exists p. rewrite lookup_insert_ne by (intros <-; congruence).
        by apply lookup_delete_Some.
Qed.

Lemma insert_ordered_but less_than L s (n : nat) (target : positive) :
  heap_wf L s →
  Z.pos target = nelts s.2 + 1 →
  heap_ordered less_than L →
  ordered_but less_than (<[target := n]> L) target.
Proof.
  intros Hwf Htarget Hord.
  assert (Hle : ∀ p a, L !! p = Some a → Z.pos p ≤ nelts s.2).
  { intros p a Hp. apply (wf_complete _ _ Hwf). by eexists. }
  split.
  - intros p q a b Hp Hup Ha Hb. rewrite lookup_insert_ne in Ha by done.
    pose proof (Hle _ _ Ha). pose proof (up_lt _ _ Hup).
    rewrite lookup_insert_ne in Hb by lia. by apply (Hord p q a b).
  - intros p q a b Hup _ Ha _. pose proof (up_lt _ _ Hup).
    rewrite lookup_insert_ne in Ha by lia. pose proof (Hle _ _ Ha). lia.
Qed.

Section MoreHeapFacts.

Variable less_than : nat → nat → bool.

Lemma heap_insert_ordered (fuel : nat) L m h (n : nat) :
  strict_weak less_than →
  heap_wf L (m, h) →
  heap_ordered less_than L →
  nelts h + 1 < UINT_MOD →
  is_Some (m !! n) →
  ¬ in_layout L n →
  (32 ≤ fuel)%nat →
  ∃ L' s',
    heap_insert less_than fuel n (m, h) = Some (tt, s') ∧
    heap_wf L' s' ∧
    heap_ordered less_than L' ∧
    nelts s'.2 = nelts h + 1 ∧
    ∀ a, in_layout L' a ↔ a = n ∨ in_layout L a.
Proof.
  intros Hsw Hwf Hord Hlt Hnew Hfresh Hfuel.
  pose proof (wf_range _ _ Hwf) as Hrange. simpl in Hrange.
  set (target := Z.to_pos (nelts h + 1)).
  assert (Htarget : Z.pos target = nelts h + 1) by (subst target; lia).
  assert (Hdepth : (depth target < 32)%nat).
  { apply depth_bound. change (2 ^ Z.of_nat 32) with UINT_MOD. lia. }
  destruct (insert_link_wf L m h n Hwf Hlt Hnew Hfresh)
    as ([m1 h1] & Hlink & Hwf1 & Hn1).
  fold target in Hwf1.
  destruct (sift_up_ordered less_than Hsw fuel (<[target := n]> L) m1 h1
              target n)
    as (L' & s' & Hrun & Hwf' & Hn' & Hsame & Hord'); [done| |lia| |].
  { by rewrite lookup_insert_eq. }
  { by apply (insert_ordered_but less_than L (m, h)). }
  exists L', s'. unfold heap_insert. rewrite bind_unfold, Hlink.
  split; [done|]. split; [done|]. split; [done|].
  split; [simpl in Hn1; lia|].
  intros a. rewrite Hsame. unfold in_layout. split.
  - intros [p Hp]. destruct (decide (p = target)) as [->|Hne].
    + rewrite lookup_insert_eq in Hp. left. congruence.
    + rewrite lookup_insert_ne in Hp by done. right. by exists p.
  - intros [->|[p Hp]].
    + exists target. by rewrite lookup_insert_eq.
    + exists p. rewrite lookup_insert_ne; [done|].
      intros <-. apply Hfresh. exists target.
      assert (is_Some (L !! target)) as Hs by (by eexists).
      apply (wf_complete _ _ Hwf) in Hs. simpl in Hs. lia.
Qed.

(** X1.  heap_insert keeps the heap a complete tree in which no node is less
    than the node above it, for every comparator that is a strict weak
    order; the heap then holds the old nodes and the new one. *)
Theorem heap_insert_keeps_order (fuel : nat) (L : gmap positive nat)
    (m : gmap nat heap_node) (h : heap) (newnode : nat) :
  strict_weak less_than →
  heap_wf L (m, h) →
  heap_ordered less_than L →
  nelts h + 1 < UINT_MOD →
  is_Some (m !! newnode) →
  ¬ in_layout L newnode →
  (32 ≤ fuel)%nat →
  ∃ L' s',
    heap_insert less_than fuel newnode (m, h) = Some (tt, s') ∧
    heap_wf L' s' ∧
    heap_ordered less_than L' ∧
    nelts s'.2 = nelts h + 1 ∧
    ∀ a, in_layout L' a ↔ a = newnode ∨ in_layout L a.
Proof. apply heap_insert_ordered. Qed.

(** X2.  On a complete, ordered heap heap_min returns the root without touching
    the heap; it is NULL exactly when the heap is empty, and otherwise no
    node of the heap is less than it. *)
Theorem heap_min_is_least (L : gmap positive nat) (s : state) :
  strict_weak less_than →
  heap_wf L s →
  heap_ordered less_than L →
  ∃ root,
    heap_min s = Some (root, s) ∧
    (root = None ↔ nelts s.2 = 0) ∧
    ∀ r a, root = Some r → in_layout L a →
      in_layout L r ∧ less_than a r = false.
Proof.
  intros Hsw Hwf Hord. exists (min s.2). split; [done|].
  pose proof (wf_min _ _ Hwf) as Hmin.
  pose proof (wf_complete _ _ Hwf 1%positive) as Hone.
  pose proof (wf_range _ _ Hwf) as Hrange.
  split.
  - rewrite Hmin. split.
    + intros Hnone. rewrite Hnone in Hone.
      destruct (decide (nelts s.2 = 0)) as [|Hnz]; [done|].
      destruct (proj2 Hone) as [? [=]]. lia.
    + intros Hz. destruct (L !! 1%positive) eqn:E; [|done].
      assert (Z.pos 1 ≤ nelts s.2) by (apply Hone; by eexists). lia.
  - intros r a Hr [p Hp]. rewrite Hmin in Hr. split; [by exists 1%positive|].
    by apply (ordered_root_least less_than Hsw L s r Hwf Hord Hr p a).
Qed.

(** A run of heap_inserts keeps what one heap_insert keeps. *)
Lemma insert_each_ordered (fuel : nat) (l : list nat) : ∀ L m h,
  strict_weak less_than →
  heap_wf L (m, h) →
  heap_ordered less_than L →
  nelts h + Z.of_nat (length l) < UINT_MOD →
  NoDup l →
  (∀ n, n ∈ l → is_Some (m !! n) ∧ ¬ in_layout L n) →
  (32 ≤ fuel)%nat →
  ∃ L' s',
    insert_each less_than fuel l (m, h) = Some (tt, s') ∧
    heap_wf L' s' ∧
    heap_ordered less_than L' ∧
    nelts s'.2 = nelts h + Z.of_nat (length l) ∧
    ∀ a, in_layout L' a ↔ a ∈ l ∨ in_layout L a.
Proof.
  induction l as [|n l IH]; intros L m h Hsw Hwf Hord Hlen Hnd Hnodes Hfuel.
  - exists L, (m, h). cbn [insert_each length]. split; [done|].
    split; [done|]. split; [done|]. split; [simpl; lia|].
    intros a. rewrite elem_of_nil. tauto.
  - apply NoDup_cons in Hnd as [Hnl Hnd]. cbn [length] in Hlen.
    destruct (Hnodes n) as [Hn Hfresh]; [by left|].
    destruct (heap_insert_ordered fuel L m h n)
      as (L1 & [m1 h1] & Hrun1 & Hwf1 & Hord1 & Hn1 & Hsame1);
      [done|done|done|lia|done|done|done|].
    cbn [snd] in Hn1.
    destruct (IH L1 m1 h1) as (L' & s' & Hrun & Hwf' & Hord' & Hn' & Hsame');
      [done|done|done|lia|done| |done|].
    { intros x Hx. destruct (Hnodes x) as [Hxm Hxf]; [by right|]. split.
      - apply (kn_heap_insert less_than fuel n _ _ _ Hrun1 x). done.
      - rewrite Hsame1. intros [->|Hin]; done. }
    exists L', s'. cbn [insert_each]. rewrite bind_unfold, Hrun1.
    split; [done|]. split; [done|]. split; [done|].
    split; [cbn [length]; lia|].
    intros a. rewrite Hsame', Hsame1, elem_of_cons. tauto.
Qed.

End MoreHeapFacts.

Section RemovalFacts.

Variable less_than : nat → nat → bool.
Hypothesis Hirr : ∀ a, less_than a a = false.

(** X3.  heap_remove of a node of the heap keeps the heap a complete tree: the
    last position is given up, the last node takes the place of the removed
    one (unless it is the removed one), the count goes down by one and the
    heap holds the other nodes, all of them.  This holds for every
    comparator under which no node is less than itself. *)
Theorem heap_remove_keeps_shape (fuel : nat) (L : gmap positive nat)
    (m : gmap nat heap_node) (h : heap) (r : positive) (node : nat) :
  heap_wf L (m, h) →
  L !! r = Some node →
  ∃ s',
    heap_remove less_than (S fuel) (Some node) (m, h) = Some (tt, s') ∧
    heap_wf (removed_layout L r (Z.to_pos (nelts h))) s' ∧
    nelts s'.2 = nelts h - 1 ∧
    ∀ a, in_layout (removed_layout L r (Z.to_pos (nelts h))) a
           ↔ in_layout L a ∧ a ≠ node.
Proof.
  intros Hwf Hr.
  assert (Hlast : nelts h = Z.pos (Z.to_pos (nelts h))).
  { assert (is_Some (L !! r)) as Hs by (by eexists).
    apply (wf_complete _ _ Hwf) in Hs. cbn [snd] in Hs. lia. }
  destruct (heap_remove_wf less_than Hirr fuel L m h r _ node Hwf Hlast Hr)
    as (s' & Hrun & Hwf' & Hn).
  exists s'. split; [done|]. split; [done|]. split; [done|].
  by apply (removed_layout_nodes L (m, h)).
Qed.

(** X4.  heap_dequeue on a heap that is not empty removes the root: the heap
    stays a complete tree, of one node less, made of the other nodes. *)
Theorem heap_dequeue_removes_root (fuel : nat) (L : gmap positive nat)
    (m : gmap nat heap_node) (h : heap) :
  heap_wf L (m, h) →
  0 < nelts h →
  ∃ root s',
    min h = Some root ∧
    heap_dequeue less_than (S fuel) (m, h) = Some (tt, s') ∧
    heap_wf (removed_layout L 1 (Z.to_pos (nelts h))) s' ∧
    nelts s'.2 = nelts h - 1 ∧
    ∀ a, in_layout (removed_layout L 1 (Z.to_pos (nelts h))) a
           ↔ in_layout L a ∧ a ≠ root.
Proof.
  intros Hwf Hpos.
  destruct (proj2 (wf_complete _ _ Hwf 1%positive)) as [root Hroot];
    [cbn [snd]; lia|].
  pose proof (wf_min _ _ Hwf) as Hmin. cbn [snd] in Hmin.
  assert (Hlast : nelts h = Z.pos (Z.to_pos (nelts h))) by lia.
  destruct (heap_remove_wf less_than Hirr fuel L m h 1 _ root Hwf Hlast Hroot)
    as (s' & Hrun & Hwf' & Hn).
  exists root, s'. split; [congruence|].
  unfold heap_dequeue. rewrite bind_load_min, Hmin, Hroot.
  split; [done|]. split; [done|]. split; [done|].
  by apply (removed_layout_nodes L (m, h)).
Qed.

(** X5.  heap_insert followed by heap_remove of the same node gives the heap
    back, when the new node is not less than the node it is linked under
    (so that heap_insert leaves it in the last position): the heap struct
    is as before and every node of the heap has its three links back. *)
Theorem heap_insert_remove_round_trip (fuel : nat) (L : gmap positive nat)
    (m : gmap nat heap_node) (h : heap) (newnode : nat) :
  heap_wf L (m, h) →
  nelts h + 1 < UINT_MOD →
  is_Some (m !! newnode) →
  ¬ in_layout L newnode →
  (∀ q pa, up (Z.to_pos (nelts h + 1)) = Some q → L !! q = Some pa →
     less_than newnode pa = false) →
  ∃ s',
    (heap_insert less_than (S fuel) newnode;;
     heap_remove less_than (S fuel) (Some newnode)) (m, h) = Some (tt, s') ∧
    heap_wf L s' ∧
    s'.2 = h ∧
    ∀ a, in_layout L a → s'.1 !! a = m !! a.
Proof.
  intros Hwf Hlt Hnew Hfresh Hge.
  pose proof (wf_range _ _ Hwf) as Hrange. simpl in Hrange.
  set (target := Z.to_pos (nelts h + 1)) in *.
  assert (Htarget : Z.pos target = nelts h + 1) by (subst target; lia).
  assert (Hfree : L !! target = None)
    by (apply (wf_above_empty L (m, h)); [done|simpl; lia]).
  destruct (insert_link_wf L m h newnode Hwf Hlt Hnew Hfresh)
    as ([m1 h1] & Hlink & Hwf1 & Hn1).
  fold target in Hwf1. cbn [snd] in Hn1.
  assert (Hat : <[target := newnode]> L !! target = Some newnode)
    by apply lookup_insert_eq.
  assert (Hup : sift_up less_than (S fuel) newnode (m1, h1)
                = Some (tt, (m1, h1))).
  { cbn [sift_up].
    pose proof (wf_node _ _ Hwf1 _ _ Hat) as Hnd. cbn [fst] in Hnd.
    rewrite (bind_load_parent _ _ _ _ _ Hnd). cbn [parent node_at].
    destruct (up target) as [q|] eqn:Hq; [|done].
    rewrite lookup_insert_ne by (apply up_lt in Hq; lia).
    destruct (L !! q) as [pa|] eqn:Hpa; [|done].
    by rewrite (Hge q pa eq_refl Hpa). }
  destruct (heap_remove_wf less_than Hirr fuel _ m1 h1 target target newnode
              Hwf1) as (s' & Hrun & Hwf' & Hn'); [lia|done|].
  unfold removed_layout in Hwf'.
  rewrite Hat, decide_True, delete_insert_id in Hwf' by done.
  exists s'. split.
  { unfold heap_insert. rewrite !bind_unfold, Hlink.
    cbn beta iota. rewrite ?bind_unfold, Hup. exact Hrun. }
  split; [done|]. split.
  - pose proof (wf_min _ _ Hwf') as Hm1. pose proof (wf_min _ _ Hwf) as Hm0.
    cbn [snd] in Hm0. destruct s' as [m' [min' n']]. destruct h as [min0 n0].
    cbn [snd min nelts] in *. f_equal; [congruence|lia].
  - intros a [p Hp].
    rewrite (wf_node _ _ Hwf' _ _ Hp).
    by rewrite <- (wf_node _ _ Hwf _ _ Hp).
Qed.

End RemovalFacts.

(** X6.  heap_node_swap of a node with the node above it exchanges the positions
    of the two and keeps the links of every node in line with the new
    layout; swapping the two back gives the heap as it was. *)
Theorem heap_node_swap_exchanges (L : gmap positive nat)
    (m : gmap nat heap_node) (h : heap) (q qc : positive) (pa c : nat) :
  heap_wf L (m, h) →
  up qc = Some q →
  L !! q = Some pa →
  L !! qc = Some c →
  (∃ s',
     heap_node_swap pa c (m, h) = Some (tt, s') ∧
     heap_wf (<[q := c]> (<[qc := pa]> L)) s' ∧
     nelts s'.2 = nelts h) ∧
  (∃ s'',
     (heap_node_swap pa c;; heap_node_swap c pa) (m, h) = Some (tt, s'') ∧
     heap_wf L s'' ∧
     s''.2 = h ∧
     ∀ a, in_layout L a → s''.1 !! a = m !! a).
Proof.
  intros Hwf Hup Hq Hc.
  assert (Hne : q ≠ qc) by (intros ->; apply up_lt in Hup; lia).
  destruct (heap_node_swap_wf L m h q qc pa c Hwf Hup Hq Hc)
    as ([m1 h1] & Hrun1 & Hwf1 & Hn1).
  split; [by exists (m1, h1)|].
  destruct (heap_node_swap_wf _ m1 h1 q qc c pa Hwf1 Hup)
    as (s'' & Hrun2 & Hwf2 & Hn2).
  { by rewrite lookup_insert_eq. }
  { rewrite lookup_insert_ne by done. by rewrite lookup_insert_eq. }
  assert (Hback : <[q := pa]> (<[qc := c]> (<[q := c]> (<[qc := pa]> L))) = L).
  { apply map_eq. intros x.
    destruct (decide (x = q)) as [->|H1]; [by rewrite lookup_insert_eq|].
    rewrite lookup_insert_ne by done.
    destruct (decide (x = qc)) as [->|H2]; [by rewrite lookup_insert_eq|].
    by rewrite !lookup_insert_ne by done. }
  rewrite Hback in Hwf2.
  exists s''. rewrite bind_unfold, Hrun1. split; [done|]. split; [done|].
  split.
  - pose proof (wf_min _ _ Hwf2) as Hm1. pose proof (wf_min _ _ Hwf) as Hm0.
    cbn [snd] in Hm0, Hn1. destruct s'' as [m' [min' n']].
    destruct h as [min0 n0]. cbn [snd min nelts] in *.
    f_equal; [congruence|lia].
  - intros a [p Hp]. rewrite (wf_node _ _ Hwf2 _ _ Hp).
    by rewrite <- (wf_node _ _ Hwf _ _ Hp).
Qed.

(** heap_init makes the heap struct the empty heap, whatever it held. *)
Lemma heap_init_wf (s : state) :
  ∃ h', heap_init s = Some (tt, (s.1, h')) ∧ heap_wf ∅ (s.1, h') ∧ nelts h' = 0.
Proof.
  destruct s as [m h]. eexists. split; [reflexivity|]. split; [|reflexivity].
  split; cbn [fst snd nelts min].
  - unfold UINT_MOD. lia.
  - intros p. rewrite lookup_empty. split; [by intros [? ?]|lia].
  - intros p q a. by rewrite lookup_empty.
  - by rewrite lookup_empty.
  - intros p a. by rewrite lookup_empty.
Qed.

(** X7.  From any heap struct, heap_init followed by heap_insert of each node of
    a list of different nodes gives a complete, ordered heap of exactly
    these nodes, and heap_min then returns one of them that none of them is
    less than. *)
Theorem heap_build_ordered (less_than : nat → nat → bool) (fuel : nat)
    (l : list nat) (m : gmap nat heap_node) (h : heap) :
  strict_weak less_than →
  NoDup l →
  (∀ n, n ∈ l → is_Some (m !! n)) →
  Z.of_nat (length l) < UINT_MOD →
  (32 ≤ fuel)%nat →
  ∃ L s',
    (heap_init;; insert_each less_than fuel l) (m, h) = Some (tt, s') ∧
    heap_wf L s' ∧
    heap_ordered less_than L ∧
    nelts s'.2 = Z.of_nat (length l) ∧
    (∀ a, in_layout L a ↔ a ∈ l) ∧
    (∀ a, a ∈ l →
       ∃ root, heap_min s' = Some (Some root, s') ∧ root ∈ l ∧
               less_than a root = false).
Proof.
  intros Hsw Hnd Hnodes Hlen Hfuel.
  destruct (heap_init_wf (m, h)) as (h0 & Hinit & Hwf0 & Hn0). cbn [fst] in *.
  destruct (insert_each_ordered less_than fuel l ∅ m h0)
    as (L & s' & Hrun & Hwf & Hord & Hn & Hsame);
    [done|done| |lia|done| |done|].
  { intros p q a b _ Hp. by rewrite lookup_empty in Hp. }
  { intros n Hn. split; [by apply Hnodes|].
    intros [p Hp]. by rewrite lookup_empty in Hp. }
  assert (Hsame' : ∀ a, in_layout L a ↔ a ∈ l).
  { intros a. rewrite Hsame. split; [|by left].
    intros [Ha|[p Hp]]; [done|]. by rewrite lookup_empty in Hp. }
  exists L, s'. rewrite bind_unfold, Hinit.
  split; [done|]. split; [done|]. split; [done|]. split; [lia|].
  split; [done|].
  intros a Ha. apply Hsame' in Ha.
  destruct (proj2 (wf_complete _ _ Hwf 1%positive)) as [root Hroot].
  { destruct Ha as [p Hp]. assert (is_Some (L !! p)) as Hs by (by eexists).
    apply (wf_complete _ _ Hwf) in Hs. lia. }
  exists root. split.
  { unfold heap_min, load_min. by rewrite (wf_min _ _ Hwf), Hroot. }
  split; [apply Hsame'; by exists 1%positive|].
  destruct Ha as [p Hp].
  by apply (ordered_root_least less_than Hsw L s' root Hwf Hord Hroot p a).
Qed.

(** *** Concrete runs of the heap functions *)

Lemma by_address_strict_weak : strict_weak by_address.
Proof.
  split; unfold by_address.
  - intros a b H. apply Nat.ltb_lt in H. apply Nat.ltb_ge. lia.
  - intros a b c H1 H2. apply Nat.ltb_ge in H1, H2. apply Nat.ltb_ge. lia.
Qed.

Lemma by_address_irrefl a : by_address a a = false.
Proof. apply Nat.ltb_irrefl. Qed.

Lemma three_layout_ordered : heap_ordered by_address three_layout.
Proof.
  intros p q a b Hup. rewrite !three_layout_lookup.
  repeat case_decide; subst; simpl in Hup; try done;
    intros [= <-] [= <-]; try done; simplify_eq.
Qed.

Lemma heap_insert_keeps_order_witness :
  ∃ L' s',
    heap_insert by_address 32 0 three_heap = Some (tt, s') ∧
    heap_wf L' s' ∧
    heap_ordered by_address L' ∧
    nelts s'.2 = 3 + 1 ∧
    ∀ a, in_layout L' a ↔ a = 0%nat ∨ in_layout three_layout a.
Proof.
  apply (heap_insert_keeps_order by_address 32 three_layout
           three_heap.1 three_heap.2 0).
  - exact by_address_strict_weak.
  - exact three_heap_wf.
  - exact three_layout_ordered.
  - reflexivity.
  - by eexists.
  - intros [p Hp]. rewrite three_layout_lookup in Hp.
    repeat case_decide; done.
  - lia.
Defined.

Lemma heap_min_is_least_witness :
  ∃ root,
    heap_min three_heap = Some (root, three_heap) ∧
    (root = None ↔ nelts three_heap.2 = 0) ∧
    ∀ r a, root = Some r → in_layout three_layout a →
      in_layout three_layout r ∧ by_address a r = false.
Proof.
  apply (heap_min_is_least by_address three_layout three_heap).
  - exact by_address_strict_weak.
  - exact three_heap_wf.
  - exact three_layout_ordered.
Defined.

Lemma heap_remove_keeps_shape_witness :
  ∃ s',
    heap_remove by_address 1 (Some 1%nat) three_heap = Some (tt, s') ∧
    heap_wf (removed_layout three_layout 1 3) s' ∧
    nelts s'.2 = 3 - 1 ∧
    ∀ a, in_layout (removed_layout three_layout 1 3) a
           ↔ in_layout three_layout a ∧ a ≠ 1%nat.
Proof.
  apply (heap_remove_keeps_shape by_address by_address_irrefl 0 three_layout
           three_heap.1 three_heap.2 1 1).
  - exact three_heap_wf.
  - reflexivity.
Defined.

Lemma heap_dequeue_removes_root_witness :
  ∃ root s',
    min three_heap.2 = Some root ∧
    heap_dequeue by_address 1 three_heap = Some (tt, s') ∧
    heap_wf (removed_layout three_layout 1 3) s' ∧
    nelts s'.2 = 3 - 1 ∧
    ∀ a, in_layout (removed_layout three_layout 1 3) a
           ↔ in_layout three_layout a ∧ a ≠ root.
Proof.
  apply (heap_dequeue_removes_root by_address by_address_irrefl 0 three_layout
           three_heap.1 three_heap.2).
  - exact three_heap_wf.
  - reflexivity.
Defined.

Lemma heap_insert_remove_round_trip_witness :
  ∃ s',
    (heap_insert by_address 1 4;; heap_remove by_address 1 (Some 4%nat))
      three_heap = Some (tt, s') ∧
    heap_wf three_layout s' ∧
    s'.2 = three_heap.2 ∧
    ∀ a, in_layout three_layout a → s'.1 !! a = three_heap.1 !! a.
Proof.
  apply (heap_insert_remove_round_trip by_address by_address_irrefl 0
           three_layout three_heap.1 three_heap.2 4).
  - exact three_heap_wf.
  - reflexivity.
  - by eexists.
  - intros [p Hp]. rewrite three_layout_lookup in Hp.
    repeat case_decide; done.
  - intros q pa [= <-]. rewrite three_layout_lookup. cbn. by intros [= <-].
Defined.

Lemma heap_node_swap_exchanges_witness :
  (∃ s',
     heap_node_swap 1 2 three_heap = Some (tt, s') ∧
     heap_wf (<[1%positive := 2%nat]> (<[2%positive := 1%nat]> three_layout)) s' ∧
     nelts s'.2 = 3) ∧
  (∃ s'',
     (heap_node_swap 1 2;; heap_node_swap 2 1) three_heap = Some (tt, s'') ∧
     heap_wf three_layout s'' ∧
     s''.2 = three_heap.2 ∧
     ∀ a, in_layout three_layout a → s''.1 !! a = three_heap.1 !! a).
Proof.
  apply (heap_node_swap_exchanges three_layout three_heap.1 three_heap.2
           1 2 1 2).
  - exact three_heap_wf.
  - reflexivity.
  - reflexivity.
  - reflexivity.
Defined.

Lemma heap_build_ordered_witness :
  ∃ L s',
    (heap_init;; insert_each by_address 32 [3; 1; 2]%nat)
      ((fresh_nodes [1; 2; 3]%nat).1, Heap (Some 7%nat) 5) = Some (tt, s') ∧
    heap_wf L s' ∧
    heap_ordered by_address L ∧
    nelts s'.2 = Z.of_nat (length [3; 1; 2]%nat) ∧
    (∀ a, in_layout L a ↔ a ∈ [3; 1; 2]%nat) ∧
    (∀ a, a ∈ [3; 1; 2]%nat →
       ∃ root, heap_min s' = Some (Some root, s') ∧ root ∈ [3; 1; 2]%nat ∧
               by_address a root = false).
Proof.
  apply (heap_build_ordered by_address 32 [3; 1; 2]%nat).
  - exact by_address_strict_weak.
  - apply (bool_decide_unpack _). vm_compute. exact I.
  - intros n Hn.
    repeat (apply elem_of_cons in Hn as [->|Hn]); try (by eexists).
    by apply elem_of_nil in Hn.
  - reflexivity.
  - lia.
Defined.

(** When the layout that heap_remove leaves is ordered: the node that was
    moved must fit between the node above its new place and the nodes
    below it. *)
Lemma removed_layout_ordered (less_than : nat → nat → bool) L s
    (r last : positive) (nd c : nat) :
  heap_wf L s →
  heap_ordered less_than L →
  nelts s.2 = Z.pos last →
  L !! r = Some nd →
  L !! last = Some c →
  r ≠ last →
  heap_ordered less_than (removed_layout L r last) ↔
    (∀ q pa, up r = Some q → L !! q = Some pa → less_than c pa = false) ∧
    (∀ p a, up p = Some r → p ≠ last → L !! p = Some a →
       less_than a c = false).
Proof.
  intros Hwf Hord Hlast Hr Hc Hne.
  assert (Hle : ∀ p a, L !! p = Some a → Z.pos p ≤ Z.pos last).
  { intros p a Hp. rewrite <- Hlast. apply (wf_complete _ _ Hwf). by eexists. }
  pose proof (Hle _ _ Hr) as Hrl.
  unfold removed_layout. rewrite Hc, decide_False by done.
  assert (Hlk : ∀ p, p ≠ r →
    <[r := c]> (delete last L) !! p = if decide (p = last) then None else L !! p).
  { intros p Hp. rewrite lookup_insert_ne by done.
    destruct (decide (p = last)) as [->|Hpl].
    - by rewrite lookup_delete_eq.
    - by rewrite lookup_delete_ne. }
  split.
  - intros Hord'. split.
    + intros q pa Hup Hq. pose proof (up_lt _ _ Hup) as Hlt.
      apply (Hord' r q c pa Hup); [by rewrite lookup_insert_eq|].
      rewrite Hlk by lia. by rewrite decide_False by lia.
    + intros p a Hup Hpl Hp. pose proof (up_lt _ _ Hup) as Hlt.
      apply (Hord' p r a c Hup); [|by rewrite lookup_insert_eq].
      rewrite Hlk by lia. by rewrite decide_False.
  - intros [Hup Hdown] p q a b Hpq. pose proof (up_lt _ _ Hpq) as Hlt.
    destruct (decide (p = r)) as [->|Hpr].
    + rewrite lookup_insert_eq. intros [= <-]. rewrite Hlk by lia.
      destruct (decide (q = last)); [done|]. by apply Hup.
    + rewrite Hlk by done. destruct (decide (p = last)) as [|Hpl]; [done|].
      intros Ha. destruct (decide (q = r)) as [->|Hqr].
      * rewrite lookup_insert_eq. intros [= <-]. by apply (Hdown p).
      * rewrite Hlk by done. destruct (decide (q = last)); [done|].
        intros Hb. by apply (Hord p q).
Qed.

Section RemovalOrder.

Variable less_than : nat → nat → bool.
Hypothesis Hirr : ∀ a, less_than a a = false.

(** X8.  heap_remove puts the last node in the place of the removed node and
    leaves it there.  So the heap it leaves is ordered exactly when the last
    node fits in that place: it is not less than the node above the place
    and no node below the place is less than it.  In every other case
    heap_remove returns a heap that has lost the heap order. *)
Theorem heap_remove_order_condition (fuel : nat) (L : gmap positive nat)
    (m : gmap nat heap_node) (h : heap) (r : positive) (node c : nat) :
  heap_wf L (m, h) →
  heap_ordered less_than L →
  L !! r = Some node →
  L !! Z.to_pos (nelts h) = Some c →
  r ≠ Z.to_pos (nelts h) →
  ∃ s',
    heap_remove less_than (S fuel) (Some node) (m, h) = Some (tt, s') ∧
    heap_wf (removed_layout L r (Z.to_pos (nelts h))) s' ∧
    (heap_ordered less_than (removed_layout L r (Z.to_pos (nelts h))) ↔
       (∀ q pa, up r = Some q → L !! q = Some pa →
          less_than c pa = false) ∧
       (∀ p a, up p = Some r → p ≠ Z.to_pos (nelts h) → L !! p = Some a →
          less_than a c = false)).
Proof.
  intros Hwf Hord Hr Hc Hne.
  assert (Hlast : nelts h = Z.pos (Z.to_pos (nelts h))).
  { assert (is_Some (L !! r)) as Hs by (by eexists).
    apply (wf_complete _ _ Hwf) in Hs. cbn [snd] in Hs. lia. }
  destruct (heap_remove_wf less_than Hirr fuel L m h r _ node Hwf Hlast Hr)
    as (s' & Hrun & Hwf' & Hn).
  exists s'. split; [done|]. split; [done|].
  by apply (removed_layout_ordered less_than L (m, h) r _ node c).
Qed.

End RemovalOrder.

Lemma heap_remove_order_condition_witness :
  ∃ s',
    heap_remove by_address 1 (Some 1%nat) three_heap = Some (tt, s') ∧
    heap_wf (removed_layout three_layout 1 3) s' ∧
    (heap_ordered by_address (removed_layout three_layout 1 3) ↔
       (∀ q pa, up 1 = Some q → three_layout !! q = Some pa →
          by_address 3 pa = false) ∧
       (∀ p a, up p = Some 1%positive → p ≠ 3%positive →
          three_layout !! p = Some a → by_address a 3 = false)).
Proof.
  apply (heap_remove_order_condition by_address by_address_irrefl 0
           three_layout three_heap.1 three_heap.2 1 1 3).
  - exact three_heap_wf.
  - exact three_layout_ordered.
  - reflexivity.
  - reflexivity.
  - done.
Defined.


(** ** More facts about uv__io_poll *)

Section PollTraces.
Context {abi : epoll_abi} {W : Type} {K : kernel W}.
Variable feed : nat → Z → config W → config W.

Lemma do_wait_log timeout r :
  log (do_wait timeout r).2 = log r ++ [EvWait timeout (do_wait timeout r).1].
Proof.
  unfold do_wait. destruct (uv__epoll_wait _ _ _) as [res κ]. reflexivity.
Qed.

Lemma do_wait_loop timeout r :
  loop (cfg (do_wait timeout r).2) = loop (cfg r).
Proof. unfold do_wait. by destruct (uv__epoll_wait _ _ _) as [res κ]. Qed.

Lemma dispatch_trace_waits tr : dispatch_trace tr → wait_timeouts tr = [].
Proof.
  induction 1 as [|a tr Ha _ IH]; [done|].
  destruct a; try done; exact IH.
Qed.

Lemma dispatch_trace_ctls tr :
  dispatch_trace tr → Forall (λ op, op = UV__EPOLL_CTL_DEL) (ctl_ops tr).
Proof.
  induction 1 as [|a tr Ha _ IH]; [constructor|].
  destruct a; try done. cbn. by constructor.
Qed.

Lemma dispatch_event_trace pe nevents r :
  ∃ tr,
    log (end_run2 (dispatch_event feed pe nevents r)) = log r ++ tr ∧
    dispatch_trace tr ∧
    (length (feeds tr) ≤ 1)%nat ∧
    (∀ r' n', dispatch_event feed pe nevents r = Done (r', n') →
       n' = nevents + Z.of_nat (length (feeds tr))) ∧
    (∀ r', dispatch_event feed pe nevents r ≠ Spinning r').
Proof.
  assert (Hstop : ∀ o : outcome W (run W * Z),
    o = Aborted r →
    ∃ tr, log (end_run2 o) = log r ++ tr ∧ dispatch_trace tr ∧
      (length (feeds tr) ≤ 1)%nat ∧
      (∀ r' n', o = Done (r', n') →
         n' = nevents + Z.of_nat (length (feeds tr))) ∧
      (∀ r', o ≠ Spinning r')).
  { intros o ->. exists []. rewrite app_nil_r.
    split; [done|]. split; [constructor|]. split; [cbn; lia|]. done. }
  unfold dispatch_event.
  destruct (_ && _); [|by apply Hstop].
  destruct (watchers _ !! _) as [[w|]|]; [| |by apply Hstop].
  - destruct (iomem _ !! w) as [io|]; [|by apply Hstop].
    destruct (_ =? 0).
    + exists []. rewrite app_nil_r.
      split; [done|]. split; [constructor|]. split; [cbn; lia|].
      split; [|done]. intros r' n' [= <- <-]. cbn. lia.
    + eexists [EvFeed w _].
      split; [done|]. split; [by repeat constructor|]. split; [cbn; lia|].
      split; [|done]. intros r' n' [= <- <-]. cbn. lia.
  - pose proof (do_ctl_log UV__EPOLL_CTL_DEL (ev_data pe) pe r) as Hlog.
    destruct (do_ctl _ _ _ _) as [res r1]. cbn [fst snd] in Hlog.
    eexists [EvCtl _ _ _ _].
    split; [done|]. split; [by repeat constructor|]. split; [cbn; lia|].
    split; [|done]. intros r' n' [= <- <-]. cbn. lia.
Qed.

Lemma dispatch_events_trace evs : ∀ nevents r,
  ∃ tr,
    log (end_run2 (dispatch_events feed evs nevents r)) = log r ++ tr ∧
    dispatch_trace tr ∧
    (length (feeds tr) ≤ length evs)%nat ∧
    (∀ r' n', dispatch_events feed evs nevents r = Done (r', n') →
       n' = nevents + Z.of_nat (length (feeds tr))) ∧
    (∀ r', dispatch_events feed evs nevents r ≠ Spinning r').
Proof.
  induction evs as [|pe evs IH]; intros nevents r; cbn [dispatch_events].
  - exists []. rewrite app_nil_r.
    split; [done|]. split; [constructor|]. split; [cbn; lia|].
    split; [|done]. intros r' n' [= <- <-]. cbn. lia.
  - destruct (dispatch_event_trace pe nevents r)
      as (tr1 & Hlog1 & Htr1 & Hlen1 & Hn1 & Hsp1).
    destruct (dispatch_event feed pe nevents r) as [[r1 n1]|r1|r1] eqn:E;
      cbn [end_run2] in Hlog1.
    + destruct (IH n1 r1) as (tr2 & Hlog2 & Htr2 & Hlen2 & Hn2 & Hsp2).
      exists (tr1 ++ tr2). rewrite Hlog2, Hlog1, <- app_assoc.
      unfold feeds in *. rewrite omap_app, length_app.
      split; [done|]. split; [by apply Forall_app|].
      split; [cbn [length]; lia|]. split; [|done].
      intros r' n' Hd. rewrite (Hn2 _ _ Hd), (Hn1 _ _ eq_refl). lia.
    + exists tr1. split; [done|]. split; [done|].
      split; [cbn [length]; lia|]. done.
    + by destruct (Hsp1 r1).
Qed.

Lemma update_timeout_shrinks base timeout (r : run W) timeout' :
  0 < timeout < UINT64_MOD →
  update_timeout base timeout r = Some timeout' →
  0 < timeout' ≤ timeout.
Proof.
  intros Ht. unfold update_timeout.
  pose proof (Z.mod_pos_bound (time (loop (cfg r)) - base) UINT64_MOD) as Hd.
  rewrite (Z.mod_small timeout) by lia.
  destruct (_ <=? _) eqn:E; [done|]. intros [= <-].
  apply Z.leb_gt in E. unfold UINT64_MOD in *. lia.
Qed.

(** One round of the [for (;;)] loop: the wait, the update of the cached
    time and the dispatch of the events, after which the loop is left or
    entered again with a timeout that is the same (0 or -1) or not
    larger. *)
Lemma poll_loop_step fuel base T r :
  ∃ res t dtr r3,
    log r3 = log r ++ EvWait T res :: EvUpdateTime t :: dtr ∧
    dispatch_trace dtr ∧
    ((poll_loop feed (S fuel) base T r = Done r3 ∧
      (T = -1 → ∃ evs, res = WaitEvents evs ∧ feeds dtr ≠ [])) ∨
     poll_loop feed (S fuel) base T r = Aborted r3 ∨
     (∃ T', poll_loop feed (S fuel) base T r = poll_loop feed fuel base T' r3 ∧
            T ≠ 0 ∧ (T ≤ 0 → T' = T) ∧ (0 < T < UINT64_MOD → 0 < T' ≤ T))).
Proof.
  cbn [poll_loop].
  pose proof (do_wait_log T r) as Hlog.
  destruct (do_wait T r) as [res r1]. cbn [fst snd] in Hlog.
  set (r2 := uv__update_time r1).
  assert (Hlog2 : log r2 = log r ++ [EvWait T res; EvUpdateTime (now (world (cfg r1)))]).
  { subst r2. unfold uv__update_time, emit, set_loop. cbn [log].
    by rewrite Hlog, <- app_assoc. }
  exists res, (now (world (cfg r1))).
  assert (Hstay : ∀ r3 o, (o = (if T =? -1 then poll_loop feed fuel base T r3
               else if T =? 0 then Done r3
               else if 0 <? T then
                 match update_timeout base T r3 with
                 | None => Done r3
                 | Some T' => poll_loop feed fuel base T' r3
                 end
               else Aborted r3)) →
      ((o = Done r3 ∧ T ≠ -1) ∨ o = Aborted r3 ∨
       (∃ T', o = poll_loop feed fuel base T' r3 ∧
              T ≠ 0 ∧ (T ≤ 0 → T' = T) ∧ (0 < T < UINT64_MOD → 0 < T' ≤ T)))).
  { intros r3 o ->.
    destruct (T =? -1) eqn:E1.
    { apply Z.eqb_eq in E1. right. right. exists T. repeat split; lia. }
    apply Z.eqb_neq in E1.
    destruct (T =? 0) eqn:E0; [by left|]. apply Z.eqb_neq in E0.
    destruct (0 <? T) eqn:Ep; [|by right; left].
    destruct (update_timeout base T r3) as [T'|] eqn:Eu; [|by left].
    right. right. exists T'. split; [done|]. split; [done|].
    split; [apply Z.ltb_lt in Ep; lia|].
    intros HT. by apply (update_timeout_shrinks base T r3). }
  destruct res as [errno|evs].
  - exists [], r2. split; [done|]. split; [constructor|].
    destruct (negb (errno =? EINTR)); [by right; left|].
    destruct (Hstay r2 _ eq_refl)
      as [[-> Hne]|[->|(T' & -> & H)]].
    + left. split; [done|]. intros ->. done.
    + by right; left.
    + right. right. by exists T'.
  - destruct evs as [|pe evs].
    { exists [], r2. split; [done|]. split; [constructor|].
      destruct (T =? -1) eqn:E1; cbn [negb]; [by right; left|].
      apply Z.eqb_neq in E1. left. split; [done|]. intros ->. done. }
    destruct (dispatch_events_trace (pe :: evs) 0 r2)
      as (dtr & Hlog3 & Hdtr & _ & Hn & Hsp).
    destruct (dispatch_events feed (pe :: evs) 0 r2) as [[r3 n3]|r3|r3] eqn:E;
      cbn [end_run2] in Hlog3.
    + exists dtr, r3. rewrite Hlog3, Hlog2, <- app_assoc.
      split; [done|]. split; [done|].
      specialize (Hn r3 n3 eq_refl).
      destruct (n3 =? 0) eqn:En; cbn [negb].
      * destruct (T =? 0) eqn:E0.
        { left. split; [done|]. apply Z.eqb_eq in E0. lia. }
        destruct (Hstay r3 _ eq_refl) as [[-> Hne]|[->|(T' & -> & H)]].
        -- left. split; [done|]. intros ->. done.
        -- by right; left.
        -- right. right. by exists T'.
      * left. split; [done|]. intros _. exists (pe :: evs). split; [done|].
        apply Z.eqb_neq in En. intros Hf. rewrite Hf in Hn. cbn in Hn. lia.
    + exists dtr, r3. rewrite Hlog3, Hlog2, <- app_assoc.
      split; [done|]. split; [done|]. by right; left.
    + by destruct (Hsp r3).
Qed.

Lemma ctl_steps_refl (r : run W) : ctl_steps 0 r r.
Proof. exists []. by rewrite app_nil_r. Qed.

Lemma ctl_steps_le k k' (r0 r : run W) :
  (k ≤ k')%nat → ctl_steps k r0 r → ctl_steps k' r0 r.
Proof.
  intros Hk (tr & Hlog & Hw & Hc).
  exists tr. split; [done|]. split; [done|]. lia.
Qed.

Lemma ctl_steps_set_io k (r0 r : run W) w io :
  ctl_steps k r0 r → ctl_steps k r0 (set_io w io r).
Proof. done. Qed.

Lemma ctl_steps_ctl k (r0 r : run W) op target e :
  ctl_steps k r0 r → ctl_steps (S k) r0 (do_ctl op target e r).2.
Proof.
  intros (tr & Hlog & Hw & Hc).
  exists (tr ++ [EvCtl op target e (do_ctl op target e r).1]).
  rewrite do_ctl_log, Hlog, <- app_assoc. split; [done|].
  unfold wait_timeouts, ctl_ops in *. rewrite !omap_app, Hw, length_app.
  split; [done|]. cbn. lia.
Qed.

Lemma ctl_steps_feed k (r0 r : run W) w pevents :
  ctl_steps k r0 r → ctl_steps k r0 (do_feed feed w pevents r).
Proof.
  intros (tr & Hlog & Hw & Hc).
  exists (tr ++ [EvFeed w pevents]).
  unfold do_feed, emit. cbn [log]. rewrite Hlog, <- app_assoc.
  split; [done|].
  unfold wait_timeouts, ctl_ops in *. rewrite !omap_app, Hw, length_app.
  split; [done|]. cbn. lia.
Qed.

(** One round of the loop over the watcher queue makes no wait and at most
    three ctl calls (ADD, DEL, ADD), and it always comes to an end. *)
Lemma reconcile_one_steps k (r0 r : run W) w :
  ctl_steps k r0 r →
  ctl_steps (k + 3) r0 (end_run (reconcile_one feed w r)) ∧
  ∀ r', reconcile_one feed w r ≠ Spinning r'.
Proof.
  intros H. unfold reconcile_one.
  assert (H0 : ctl_steps (k + 3) r0 r) by (apply (ctl_steps_le k); [lia|done]).
  destruct (iomem (cfg r) !! w) as [io|]; [|done].
  destruct (_ && _ && _); [|done].
  destruct (_ && _).
  { destruct (_ =? 0); cbn [end_run]; (split; [|done]).
    - by apply ctl_steps_set_io.
    - by apply ctl_steps_feed, ctl_steps_set_io, ctl_steps_set_io. }
  match goal with |- context [do_ctl ?a ?b ?c ?d] =>
    pose proof (ctl_steps_ctl k r0 d a b c (ctl_steps_set_io _ _ _ _ _ H)) as H1;
    destruct (do_ctl a b c d) as [res1 r1] end.
  cbn [snd] in H1.
  assert (H1' : ctl_steps (k + 3) r0 r1) by (apply (ctl_steps_le (S k)); [lia|done]).
  destruct res1 as [|errno]; [done|].
  destruct (negb _); [done|]. destruct (negb _); [done|].
  destruct (_ =? 0).
  - match goal with |- context [do_ctl ?a ?b ?c ?d] =>
      pose proof (ctl_steps_ctl _ r0 d a b c H1) as H2;
      destruct (do_ctl a b c d) as [res2 r2] end.
    cbn [snd] in H2.
    assert (H2' : ctl_steps (k + 3) r0 r2)
      by (apply (ctl_steps_le (S (S k))); [lia|done]).
    by destruct res2.
  - match goal with |- context [do_ctl ?a ?b ?c ?d] =>
      pose proof (ctl_steps_ctl _ r0 d a b c H1) as H2;
      destruct (do_ctl a b c d) as [res2 r2] end.
    cbn [snd] in H2.
    assert (H2' : ctl_steps (k + 3) r0 r2)
      by (apply (ctl_steps_le (S (S k))); [lia|done]).
    destruct res2; [|done].
    match goal with |- context [do_ctl ?a ?b ?c ?d] =>
      pose proof (ctl_steps_ctl _ r0 d a b c H2) as H3;
      destruct (do_ctl a b c d) as [res3 r3] end.
    cbn [snd] in H3.
    assert (H3' : ctl_steps (k + 3) r0 r3)
      by (apply (ctl_steps_le (S (S (S k)))); [lia|done]).
    by destruct res3.
Qed.

(** One round leaves the queue as it is, when uv__io_feed does. *)
Lemma reconcile_one_queue r w :
  feed_keeps_queue feed →
  watcher_queue (loop (cfg (end_run (reconcile_one feed w r))))
    = watcher_queue (loop (cfg r)).
Proof.
  intros Hfq. unfold reconcile_one.
  destruct (iomem (cfg r) !! w) as [io|]; [|done].
  destruct (_ && _ && _); [|done].
  destruct (_ && _).
  { destruct (_ =? 0); cbn [end_run]; [done|].
    unfold do_feed, emit. cbn [cfg]. by rewrite Hfq. }
  match goal with |- context [do_ctl ?a ?b ?c ?d] =>
    pose proof (do_ctl_loop a b c d) as H1;
    destruct (do_ctl a b c d) as [res1 r1] end.
  cbn [snd] in H1.
  destruct res1 as [|errno]; [cbn [end_run]; by rewrite H1|].
  destruct (negb _); [cbn [end_run]; by rewrite H1|].
  destruct (negb _); [cbn [end_run]; by rewrite H1|].
  destruct (_ =? 0).
  - match goal with |- context [do_ctl ?a ?b ?c ?d] =>
      pose proof (do_ctl_loop a b c d) as H2;
      destruct (do_ctl a b c d) as [res2 r2] end.
    cbn [snd] in H2. destruct res2; cbn [end_run]; by rewrite H2, H1.
  - match goal with |- context [do_ctl ?a ?b ?c ?d] =>
      pose proof (do_ctl_loop a b c d) as H2;
      destruct (do_ctl a b c d) as [res2 r2] end.
    cbn [snd] in H2. destruct res2; [|cbn [end_run]; by rewrite H2, H1].
    match goal with |- context [do_ctl ?a ?b ?c ?d] =>
      pose proof (do_ctl_loop a b c d) as H3;
      destruct (do_ctl a b c d) as [res3 r3] end.
    cbn [snd] in H3. destruct res3; cbn [end_run]; by rewrite H3, H2, H1.
Qed.

(** The loop over the watcher queue makes no wait. *)
Lemma reconcile_no_wait (fuel : nat) : ∀ r,
  ∃ tr, log (end_run (reconcile feed fuel r)) = log r ++ tr ∧
        wait_timeouts tr = [].
Proof.
  induction fuel as [|fuel IH]; intros r; cbn [reconcile].
  - exists []. rewrite app_nil_r. by destruct (watcher_queue _).
  - destruct (watcher_queue (loop (cfg r))) as [|w q] eqn:Hq.
    { exists []. by rewrite app_nil_r. }
    set (r0 := set_loop _ r).
    destruct (reconcile_one_steps 0 r0 r0 w (ctl_steps_refl r0))
      as [(tr1 & Hlog1 & Hw1 & _) Hsp].
    destruct (reconcile_one feed w r0) as [r1|r1|r1] eqn:E;
      cbn [end_run] in Hlog1.
    + destruct (IH r1) as (tr2 & Hlog2 & Hw2).
      exists (tr1 ++ tr2). rewrite Hlog2, Hlog1, <- app_assoc.
      split; [done|]. unfold wait_timeouts in *. by rewrite omap_app, Hw1, Hw2.
    + by exists tr1.
    + by destruct (Hsp r1).
Qed.

(** The loop over the watcher queue runs once for each queued watcher, when
    uv__io_feed queues none. *)
Lemma reconcile_steps (fuel : nat) : ∀ r,
  feed_keeps_queue feed →
  (length (watcher_queue (loop (cfg r))) ≤ fuel)%nat →
  ∃ r' tr,
    (reconcile feed fuel r = Done r' ∨ reconcile feed fuel r = Aborted r') ∧
    (reconcile feed fuel r = Done r' → watcher_queue (loop (cfg r')) = []) ∧
    log r' = log r ++ tr ∧
    wait_timeouts tr = [] ∧
    (length (ctl_ops tr) ≤ 3 * length (watcher_queue (loop (cfg r))))%nat.
Proof.
  induction fuel as [|fuel IH]; intros r Hfq Hlen.
  - destruct (watcher_queue (loop (cfg r))) as [|w q] eqn:Hq;
      [|cbn [length] in Hlen; lia].
    exists r, []. cbn [reconcile]. rewrite Hq, app_nil_r.
    split; [by left|]. split; [done|]. split; [done|]. split; [done|].
    cbn. lia.
  - cbn [reconcile].
    destruct (watcher_queue (loop (cfg r))) as [|w q] eqn:Hq.
    { exists r, []. rewrite app_nil_r.
      split; [by left|]. split; [done|]. split; [done|]. split; [done|].
      cbn. lia. }
    set (r0 := set_loop _ r).
    destruct (reconcile_one_steps 0 r0 r0 w (ctl_steps_refl r0))
      as [(tr1 & Hlog1 & Hw1 & Hc1) Hsp].
    pose proof (reconcile_one_queue r0 w Hfq) as Hq1.
    destruct (reconcile_one feed w r0) as [r1|r1|r1] eqn:E;
      cbn [end_run] in Hq1, Hlog1.
    + destruct (IH r1 Hfq) as (r' & tr2 & Hend & Hdone & Hlog2 & Hw2 & Hc2).
      { rewrite Hq1. subst r0. cbn. cbn [length] in Hlen. lia. }
      exists r', (tr1 ++ tr2). split; [done|]. split; [done|].
      rewrite Hlog2, Hlog1, <- app_assoc. split; [done|].
      unfold wait_timeouts, ctl_ops in *. rewrite !omap_app, Hw1, Hw2, length_app.
      split; [done|]. rewrite Hq1 in Hc2. subst r0.
      cbn [set_loop cfg loop watcher_queue length] in *. lia.
    + exists r1, tr1. split; [by right|]. split; [done|].
      split; [done|]. split; [done|]. cbn [length]. lia.
    + by destruct (Hsp r1).
Qed.

Lemma shrinking_le T T' l : T' ≤ T → shrinking T' l → shrinking T l.
Proof. destruct l as [|t l]; [done|]. cbn. intros H [H1 H2]. split; [lia|done]. Qed.

Lemma wait_round_timeouts T res t dtr tr :
  dispatch_trace dtr →
  wait_timeouts (EvWait T res :: EvUpdateTime t :: dtr ++ tr)
    = T :: wait_timeouts tr.
Proof.
  intros Hd. pose proof (dispatch_trace_waits dtr Hd) as H.
  unfold wait_timeouts in *.
  change (EvWait T res :: EvUpdateTime t :: dtr ++ tr)
    with ([EvWait T res; EvUpdateTime t] ++ dtr ++ tr).
  by rewrite !omap_app, H.
Qed.

(** The timeouts of the waits of the [for (;;)] loop, and its ctl calls. *)
Lemma poll_loop_waits (fuel : nat) (base : Z) : ∀ T r,
  ∃ tr,
    log (end_run (poll_loop feed fuel base T r)) = log r ++ tr ∧
    Forall (λ op, op = UV__EPOLL_CTL_DEL) (ctl_ops tr) ∧
    (T ≤ 0 → Forall (λ t, t = T) (wait_timeouts tr)) ∧
    (0 < T < UINT64_MOD → shrinking T (wait_timeouts tr)) ∧
    (∀ t, head (wait_timeouts tr) = Some t → t = T).
Proof.
  induction fuel as [|fuel IH]; intros T r.
  - exists []. cbn. rewrite app_nil_r.
    split; [done|]. split; [constructor|]. split; [by constructor|]. done.
  - destruct (poll_loop_step fuel base T r)
      as (res & t & dtr & r3 & Hlog & Hdtr & Hcase).
    assert (Hone : wait_timeouts (EvWait T res :: EvUpdateTime t :: dtr) = [T]).
    { rewrite <- (app_nil_r dtr). by rewrite wait_round_timeouts. }
    assert (Hctl : Forall (λ op, op = UV__EPOLL_CTL_DEL)
                     (ctl_ops (EvWait T res :: EvUpdateTime t :: dtr))).
    { exact (dispatch_trace_ctls dtr Hdtr). }
    destruct Hcase as [[-> _]|[->|(T' & -> & Hnz & Hsame & Hshr)]].
    + eexists. split; [exact Hlog|]. split; [done|]. rewrite Hone.
      split; [by repeat constructor|]. split; [|by intros t0 [= <-]].
      intros HT. cbn. lia.
    + eexists. split; [exact Hlog|]. split; [done|]. rewrite Hone.
      split; [by repeat constructor|]. split; [|by intros t0 [= <-]].
      intros HT. cbn. lia.
    + destruct (IH T' r3) as (tr & Hlog' & Hc & Hs & Hsh & _).
      exists (EvWait T res :: EvUpdateTime t :: dtr ++ tr).
      split.
      { rewrite Hlog', Hlog, <- app_assoc. done. }
      split.
      { change (EvWait T res :: EvUpdateTime t :: dtr ++ tr)
          with ((EvWait T res :: EvUpdateTime t :: dtr) ++ tr).
        unfold ctl_ops in *. rewrite omap_app. by apply Forall_app. }
      rewrite wait_round_timeouts by done. split; [|split].
      * intros HT. constructor; [done|].
        pose proof (Hsame HT) as ->. by apply Hs.
      * intros HT. cbn. split; [lia|].
        destruct (Hshr HT) as [H1 H2].
        apply (shrinking_le T T'); [done|]. apply Hsh. lia.
      * by intros t0 [= <-].
Qed.

(** With timeout -1 the loop is left by [return] only after a wait that
    reported events of which at least one was fed to a watcher. *)
Lemma poll_loop_infinite (fuel : nat) (base : Z) : ∀ r r',
  poll_loop feed fuel base (-1) r = Done r' →
  ∃ tr1 evs tr2,
    log r' = log r ++ tr1 ++ EvWait (-1) (WaitEvents evs) :: tr2 ∧
    wait_timeouts tr2 = [] ∧
    feeds tr2 ≠ [].
Proof.
  induction fuel as [|fuel IH]; intros r r' Hdone; [done|].
  destruct (poll_loop_step fuel base (-1) r)
    as (res & t & dtr & r3 & Hlog & Hdtr & Hcase).
  destruct Hcase as [[Hd Hev]|[Ha|(T' & Hrec & _ & Hsame & _)]].
  - rewrite Hd in Hdone. injection Hdone as <-.
    destruct (Hev eq_refl) as (evs & -> & Hf).
    exists [], evs, (EvUpdateTime t :: dtr). split; [done|].
    split; [exact (dispatch_trace_waits dtr Hdtr)|exact Hf].
  - congruence.
  - rewrite Hrec, (Hsame ltac:(lia)) in Hdone.
    destruct (IH r3 r' Hdone) as (tr1 & evs & tr2 & Hlog' & Hw & Hf).
    exists (EvWait (-1) res :: EvUpdateTime t :: dtr ++ tr1), evs, tr2.
    split; [|done]. rewrite Hlog', Hlog.
    rewrite <- !app_assoc. cbn. by rewrite <- !app_assoc.
Qed.

(** While every wait with timeout -1 is interrupted, the loop makes one
    wait for each unit of fuel and is still going when the fuel is gone. *)
Lemma poll_loop_interrupted (fuel : nat) (base : Z) : ∀ r,
  (∀ κ epfd, (uv__epoll_wait κ epfd (-1)).1 = WaitErr EINTR) →
  ∃ r' tr,
    poll_loop feed fuel base (-1) r = Spinning r' ∧
    log r' = log r ++ tr ∧
    wait_timeouts tr = replicate fuel (-1).
Proof.
  intros r Hintr. revert r. induction fuel as [|fuel IH]; intros r.
  - exists r, []. by rewrite app_nil_r.
  - cbn [poll_loop].
    pose proof (do_wait_log (-1) r) as Hlog.
    assert (Hres : (do_wait (-1) r).1 = WaitErr EINTR).
    { unfold do_wait.
      specialize (Hintr (world (cfg r)) (backend_fd (loop (cfg r)))).
      by destruct (uv__epoll_wait _ _ _) as [res κ]. }
    destruct (do_wait (-1) r) as [res r1]. cbn [fst snd] in Hlog, Hres.
    subst res. rewrite Z.eqb_refl. cbn [negb Z.eqb].
    destruct (IH (uv__update_time r1)) as (r' & tr & Hrun & Hlog' & Hw).
    exists r', (EvWait (-1) (WaitErr EINTR)
                 :: EvUpdateTime (now (world (cfg r1))) :: tr).
    split; [done|]. split.
    + rewrite Hlog'. unfold uv__update_time, emit, set_loop. cbn [log].
      by rewrite Hlog, <- !app_assoc.
    + cbn. by rewrite <- Hw.
Qed.

End PollTraces.

Section PollTheorems.
Context {abi : epoll_abi} {W : Type} {K : kernel W}.
Variable feed : nat → Z → config W → config W.

(** X9.  The timeouts uv__io_poll hands to uv__epoll_wait.  For a timeout of 0
    or -1 every wait is made with that timeout.  For a positive timeout
    (an int) the first wait is made with it and every later one with a
    timeout that is positive and not larger than the one before.  For a
    timeout below -1 no wait is made. *)
Theorem uv__io_poll_wait_timeouts (fuel : nat) (timeout : Z) (r : run W) :
  timeout < 2 ^ 31 →
  ∃ tr,
    log (end_run (uv__io_poll feed fuel timeout r)) = log r ++ tr ∧
    (timeout ≤ 0 → Forall (λ t, t = timeout) (wait_timeouts tr)) ∧
    (0 < timeout → shrinking timeout (wait_timeouts tr)) ∧
    (∀ t, head (wait_timeouts tr) = Some t → t = timeout) ∧
    (timeout < -1 → wait_timeouts tr = []).
Proof.
  intros Hint. unfold uv__io_poll.
  assert (Hnil : ∀ o : outcome W (run W), end_run o = r →
    ∃ tr, log (end_run o) = log r ++ tr ∧
      (timeout ≤ 0 → Forall (λ t, t = timeout) (wait_timeouts tr)) ∧
      (0 < timeout → shrinking timeout (wait_timeouts tr)) ∧
      (∀ t, head (wait_timeouts tr) = Some t → t = timeout) ∧
      (timeout < -1 → wait_timeouts tr = [])).
  { intros o ->. exists []. rewrite app_nil_r. split; [done|].
    split; [by constructor|]. done. }
  destruct (nfds _ =? 0); [by destruct (watcher_queue _); apply Hnil|].
  destruct (reconcile_no_wait feed fuel r) as (tr1 & Hlog1 & Hw1).
  assert (Hstop : ∀ o : outcome W (run W),
    end_run o = end_run (reconcile feed fuel r) →
    ∃ tr, log (end_run o) = log r ++ tr ∧
      (timeout ≤ 0 → Forall (λ t, t = timeout) (wait_timeouts tr)) ∧
      (0 < timeout → shrinking timeout (wait_timeouts tr)) ∧
      (∀ t, head (wait_timeouts tr) = Some t → t = timeout) ∧
      (timeout < -1 → wait_timeouts tr = [])).
  { intros o ->. exists tr1. rewrite Hw1. split; [done|].
    split; [by constructor|]. done. }
  destruct (reconcile feed fuel r) as [r1|r1|r1] eqn:E;
    [|by apply Hstop..].
  destruct (-1 <=? timeout) eqn:Ht; [|by apply Hstop].
  apply Z.leb_le in Ht. cbn [end_run] in Hlog1.
  destruct (poll_loop_waits feed fuel (time (loop (cfg r1))) timeout r1)
    as (tr2 & Hlog2 & _ & Hsame & Hshr & Hhead).
  exists (tr1 ++ tr2). rewrite Hlog2, Hlog1, <- app_assoc. split; [done|].
  unfold wait_timeouts in *. rewrite omap_app, Hw1. cbn [app].
  split; [done|]. split; [|split; [done|lia]].
  intros Hpos. apply Hshr. unfold UINT64_MOD. lia.
Qed.

(** X10.  A non-blocking poll (timeout 0) comes to an end after at most one
    wait, whatever the kernel answers, when uv__io_feed queues no watcher
    and the fuel covers the watcher queue. *)
Theorem uv__io_poll_nonblocking (fuel : nat) (r : run W) :
  feed_keeps_queue feed →
  (length (watcher_queue (loop (cfg r))) < fuel)%nat →
  ∃ r' tr,
    (uv__io_poll feed fuel 0 r = Done r' ∨
     uv__io_poll feed fuel 0 r = Aborted r') ∧
    log r' = log r ++ tr ∧
    (length (wait_timeouts tr) ≤ 1)%nat ∧
    Forall (λ t, t = 0) (wait_timeouts tr).
Proof.
  intros Hfq Hfuel. unfold uv__io_poll.
  destruct (nfds _ =? 0).
  { exists r, []. rewrite app_nil_r.
    split; [destruct (watcher_queue _); [by left|by right]|].
    split; [done|]. split; [cbn; lia|constructor]. }
  destruct (reconcile_steps feed fuel r Hfq)
    as (r1 & tr1 & Hend & _ & Hlog1 & Hw1 & _); [lia|].
  destruct Hend as [-> | ->].
  - cbn [Z.leb Z.compare].
    destruct fuel as [|fuel]; [lia|].
    destruct (poll_loop_step feed fuel (time (loop (cfg r1))) 0 r1)
      as (res & t & dtr & r3 & Hlog & Hdtr & Hcase).
    exists r3, (tr1 ++ EvWait 0 res :: EvUpdateTime t :: dtr).
    split.
    { destruct Hcase as [[-> _]|[->|(T' & _ & Hnz & _)]];
        [by left|by right|done]. }
    rewrite Hlog, Hlog1, <- app_assoc. split; [done|].
    unfold wait_timeouts in *. rewrite omap_app, Hw1. cbn [app].
    pose proof (dispatch_trace_waits dtr Hdtr) as Hd.
    unfold wait_timeouts in Hd. cbn. rewrite Hd.
    split; [cbn; lia|by repeat constructor].
  - exists r1, tr1. split; [by right|]. split; [done|].
    rewrite Hw1. split; [cbn; lia|constructor].
Qed.

(** X11.  The loop over the watcher queue runs once for each queued watcher when
    uv__io_feed queues none: it ends with the queue empty or in abort(),
    makes no wait and at most three uv__epoll_ctl calls for each watcher
    that was queued. *)
Theorem reconcile_drains_queue (fuel : nat) (r : run W) :
  feed_keeps_queue feed →
  (length (watcher_queue (loop (cfg r))) ≤ fuel)%nat →
  ∃ r' tr,
    (reconcile feed fuel r = Done r' ∨ reconcile feed fuel r = Aborted r') ∧
    (reconcile feed fuel r = Done r' → watcher_queue (loop (cfg r')) = []) ∧
    log r' = log r ++ tr ∧
    wait_timeouts tr = [] ∧
    (length (ctl_ops tr) ≤ 3 * length (watcher_queue (loop (cfg r))))%nat.
Proof. apply reconcile_steps. Qed.

(** X12.  With timeout -1 (block until something happens) uv__io_poll returns
    only after a wait that reported events of which at least one was fed
    to a watcher: no wait follows that one in the log, and a callback
    does. *)
Theorem uv__io_poll_infinite_returns_on_event
    (fuel : nat) (r r' : run W) :
  nfds (loop (cfg r)) ≠ 0 →
  uv__io_poll feed fuel (-1) r = Done r' →
  ∃ tr1 evs tr2,
    log r' = log r ++ tr1 ++ EvWait (-1) (WaitEvents evs) :: tr2 ∧
    wait_timeouts tr2 = [] ∧
    feeds tr2 ≠ [].
Proof.
  intros Hnfds. unfold uv__io_poll.
  apply Z.eqb_neq in Hnfds. rewrite Hnfds.
  destruct (reconcile_no_wait feed fuel r) as (tr0 & Hlog0 & _).
  destruct (reconcile feed fuel r) as [r1|r1|r1]; [|done..].
  cbn [end_run] in Hlog0. cbn [Z.leb Z.compare]. intros Hdone.
  destruct (poll_loop_infinite feed fuel _ r1 r' Hdone)
    as (tr1 & evs & tr2 & Hlog & Hw & Hf).
  exists (tr0 ++ tr1), evs, tr2. split; [|done].
  by rewrite Hlog, Hlog0, <- !app_assoc.
Qed.

(** X13.  With timeout -1 and nothing queued, uv__io_poll goes on waiting for as
    long as every wait is interrupted by a signal: it makes one wait with
    timeout -1 for each unit of fuel and has not returned when the fuel is
    used up. *)
Theorem uv__io_poll_blocks_while_interrupted (fuel : nat) (r : run W) :
  (∀ κ epfd, (uv__epoll_wait κ epfd (-1)).1 = WaitErr EINTR) →
  nfds (loop (cfg r)) ≠ 0 →
  watcher_queue (loop (cfg r)) = [] →
  ∃ r' tr,
    uv__io_poll feed fuel (-1) r = Spinning r' ∧
    log r' = log r ++ tr ∧
    wait_timeouts tr = replicate fuel (-1).
Proof.
  intros Hintr Hnfds Hq. unfold uv__io_poll.
  apply Z.eqb_neq in Hnfds. rewrite Hnfds.
  assert (Hrec : reconcile feed fuel r = Done r).
  { destruct fuel; cbn [reconcile]; by rewrite Hq. }
  rewrite Hrec. cbn [Z.leb Z.compare].
  by apply poll_loop_interrupted.
Qed.

(** X14.  What the event loop of uv__io_poll feeds to a watcher: the events the
    kernel reported and those still latent in revents, cut down to the
    ones the watcher has registered for, plus error and hang-up.  So no
    other event ever reaches the callback, and an error or hang-up always
    does, whatever the watcher registered for. *)
Theorem dispatch_event_masks (pe : uv__epoll_event) (nevents : Z)
    (r : run W) (w : nat) (io : uv__io_t) :
  0 ≤ ev_data pe →
  watchers (loop (cfg r)) !! Z.to_nat (ev_data pe) = Some (Some w) →
  iomem (cfg r) !! w = Some io →
  let pevents :=
    Z.land (Z.lor (revents io) (ev_events pe))
      (Z.lor (Z.lor (events io) UV__EPOLLERR) UV__EPOLLHUP) in
  ∃ r' n',
    dispatch_event feed pe nevents r = Done (r', n') ∧
    log r' = log r ++ (if pevents =? 0 then [] else [EvFeed w pevents]) ∧
    n' = (if pevents =? 0 then nevents else nevents + 1) ∧
    (∀ i, Z.testbit pevents i = true →
       Z.testbit (events io) i = true ∨ Z.testbit UV__EPOLLERR i = true ∨
       Z.testbit UV__EPOLLHUP i = true) ∧
    (Z.land (ev_events pe) (Z.lor UV__EPOLLERR UV__EPOLLHUP) ≠ 0 →
       pevents ≠ 0).
Proof.
  intros Hfd Hw Hio pevents. unfold dispatch_event.
  assert (Hlen : ev_data pe < Z.of_nat (length (watchers (loop (cfg r))))).
  { apply lookup_lt_Some in Hw. lia. }
  rewrite (proj2 (Z.leb_le _ _) Hfd), (proj2 (Z.ltb_lt _ _) Hlen).
  cbn [andb]. rewrite Hw, Hio. cbn [revents events fd levents].
  fold pevents.
  assert (Hbits : ∀ i, Z.testbit pevents i =
    (Z.testbit (revents io) i || Z.testbit (ev_events pe) i) &&
    ((Z.testbit (events io) i || Z.testbit UV__EPOLLERR i)
     || Z.testbit UV__EPOLLHUP i)).
  { intros i. subst pevents. by rewrite Z.land_spec, !Z.lor_spec. }
  assert (Hmask : ∀ i, Z.testbit pevents i = true →
       Z.testbit (events io) i = true ∨ Z.testbit UV__EPOLLERR i = true ∨
       Z.testbit UV__EPOLLHUP i = true).
  { intros i. rewrite Hbits.
    destruct (Z.testbit (events io) i), (Z.testbit UV__EPOLLERR i),
      (Z.testbit UV__EPOLLHUP i); rewrite ?andb_false_r; auto. }
  assert (Herr : Z.land (ev_events pe) (Z.lor UV__EPOLLERR UV__EPOLLHUP) ≠ 0 →
       pevents ≠ 0).
  { intros Hne Hz. apply Hne. apply Z.bits_inj_0. intros i.
    assert (Hi : Z.testbit pevents i = false) by (by rewrite Hz, Z.bits_0).
    rewrite Hbits in Hi. rewrite Z.land_spec, Z.lor_spec.
    destruct (Z.testbit (ev_events pe) i), (Z.testbit UV__EPOLLERR i),
      (Z.testbit UV__EPOLLHUP i), (Z.testbit (revents io) i),
      (Z.testbit (events io) i); done. }
  destruct (pevents =? 0) eqn:E.
  - eexists _, _. split; [done|]. cbn [set_io log]. rewrite app_nil_r.
    done.
  - eexists _, _. split; [done|]. done.
Qed.

(** X15.  The event loop of uv__io_poll over the events of one wait: it makes no
    wait, its only ctl calls are DELs, it feeds at most one callback for
    each event, and when it is through [nevents] is the number of callbacks
    it has fed. *)
Theorem dispatch_events_counts_feeds (evs : list uv__epoll_event)
    (r : run W) :
  ∃ tr,
    log (end_run2 (dispatch_events feed evs 0 r)) = log r ++ tr ∧
    wait_timeouts tr = [] ∧
    Forall (λ op, op = UV__EPOLL_CTL_DEL) (ctl_ops tr) ∧
    (length (feeds tr) ≤ length evs)%nat ∧
    (∀ r' n, dispatch_events feed evs 0 r = Done (r', n) →
       n = Z.of_nat (length (feeds tr))) ∧
    (∀ r', dispatch_events feed evs 0 r ≠ Spinning r').
Proof.
  destruct (dispatch_events_trace feed evs 0 r)
    as (tr & Hlog & Htr & Hlen & Hn & Hsp).
  exists tr. split; [done|]. split; [by apply dispatch_trace_waits|].
  split; [by apply dispatch_trace_ctls|]. split; [done|]. split; [|done].
  intros r' n Hd. rewrite (Hn r' n Hd). lia.
Qed.

End PollTheorems.

(** *** Concrete runs of uv__io_poll *)

Lemma quiet_feed_keeps_queue : feed_keeps_queue quiet_feed.
Proof. intros w pevents c. reflexivity. Qed.

Lemma uv__io_poll_wait_timeouts_witness :
  ∃ tr,
    log (end_run (@uv__io_poll linux_abi script script_kernel quiet_feed
                    10 100 eintr_twice)) = log eintr_twice ++ tr ∧
    (100 ≤ 0 → Forall (λ t, t = 100) (wait_timeouts tr)) ∧
    (0 < 100 → shrinking 100 (wait_timeouts tr)) ∧
    (∀ t, head (wait_timeouts tr) = Some t → t = 100) ∧
    (100 < -1 → wait_timeouts tr = []).
Proof.
  apply (@uv__io_poll_wait_timeouts linux_abi script script_kernel quiet_feed
           10 100 eintr_twice).
  reflexivity.
Defined.

Lemma uv__io_poll_nonblocking_witness :
  ∃ r' tr,
    (@uv__io_poll linux_abi script script_kernel quiet_feed 1 0 ready_run
       = Done r' ∨
     @uv__io_poll linux_abi script script_kernel quiet_feed 1 0 ready_run
       = Aborted r') ∧
    log r' = log ready_run ++ tr ∧
    (length (wait_timeouts tr) ≤ 1)%nat ∧
    Forall (λ t, t = 0) (wait_timeouts tr).
Proof.
  apply (@uv__io_poll_nonblocking linux_abi script script_kernel quiet_feed
           1 ready_run).
  - exact quiet_feed_keeps_queue.
  - cbn. lia.
Defined.

Lemma reconcile_drains_queue_witness :
  ∃ r' tr,
    (@reconcile linux_abi script script_kernel quiet_feed 1 queued_run
       = Done r' ∨
     @reconcile linux_abi script script_kernel quiet_feed 1 queued_run
       = Aborted r') ∧
    (@reconcile linux_abi script script_kernel quiet_feed 1 queued_run
       = Done r' → watcher_queue (loop (cfg r')) = []) ∧
    log r' = log queued_run ++ tr ∧
    wait_timeouts tr = [] ∧
    (length (ctl_ops tr)
       ≤ 3 * length (watcher_queue (loop (cfg queued_run))))%nat.
Proof.
  apply (@reconcile_drains_queue linux_abi script script_kernel quiet_feed
           1 queued_run).
  - exact quiet_feed_keeps_queue.
  - cbn. lia.
Defined.

Lemma uv__io_poll_infinite_returns_on_event_witness :
  ∃ r',
    @uv__io_poll linux_abi script script_kernel quiet_feed 5 (-1) ready_run
      = Done r' ∧
    ∃ tr1 evs tr2,
      log r' = log ready_run ++ tr1 ++ EvWait (-1) (WaitEvents evs) :: tr2 ∧
      wait_timeouts tr2 = [] ∧
      feeds tr2 ≠ [].
Proof.
  eexists. split; [vm_compute; reflexivity|].
  apply (@uv__io_poll_infinite_returns_on_event linux_abi script
           script_kernel quiet_feed 5 ready_run).
  - done.
  - vm_compute. reflexivity.
Defined.

Lemma uv__io_poll_blocks_while_interrupted_witness :
  ∃ r' tr,
    @uv__io_poll linux_abi Z signal_storm (λ _ _ c, c) 3 (-1) stormy_run
      = Spinning r' ∧
    log r' = log stormy_run ++ tr ∧
    wait_timeouts tr = replicate 3 (-1).
Proof.
  apply (@uv__io_poll_blocks_while_interrupted linux_abi Z signal_storm
           (λ _ _ c, c) 3 stormy_run).
  - intros κ epfd. reflexivity.
  - done.
  - reflexivity.
Defined.

Lemma dispatch_event_masks_witness :
  let pevents := Z.land (Z.lor 0 8) (Z.lor (Z.lor 1 8) 16) in
  ∃ r' n',
    @dispatch_event linux_abi script script_kernel quiet_feed
      (EpollEvent 8 5) 0 ready_run = Done (r', n') ∧
    log r' = log ready_run ++ (if pevents =? 0 then [] else [EvFeed 7 pevents]) ∧
    n' = (if pevents =? 0 then 0 else 0 + 1) ∧
    (∀ i, Z.testbit pevents i = true →
       Z.testbit 1 i = true ∨ Z.testbit 8 i = true ∨
       Z.testbit 16 i = true) ∧
    (Z.land 8 (Z.lor 8 16) ≠ 0 → pevents ≠ 0).
Proof.
  apply (@dispatch_event_masks linux_abi script script_kernel quiet_feed
           (EpollEvent 8 5) 0 ready_run 7 (IoWatcher 5 1 1 0)).
  - done.
  - reflexivity.
  - reflexivity.
Defined.


(** ** Facts about the system information functions *)

(** X16.  uv__hrtime does not wrap before 2^64 nanoseconds (584 years) have
    passed: for a normalised timespec below that, the result is the number
    of nanoseconds, from which seconds and nanoseconds can be read back,
    and a later timespec gives a larger result. *)
Theorem uv__hrtime_exact (ts : timespec) :
  0 ≤ tv_sec ts →
  tv_sec ts < UINT64_MOD / NANOSEC →
  0 ≤ tv_nsec ts < NANOSEC →
  uv__hrtime ts = tv_sec ts * NANOSEC + tv_nsec ts ∧
  uv__hrtime ts / NANOSEC = tv_sec ts ∧
  uv__hrtime ts mod NANOSEC = tv_nsec ts ∧
  ∀ ts',
    0 ≤ tv_sec ts' → tv_sec ts' < UINT64_MOD / NANOSEC →
    0 ≤ tv_nsec ts' < NANOSEC →
    (tv_sec ts < tv_sec ts' ∨
     (tv_sec ts = tv_sec ts' ∧ tv_nsec ts < tv_nsec ts')) →
    uv__hrtime ts < uv__hrtime ts'.
Proof.
  assert (Hexact : ∀ t : timespec,
    0 ≤ tv_sec t → tv_sec t < UINT64_MOD / NANOSEC → 0 ≤ tv_nsec t < NANOSEC →
    uv__hrtime t = tv_sec t * NANOSEC + tv_nsec t).
  { intros t H1 H2 H3. unfold uv__hrtime, wrap64.
    change (UINT64_MOD / NANOSEC) with 18446744073 in H2.
    unfold UINT64_MOD, NANOSEC in *.
    rewrite (Z.mod_small (tv_sec t)) by lia.
    rewrite (Z.mod_small (tv_sec t * _)) by lia.
    rewrite (Z.mod_small (tv_nsec t)) by lia.
    apply Z.mod_small. lia. }
  intros H1 H2 H3. rewrite (Hexact ts H1 H2 H3).
  split; [done|]. split; [|split].
  - symmetry. apply (Z.div_unique _ _ _ (tv_nsec ts)); lia.
  - symmetry. apply (Z.mod_unique _ _ (tv_sec ts)); lia.
  - intros ts' H1' H2' H3' Hlt. rewrite (Hexact ts' H1' H2' H3').
    unfold NANOSEC in *. nia.
Qed.

Lemma marker_len_digits (fuel : nat) : ∀ n len,
  (0 < fuel)%nat →
  0 ≤ n < 10 ^ Z.of_nat fuel →
  0 ≤ len →
  len + Z.of_nat fuel < UINT_MOD →
  ∃ k,
    0 ≤ k < Z.of_nat fuel ∧
    marker_len fuel n len = Some (len + k) ∧
    n < 10 ^ (k + 1) ∧
    (k = 0 ∨ 10 ^ k ≤ n).
Proof.
  induction fuel as [|fuel IH]; intros n len Hpos Hn Hlen Hfit; [lia|].
  cbn [marker_len].
  assert (Hpow : 10 ^ Z.of_nat (S fuel) = 10 * 10 ^ Z.of_nat fuel).
  { rewrite Nat2Z.inj_succ, Z.pow_succ_r by lia. done. }
  assert (Hdiv : 0 ≤ n / 10 < 10 ^ Z.of_nat fuel).
  { split; [apply Z.div_pos; lia|]. apply Z.div_lt_upper_bound; lia. }
  pose proof (Z.div_mod n 10 ltac:(lia)) as Hdm.
  pose proof (Z.mod_pos_bound n 10 ltac:(lia)) as Hmod.
  destruct (n / 10 =? 0) eqn:E.
  - apply Z.eqb_eq in E. exists 0. rewrite Z.add_0_r.
    split; [lia|]. split; [done|]. split; [|by left].
    change (10 ^ (0 + 1)) with 10. lia.
  - apply Z.eqb_neq in E.
    destruct (IH (n / 10) (wrap32 (len + 1))) as (k & Hk & Hrun & Hlt & Hge).
    + destruct fuel; [change (10 ^ Z.of_nat 0) with 1 in Hdiv|]; lia.
    + done.
    + rewrite wrap32_small by lia. lia.
    + rewrite wrap32_small by lia. lia.
    + rewrite wrap32_small in Hrun by lia. rewrite wrap32_small by lia.
      exists (k + 1). split; [lia|]. split.
      { rewrite Hrun. f_equal. lia. }
      assert (Hp1 : 10 ^ (k + 1 + 1) = 10 * 10 ^ (k + 1)).
      { rewrite (Z.pow_add_r 10 (k + 1) 1) by lia. change (10 ^ 1) with 10. lia. }
      assert (Hp0 : 10 ^ (k + 1) = 10 * 10 ^ k).
      { rewrite (Z.pow_add_r 10 k 1) by lia. change (10 ^ 1) with 10. lia. }
      split; [lia|]. right.
      destruct Hge as [->|Hge]; [change (10 ^ (0 + 1)) with 10; lia|lia].
Qed.

(** X17.  The marker length that read_times computes for cpu number [num] is 4
    plus the number of decimal digits of [num], which is the length of
    "cpu<num> ": the loop ends within ten rounds for every unsigned int. *)
Theorem read_times_len_digits (num : Z) :
  0 ≤ num < UINT_MOD →
  ∃ digits,
    read_times_len num = Some (4 + digits) ∧
    1 ≤ digits ≤ 10 ∧
    num < 10 ^ digits ∧
    (digits = 1 ∨ 10 ^ (digits - 1) ≤ num).
Proof.
  intros Hnum. unfold read_times_len, SIZEOF_CPU0.
  destruct (marker_len_digits 10 num 5) as (k & Hk & Hrun & Hlt & Hge).
  - lia.
  - unfold UINT_MOD in Hnum. change (10 ^ Z.of_nat 10) with 10000000000. lia.
  - lia.
  - unfold UINT_MOD. lia.
  - exists (k + 1). split; [rewrite Hrun; f_equal; lia|].
    split; [lia|]. split; [done|].
    replace (k + 1 - 1) with k by lia. destruct Hge; [left; lia|by right].
Qed.

(** X18.  uv_exepath stays inside the caller's buffer when [*size] is at least 1
    and not larger than the buffer: it returns -EINVAL for a NULL argument
    and minus the errno of a failed readlink, leaving buffer and size
    alone; otherwise it returns 0, [*size] is the length of the link, which
    is below the old [*size], the link is in the buffer followed by a NUL,
    and the bytes of the buffer beyond that are untouched. *)
Theorem uv_exepath_in_bounds (EINVAL : Z) (readlink : Z → Z + list Z)
    (buf : list Z) (sz : Z) :
  (∀ k bytes, 0 ≤ k → readlink k = inr bytes → Z.of_nat (length bytes) ≤ k) →
  1 ≤ sz ≤ Z.of_nat (length buf) →
  sz < UINT64_MOD →
  uv_exepath EINVAL readlink None (Some sz) = Some (- EINVAL, None, Some sz) ∧
  uv_exepath EINVAL readlink (Some buf) None = Some (- EINVAL, Some buf, None) ∧
  match readlink (sz - 1) with
  | inl errno =>
      uv_exepath EINVAL readlink (Some buf) (Some sz)
        = Some (- errno, Some buf, Some sz)
  | inr bytes =>
      ∃ buf',
        uv_exepath EINVAL readlink (Some buf) (Some sz)
          = Some (0, Some buf', Some (Z.of_nat (length bytes))) ∧
        Z.of_nat (length bytes) < sz ∧
        length buf' = length buf ∧
        take (length bytes) buf' = bytes ∧
        buf' !! length bytes = Some 0 ∧
        drop (S (length bytes)) buf' = drop (S (length bytes)) buf
  end.
Proof.
  intros Hrl Hsz Hmax. split; [done|]. split; [done|].
  unfold uv_exepath, wrap64. rewrite Z.mod_small by lia.
  destruct (readlink (sz - 1)) as [errno|bytes] eqn:E; [done|].
  pose proof (Hrl (sz - 1) bytes ltac:(lia) E) as Hn.
  assert (Hlt : (length bytes < length buf)%nat) by lia.
  rewrite (proj2 (Nat.ltb_lt _ _) Hlt).
  eexists. split; [reflexivity|]. split; [lia|].
  split; [|split; [|split]].
  - rewrite length_app. cbn [length]. rewrite length_drop. lia.
  - by rewrite take_app_length.
  - rewrite lookup_app_r by lia. by rewrite Nat.sub_diag.
  - change (bytes ++ 0 :: drop (S (length bytes)) buf)
      with (bytes ++ [0] ++ drop (S (length bytes)) buf).
    rewrite app_assoc, drop_app_length'; [done|].
    rewrite length_app. cbn [length]. lia.
Qed.

(** *** uv_interface_addresses *)

Section InterfaceFacts.

Context {net : net_abi}.
Variable malloc : Z → bool.
Variable strdup : list Z → bool.

Lemma count_addresses_filter (addrs : list ifaddrs) : ∀ count,
  count_addresses addrs count
    = count + Z.of_nat (length (filter (λ ent, reported ent = true) addrs)).
Proof.
  induction addrs as [|ent rest IH]; intros count; cbn [count_addresses].
  - cbn. lia.
  - rewrite IH. destruct (count_skips ent) eqn:E.
    + rewrite (filter_cons_False _ ent) by (unfold reported; rewrite E; done).
      lia.
    + rewrite (filter_cons_True _ ent) by (unfold reported; rewrite E; done).
      cbn [length]. lia.
Qed.

(** What the fill loop writes for a reported entry. *)
Lemma fill_addresses_spec (addrs : list ifaddrs) : ∀ pre n,
  (∀ ent, ent ∈ addrs → reported ent = true → is_Some (ifa_netmask ent)) →
  (length (filter (λ ent, reported ent = true) addrs) ≤ n)%nat →
  ∃ cells,
    fill_addresses strdup addrs (pre ++ replicate n None) (length pre)
      = Some (pre ++ (Some <$> cells)
                  ++ replicate (n - length cells) None,
              (length pre + length cells)%nat) ∧
    length cells = length (filter (λ ent, reported ent = true) addrs) ∧
    ∀ i ent,
      filter (λ ent, reported ent = true) addrs !! i = Some ent →
      ∃ sa nm,
        ifa_addr ent = Some sa ∧ ifa_netmask ent = Some nm ∧
        cells !! i = Some
          (InterfaceAddress
             (if strdup (ifa_name ent) then Some (ifa_name ent) else None)
             None
             (if sa_family sa =? AF_INET6 then In6 sa else In4 sa)
             (if sa_family nm =? AF_INET6 then In6 nm else In4 nm)
             (if Z.land (ifa_flags ent) IFF_LOOPBACK =? 0 then 0 else 1)).
Proof.
  induction addrs as [|ent rest IH]; intros pre n Hnm Hn.
  - exists []. cbn. rewrite Nat.sub_0_r, Nat.add_0_r. done.
  - cbn [fill_addresses].
    assert (Hrest : ∀ e, e ∈ rest → reported e = true → is_Some (ifa_netmask e)).
    { intros e He. apply Hnm. by right. }
    destruct (up_and_running ent) eqn:Eup; cbn [negb].
    2:{ assert (Hrep : reported ent ≠ true)
          by (unfold reported, count_skips; by rewrite Eup).
        rewrite (filter_cons_False _ ent) in Hn |- * by done. by apply IH. }
    destruct (ifa_addr ent) as [sa|] eqn:Esa.
    2:{ assert (Hrep : reported ent ≠ true)
          by (unfold reported, count_skips; by rewrite Eup, Esa).
        rewrite (filter_cons_False _ ent) in Hn |- * by done. by apply IH. }
    destruct (sa_family sa =? PF_PACKET) eqn:Epk.
    { assert (Hrep : reported ent ≠ true)
        by (unfold reported, count_skips; by rewrite Eup, Esa, Epk).
      rewrite (filter_cons_False _ ent) in Hn |- * by done. by apply IH. }
    assert (Hrep : reported ent = true)
      by (unfold reported, count_skips; by rewrite Eup, Esa, Epk).
    rewrite (filter_cons_True _ ent) in Hn |- * by done. cbn [length] in Hn.
    destruct n as [|n]; [lia|].
    rewrite length_app, length_replicate.
    rewrite (proj2 (Nat.ltb_lt _ _)) by lia.
    destruct (Hnm ent) as [nm Hnm1]; [by left|done|].
    rewrite Hnm1.
    set (a := InterfaceAddress _ _ _ _ _).
    assert (Harr : <[length pre := Some a]> (pre ++ replicate (S n) None)
                   = (pre ++ [Some a]) ++ replicate n None).
    { rewrite insert_app_r_alt by lia. rewrite Nat.sub_diag. cbn.
      by rewrite <- app_assoc. }
    rewrite Harr.
    destruct (IH (pre ++ [Some a]) n Hrest) as (cells & Hrun & Hlen & Hcells);
      [lia|].
    rewrite length_app in Hrun. cbn [length] in Hrun.
    replace (S (length pre)) with (length pre + 1)%nat by lia.
    rewrite Hrun. exists (a :: cells). split; [|split].
    + cbn [fmap list_fmap length]. rewrite <- !app_assoc. cbn.
      f_equal. f_equal. lia.
    + cbn [length]. lia.
    + intros [|i] e; cbn.
      * intros [= <-]. exists sa, nm. by rewrite Esa.
      * apply Hcells.
Qed.

Lemma copy_phys_spec (n hw : list Z) (cells : list uv_interface_address_t) :
  (∀ a, a ∈ cells → is_Some (name a)) →
  copy_phys n hw (Some <$> cells)
    = Some (Some <$>
        ((λ a, if bool_decide (name a = Some n)
               then InterfaceAddress (name a) (Some (take PHYS_ADDR_SIZE hw))
                      (address a) (netmask a) (is_internal a)
               else a) <$> cells)).
Proof.
  induction cells as [|a cells IH]; intros Hnames; [done|].
  cbn [fmap list_fmap copy_phys].
  destruct (Hnames a) as [x Hx]; [by left|]. rewrite Hx.
  cbn [fmap list_fmap] in IH. rewrite IH by (intros b Hb; apply Hnames; by right).
  cbn. do 3 f_equal.
  destruct (decide (x = n)) as [->|Hne].
  - by rewrite !bool_decide_eq_true_2.
  - rewrite !bool_decide_eq_false_2; [done|congruence|done].
Qed.

Lemma fill_phys_spec (addrs : list ifaddrs) : ∀ cells,
  (∀ a, a ∈ cells → is_Some (name a)) →
  fill_phys addrs (Some <$> cells)
    = Some (Some <$>
        ((λ a, InterfaceAddress (name a)
                 (match name a with
                  | Some n => last_hw addrs n (phys_addr a)
                  | None => phys_addr a
                  end)
                 (address a) (netmask a) (is_internal a)) <$> cells)).
Proof.
  induction addrs as [|ent rest IH]; intros cells Hnames.
  - cbn [fill_phys last_hw]. do 2 f_equal.
    rewrite <- (list_fmap_id cells) at 1. apply list_fmap_ext.
    intros i a _. by destruct a as [[?|] ? ? ? ?].
  - cbn [fill_phys last_hw]. unfold packet_hw.
    destruct (up_and_running ent); cbn [negb orb]; [|by apply IH].
    destruct (ifa_addr ent) as [sa|]; [|by apply IH].
    destruct (sa_family sa =? PF_PACKET); cbn [negb]; [|by apply IH].
    rewrite copy_phys_spec by done. cbn [mbind option_bind].
    rewrite IH.
    2:{ intros a [b [-> Hb]]%list_elem_of_fmap.
        pose proof (Hnames b Hb) as Hn. by destruct (bool_decide _). }
    do 2 f_equal. rewrite <- list_fmap_compose. apply list_fmap_ext.
    intros i a Ha. cbn.
    destruct (Hnames a) as [x Hx]; [by eapply list_elem_of_lookup_2|].
    rewrite Hx. destruct (decide (x = ifa_name ent)) as [->|Hne].
    + rewrite !bool_decide_eq_true_2 by done. cbn. by rewrite ?Hx.
    + rewrite !bool_decide_eq_false_2 by congruence. by rewrite ?Hx.
Qed.

Lemma reported_lookup (addrs : list ifaddrs) i ent :
  filter (λ ent, reported ent = true) addrs !! i = Some ent →
  ent ∈ addrs ∧ reported ent = true.
Proof.
  intros H. apply list_elem_of_lookup_2 in H.
  apply list_elem_of_filter in H. tauto.
Qed.

(** X20.  uv_interface_addresses returns one array element for each entry of the
    getifaddrs list that is up and running and has an address that is not
    a packet address, in the order of the list, and [*count] is their
    number: the fill loop stays inside the array that was sized by the
    counting loop.  Each element carries the name, address, netmask and
    loopback flag of its entry, and as physical address the first
    [sizeof(phys_addr)] bytes of [sll_addr] of the last up-and-running
    packet entry of the same name; if there is none, [phys_addr] is never written.  This is for a
    run in which malloc and strdup succeed and every reported entry has a
    netmask. *)
Theorem uv_interface_addresses_reports (addrs : list ifaddrs) :
  malloc (Z.of_nat (length (filter (λ ent, reported ent = true) addrs)))
    = true →
  (∀ ent, ent ∈ addrs → reported ent = true →
     is_Some (ifa_netmask ent) ∧ strdup (ifa_name ent) = true) →
  ∃ cells,
    uv_interface_addresses malloc strdup (inr addrs)
      = Some (InterfacesResult 0 (Some (Some (Some <$> cells)))
                (Some (Z.of_nat (length cells)))) ∧
    length cells = length (filter (λ ent, reported ent = true) addrs) ∧
    ∀ i ent,
      filter (λ ent, reported ent = true) addrs !! i = Some ent →
      ∃ sa nm,
        ifa_addr ent = Some sa ∧ ifa_netmask ent = Some nm ∧
        cells !! i = Some
          (InterfaceAddress
             (Some (ifa_name ent))
             (last_hw addrs (ifa_name ent) None)
             (if sa_family sa =? AF_INET6 then In6 sa else In4 sa)
             (if sa_family nm =? AF_INET6 then In6 nm else In4 nm)
             (if Z.land (ifa_flags ent) IFF_LOOPBACK =? 0 then 0 else 1)).
Proof.
  intros Hmalloc Hok. unfold uv_interface_addresses.
  rewrite count_addresses_filter, Z.add_0_l, Hmalloc, Nat2Z.id.
  destruct (fill_addresses_spec addrs []
              (length (filter (λ ent, reported ent = true) addrs)))
    as (cells & Hrun & Hlen & Hcells).
  { intros ent He Hr. by apply Hok. }
  { done. }
  cbn [app length] in Hrun. rewrite Hrun. cbn [mbind option_bind].
  rewrite Hlen, Nat.sub_diag. cbn [replicate]. rewrite app_nil_r.
  assert (Hnames : ∀ a, a ∈ cells → is_Some (name a)).
  { intros a [i Hi]%list_elem_of_lookup_1.
    destruct (lookup_lt_is_Some_2
                (filter (λ ent, reported ent = true) addrs) i) as [ent Hent].
    { rewrite <- Hlen. by eapply lookup_lt_Some. }
    destruct (Hcells i ent Hent) as (sa & nm & _ & _ & Hc).
    rewrite Hc in Hi. injection Hi as <-. cbn.
    destruct (reported_lookup _ _ _ Hent) as [Hin Hrep].
    destruct (Hok ent Hin Hrep) as [_ ->]. by eexists. }
  rewrite fill_phys_spec by done. cbn [mbind option_bind].
  match goal with
  | |- ∃ _, Some (InterfacesResult _ (Some (Some (Some <$> ?l))) _) = _ ∧ _ =>
      exists l
  end.
  split; [|split].
  - rewrite length_fmap, Hlen. reflexivity.
  - by rewrite length_fmap.
  - intros i ent Hent.
    destruct (Hcells i ent Hent) as (sa & nm & Hsa & Hnm & Hc).
    exists sa, nm. split; [done|]. split; [done|].
    rewrite list_lookup_fmap, Hc. cbn.
    destruct (reported_lookup _ _ _ Hent) as [Hin Hrep].
    destruct (Hok ent Hin Hrep) as [_ ->]. done.
Qed.

Lemma fill_addresses_no_netmask (addrs : list ifaddrs) : ∀ arr idx,
  (∃ ent, ent ∈ addrs ∧ reported ent = true ∧ ifa_netmask ent = None) →
  fill_addresses strdup addrs arr idx = None.
Proof.
  induction addrs as [|e rest IH]; intros arr idx (ent & Hin & Hrep & Hnm).
  - by apply elem_of_nil in Hin.
  - cbn [fill_addresses]. apply elem_of_cons in Hin as [<-|Hin].
    + unfold reported, count_skips in Hrep.
      destruct (up_and_running ent); [|done]. cbn [negb orb] in *.
      destruct (ifa_addr ent) as [sa|]; [|done].
      destruct (sa_family sa =? PF_PACKET); [done|].
      rewrite Hnm. by destruct (_ <? _)%nat.
    + assert (Hrest : ∀ arr' idx', fill_addresses strdup rest arr' idx' = None).
      { intros arr' idx'. apply IH. by exists ent. }
      destruct (negb _); [done|]. destruct (ifa_addr e) as [sa|]; [|done].
      destruct (_ =? _); [done|]. destruct (_ <? _)%nat; [|done].
      by destruct (ifa_netmask e).
Qed.

(** X21.  The error paths of uv_interface_addresses.  A failed getifaddrs gives
    minus its errno and assigns neither output.  A failed malloc gives
    -ENOMEM with [*count] set and [*addresses] NULL.  And an entry that is
    reported but has no netmask ([ifa_netmask == NULL]) makes the fill loop
    dereference NULL. *)
Theorem uv_interface_addresses_failures (addrs : list ifaddrs) (errno : Z) :
  uv_interface_addresses malloc strdup (inl errno)
    = Some (InterfacesResult (- errno) None None) ∧
  (malloc (Z.of_nat (length (filter (λ ent, reported ent = true) addrs)))
     = false →
   uv_interface_addresses malloc strdup (inr addrs)
     = Some (InterfacesResult (- ENOMEM) (Some None)
               (Some (Z.of_nat
                  (length (filter (λ ent, reported ent = true) addrs)))))) ∧
  (malloc (Z.of_nat (length (filter (λ ent, reported ent = true) addrs)))
     = true →
   (∃ ent, ent ∈ addrs ∧ reported ent = true ∧ ifa_netmask ent = None) →
   uv_interface_addresses malloc strdup (inr addrs) = None).
Proof.
  split; [done|]. unfold uv_interface_addresses.
  rewrite count_addresses_filter, Z.add_0_l. split.
  - by intros ->.
  - intros -> Hbad. by rewrite fill_addresses_no_netmask.
Qed.

End InterfaceFacts.

(** *** uv_resident_set_memory *)

Lemma c_string_no_nul (bytes : list Z) : 0 ∉ bytes → c_string bytes = bytes.
Proof.
  induction bytes as [|x rest IH]; intros H; [done|].
  cbn [c_string]. apply not_elem_of_cons in H as [Hx Hrest].
  rewrite (proj2 (Z.eqb_neq x 0)) by done. by rewrite IH.
Qed.

Lemma strchr_first (pre rest : list Z) (c : Z) :
  c ∉ pre → strchr (pre ++ c :: rest) c = Some (c :: rest).
Proof.
  induction pre as [|x pre IH]; intros H; cbn [app strchr].
  - by rewrite Z.eqb_refl.
  - apply not_elem_of_cons in H as [Hx Hpre].
    rewrite (proj2 (Z.eqb_neq x c)) by done. by apply IH.
Qed.

Lemma strchr_none (s : list Z) (c : Z) : c ∉ s → strchr s c = None.
Proof.
  induction s as [|x s IH]; intros H; [done|].
  apply not_elem_of_cons in H as [Hx Hs]. cbn [strchr].
  rewrite (proj2 (Z.eqb_neq x c)) by done. by apply IH.
Qed.

Lemma skip_fields_step (k : nat) (x : Z) (f0 f rest : list Z) :
  SPACE ∉ f0 →
  skip_fields (S k) (x :: f0 ++ SPACE :: f ++ rest)
    = skip_fields k (SPACE :: f ++ rest).
Proof.
  intros Hf0. change (skip_fields (S k) (x :: f0 ++ SPACE :: f ++ rest))
    with (match strchr (f0 ++ SPACE :: f ++ rest) SPACE with
          | None => None
          | Some s' => skip_fields k s'
          end).
  by rewrite strchr_first.
Qed.

Lemma skip_fields_reaches (k : nat) : ∀ x f0 fields,
  SPACE ∉ f0 →
  Forall (λ f, SPACE ∉ f) fields →
  (k < length fields)%nat →
  skip_fields (S k) (x :: f0 ++ stat_fields fields)
    = Some (stat_fields (drop k fields)).
Proof.
  induction k as [|k IH]; intros x f0 fields Hf0 Hfields Hk;
    (destruct fields as [|f fs]; [cbn in Hk; lia|]);
    apply Forall_cons in Hfields as [Hf Hfs];
    cbn [stat_fields]; rewrite skip_fields_step by done.
  - done.
  - cbn [drop]. apply IH; [done|done|cbn in Hk; lia].
Qed.

Lemma skip_fields_short (k : nat) : ∀ x f0 fields,
  SPACE ∉ f0 →
  Forall (λ f, SPACE ∉ f) fields →
  (length fields < k)%nat →
  skip_fields k (x :: f0 ++ stat_fields fields) = None.
Proof.
  induction k as [|k IH]; intros x f0 fields Hf0 Hfields Hk; [lia|].
  destruct fields as [|f fs].
  - cbn [stat_fields]. rewrite app_nil_r.
    change (skip_fields (S k) (x :: f0))
      with (match strchr f0 SPACE with
            | None => None
            | Some s' => skip_fields k s'
            end).
    by rewrite strchr_none.
  - apply Forall_cons in Hfields as [Hf Hfs]. cbn [stat_fields].
    rewrite skip_fields_step by done. apply IH; [done|done|cbn in Hk; lia].
Qed.

Section ResidentSetFacts.

Context {W : Type} {P : procfs W}.
Variables (EINVAL EINTR_ getpagesize : Z) (strtol : list Z → Z * Z).

(** When open and read succeed at the first attempt, the function closes
    the descriptor and parses what read stored. *)
Lemma uv_resident_set_memory_parses (fuel : nat) (w w1 w2 : W) (fd_ : Z)
    (text : list Z) :
  open_stat w = (inr fd_, w1) →
  read_stat w1 fd_ STAT_BUF_MAX = (inr text, w2) →
  Z.of_nat (length text) ≤ STAT_BUF_MAX →
  0 ∉ text →
  uv_resident_set_memory EINVAL EINTR_ getpagesize strtol (S fuel) w
    = Some (parse_stat EINVAL getpagesize strtol text, close_stat w2 fd_).
Proof.
  intros Hopen Hread Hlen Hnul. unfold uv_resident_set_memory.
  cbn [open_retry read_retry]. rewrite Hopen. cbn [mbind option_bind].
  rewrite Hread. cbn [mbind option_bind].
  rewrite (proj2 (Z.leb_le _ _) Hlen). by rewrite c_string_no_nul.
Qed.

(** What parse_stat reads from a line of /proc/self/stat: the text after
    the 22nd space that follows the first ')'. *)
Lemma parse_stat_fields (pid comm f0 : list Z) (fields : list (list Z)) :
  SPACE ∉ pid →
  RPAREN ∉ comm →
  SPACE ∉ f0 →
  Forall (λ f, SPACE ∉ f) fields →
  parse_stat EINVAL getpagesize strtol
    (pid ++ SPACE :: LPAREN :: comm ++ RPAREN :: f0 ++ stat_fields fields)
  = if (length fields <? 22)%nat then (- EINVAL, None)
    else
      let '(val, errno) := strtol (stat_fields (drop 21 fields)) in
      if negb (errno =? 0) then (- EINVAL, None)
      else if val <? 0 then (- EINVAL, None)
      else (0, Some (wrap64 (val * getpagesize))).
Proof.
  intros Hpid Hcomm Hf0 Hfields. unfold parse_stat.
  rewrite strchr_first by done. cbn [drop head default].
  rewrite Z.eqb_refl. cbn [negb].
  assert (Hlp : strchr (LPAREN :: comm ++ RPAREN :: f0 ++ stat_fields fields)
                  RPAREN = Some (RPAREN :: f0 ++ stat_fields fields)).
  { cbn [strchr]. change (LPAREN =? RPAREN) with false. cbn iota.
    by apply strchr_first. }
  rewrite Hlp.
  destruct (length fields <? 22)%nat eqn:E.
  - apply Nat.ltb_lt in E. by rewrite skip_fields_short.
  - apply Nat.ltb_ge in E. by rewrite (skip_fields_reaches 21) by (done || lia).
Qed.

Lemma parse_stat_line (pid comm : list Z) (fields : list (list Z)) :
  SPACE ∉ pid →
  RPAREN ∉ comm →
  Forall (λ f, SPACE ∉ f) fields →
  parse_stat EINVAL getpagesize strtol
    (pid ++ SPACE :: LPAREN :: comm ++ RPAREN :: stat_fields fields)
  = if (length fields <? 22)%nat then (- EINVAL, None)
    else
      let '(val, errno) := strtol (stat_fields (drop 21 fields)) in
      if negb (errno =? 0) then (- EINVAL, None)
      else if val <? 0 then (- EINVAL, None)
      else (0, Some (wrap64 (val * getpagesize))).
Proof.
  intros Hpid Hcomm Hfields.
  apply (parse_stat_fields pid comm [] fields); try done.
  apply not_elem_of_nil.
Qed.

(** X22.  uv_resident_set_memory takes the resident set size from field 24 of
    /proc/self/stat.  For a line "pid (comm) f3 f4 ..." of at most 1023
    bytes, whose comm holds no ')' and that has at least 24 fields, it
    hands strtol the text from the space before field 24 on; it stores the
    number that strtol returns times the page size in [*rss] and returns 0,
    or returns -EINVAL when strtol set errno or the number is negative. *)
Theorem uv_resident_set_memory_reads_rss (fuel : nat) (w w1 w2 : W)
    (fd_ : Z) (pid comm : list Z) (fields : list (list Z)) :
  let text := pid ++ SPACE :: LPAREN :: comm ++ RPAREN :: stat_fields fields in
  open_stat w = (inr fd_, w1) →
  read_stat w1 fd_ STAT_BUF_MAX = (inr text, w2) →
  Z.of_nat (length text) ≤ STAT_BUF_MAX →
  0 ∉ text →
  SPACE ∉ pid →
  RPAREN ∉ comm →
  Forall (λ f, SPACE ∉ f) fields →
  (22 ≤ length fields)%nat →
  uv_resident_set_memory EINVAL EINTR_ getpagesize strtol (S fuel) w
    = Some
        (let '(val, errno) := strtol (stat_fields (drop 21 fields)) in
         if negb (errno =? 0) then (- EINVAL, None)
         else if val <? 0 then (- EINVAL, None)
         else (0, Some (wrap64 (val * getpagesize))),
         close_stat w2 fd_).
Proof.
  intros text Hopen Hread Hlen Hnul Hpid Hcomm Hfields Hn.
  rewrite (uv_resident_set_memory_parses fuel w w1 w2 fd_ text) by done.
  subst text.
  rewrite (parse_stat_line pid comm fields) by done.
  by rewrite (proj2 (Nat.ltb_ge _ _)) by lia.
Qed.

(** X23.  A ')' in the command name shifts the field that is read.  The function
    looks for the first ')', not the last: for a comm "c1) c2" (one space
    after the ')') it counts the rest of the name as a field of its own, so
    what it hands to strtol starts at field 23 of the line, and the number
    it stores in [*rss] is that field times the page size. *)
Theorem uv_resident_set_memory_paren_in_comm (fuel : nat) (w w1 w2 : W)
    (fd_ : Z) (pid c1 c2 : list Z) (fields : list (list Z)) :
  let comm := c1 ++ RPAREN :: SPACE :: c2 in
  let text := pid ++ SPACE :: LPAREN :: comm ++ RPAREN :: stat_fields fields in
  open_stat w = (inr fd_, w1) →
  read_stat w1 fd_ STAT_BUF_MAX = (inr text, w2) →
  Z.of_nat (length text) ≤ STAT_BUF_MAX →
  0 ∉ text →
  SPACE ∉ pid →
  RPAREN ∉ c1 →
  SPACE ∉ c2 →
  Forall (λ f, SPACE ∉ f) fields →
  (22 ≤ length fields)%nat →
  uv_resident_set_memory EINVAL EINTR_ getpagesize strtol (S fuel) w
    = Some
        (let '(val, errno) := strtol (stat_fields (drop 20 fields)) in
         if negb (errno =? 0) then (- EINVAL, None)
         else if val <? 0 then (- EINVAL, None)
         else (0, Some (wrap64 (val * getpagesize))),
         close_stat w2 fd_).
Proof.
  intros comm text Hopen Hread Hlen Hnul Hpid Hc1 Hc2 Hfields Hn.
  rewrite (uv_resident_set_memory_parses fuel w w1 w2 fd_ text) by done.
  subst text comm.
  assert (Htext :
    pid ++ SPACE :: LPAREN :: (c1 ++ RPAREN :: SPACE :: c2)
        ++ RPAREN :: stat_fields fields
    = pid ++ SPACE :: LPAREN :: c1 ++ RPAREN
        :: stat_fields ((c2 ++ [RPAREN]) :: fields)).
  { cbn [stat_fields app]. by rewrite <- !app_assoc. }
  rewrite Htext.
  rewrite (parse_stat_line pid c1 ((c2 ++ [RPAREN]) :: fields)).
  - cbn [length]. by rewrite (proj2 (Nat.ltb_ge _ _)) by lia.
  - done.
  - done.
  - apply Forall_cons. split; [|done].
    rewrite not_elem_of_app. split; [done|].
    by intros [= ]%list_elem_of_singleton.
Qed.

(** X24.  The ways uv_resident_set_memory gives up.  An open or read that fails
    with an errno other than EINTR gives minus that errno, the descriptor
    being closed in the second case.  A text without a space, without '('
    right after the first space, without ')' after that, or with fewer than
    22 spaces after the ')' gives -EINVAL.  Nothing is stored in [*rss] in
    any of these cases. *)
Theorem uv_resident_set_memory_gives_up (fuel : nat) (w w1 w2 : W)
    (fd_ errno : Z) (text : list Z) :
  errno ≠ EINTR_ →
  (open_stat w = (inl errno, w1) →
   uv_resident_set_memory EINVAL EINTR_ getpagesize strtol (S fuel) w
     = Some (- errno, None, w1)) ∧
  (open_stat w = (inr fd_, w1) →
   read_stat w1 fd_ STAT_BUF_MAX = (inl errno, w2) →
   uv_resident_set_memory EINVAL EINTR_ getpagesize strtol (S fuel) w
     = Some (- errno, None, close_stat w2 fd_)) ∧
  (open_stat w = (inr fd_, w1) →
   read_stat w1 fd_ STAT_BUF_MAX = (inr text, w2) →
   Z.of_nat (length text) ≤ STAT_BUF_MAX →
   0 ∉ text →
   ((SPACE ∉ text) ∨
    (∃ pid rest, text = pid ++ SPACE :: rest ∧ (SPACE ∉ pid) ∧
       (default 0 (head rest) ≠ LPAREN ∨ (RPAREN ∉ rest))) ∨
    (∃ pid comm fields,
       text = pid ++ SPACE :: LPAREN :: comm ++ RPAREN :: stat_fields fields ∧
       (SPACE ∉ pid) ∧ (RPAREN ∉ comm) ∧ Forall (λ f, SPACE ∉ f) fields ∧
       (length fields < 22)%nat)) →
   uv_resident_set_memory EINVAL EINTR_ getpagesize strtol (S fuel) w
     = Some (- EINVAL, None, close_stat w2 fd_)).
Proof.
  intros Herrno. apply Z.eqb_neq in Herrno. split; [|split].
  - intros Hopen. unfold uv_resident_set_memory. cbn [open_retry].
    by rewrite Hopen, Herrno.
  - intros Hopen Hread. unfold uv_resident_set_memory.
    cbn [open_retry read_retry]. rewrite Hopen. cbn [mbind option_bind].
    by rewrite Hread, Herrno.
  - intros Hopen Hread Hlen Hnul Hbad.
    rewrite (uv_resident_set_memory_parses fuel w w1 w2 fd_ text) by done.
    f_equal.
    destruct Hbad as [Hns|[(pid & rest & -> & Hpid & Hrest)
                          |(pid & comm & fields & -> & Hpid & Hcomm & Hf & Hn)]].
    + unfold parse_stat. by rewrite strchr_none.
    + unfold parse_stat. rewrite strchr_first by done.
      cbn [drop]. rewrite drop_0.
      destruct Hrest as [Hlp|Hrp].
      * by rewrite (proj2 (Z.eqb_neq _ _) Hlp).
      * destruct (negb _); [done|]. by rewrite strchr_none.
    + rewrite (parse_stat_line pid comm fields) by done.
      by rewrite (proj2 (Nat.ltb_lt _ _)) by lia.
Qed.

End ResidentSetFacts.

(** *** read_models *)

Section ReadModelsFacts.

Variable ENOMEM_ : Z.
Variable atoi : list Z → Z.
Variable strndup_ok : list Z → bool.
Hypothesis Hstrndup : ∀ s, strndup_ok s = true.

(** A line cannot start with both markers. *)
Lemma markers_differ (buf : list Z) :
  take (length model_marker) buf = model_marker →
  take (length speed_marker) buf ≠ speed_marker.
Proof.
  destruct buf as [|x buf]; [done|]. cbn. intros [= -> _] [=].
Qed.

(** The loop over the lines: the models of the file go to the elements
    from [model_idx] on, as far as the array reaches, and the other
    elements keep their model. *)
Lemma read_models_lines_spec (lines : list (list Z)) (numcpus : nat) :
  ∀ ci model_idx speed_idx,
  ∃ ci',
    read_models_lines ENOMEM_ atoi strndup_ok lines numcpus ci model_idx
      speed_idx
      = inr (ci', (model_idx `max`
                     (numcpus `min` (model_idx + length (model_lines lines))))%nat) ∧
    length ci' = length ci ∧
    ∀ i,
      model <$> ci' !! i =
        if decide (model_idx ≤ i < numcpus `min`
                     (model_idx + length (model_lines lines)))%nat
        then (λ _, model_lines lines !! (i - model_idx)%nat) <$> ci !! i
        else model <$> ci !! i.
Proof.
  induction lines as [|buf rest IH]; intros ci mi si.
  - exists ci. cbn [read_models_lines model_lines omap list_omap length].
    split; [f_equal; f_equal; lia|]. split; [done|].
    intros i. rewrite decide_False by lia. done.
  - cbn [read_models_lines].
    unfold model_lines. cbn [omap list_omap]. fold (model_lines rest).
    destruct (bool_decide (take (length model_marker) buf = model_marker))
      eqn:Em.
    + apply bool_decide_eq_true_1 in Em.
      destruct (mi <? numcpus)%nat eqn:Elt; cbn [andb].
      * apply Nat.ltb_lt in Elt. rewrite Hstrndup.
        destruct (IH (alter (λ c, CpuInfo
                               (Some (strip_newline
                                  (drop (length model_marker) buf)))
                               (speed c)) mi ci) (S mi) si)
          as (ci' & Hrun & Hlen & Hci').
        exists ci'. rewrite Hrun. cbn [length].
        split; [f_equal; f_equal; lia|].
        split; [by rewrite Hlen, length_alter|].
        intros i. rewrite Hci'.
        destruct (decide (i = mi)) as [->|Hne].
        -- rewrite decide_False by lia. rewrite decide_True by lia.
           rewrite list_lookup_alter_eq, Nat.sub_diag.
           by destruct (ci !! mi).
        -- rewrite list_lookup_alter_ne by done.
           destruct (decide (S mi ≤ i < _)%nat) as [Hin|Hout].
           ++ rewrite decide_True by lia.
              replace (i - mi)%nat with (S (i - S mi)) by lia. done.
           ++ rewrite decide_False by lia. done.
      * apply Nat.ltb_ge in Elt.
        rewrite (bool_decide_eq_false_2 _ (markers_differ buf Em)).
        rewrite andb_false_r.
        destruct (IH ci mi si) as (ci' & Hrun & Hlen & Hci').
        exists ci'. rewrite Hrun. cbn [length].
        split; [f_equal; f_equal; lia|]. split; [done|].
        intros i. rewrite Hci'.
        rewrite !decide_False by lia. done.
    + rewrite andb_false_r.
      destruct ((si <? numcpus)%nat && _).
      * destruct (IH (alter (λ c, CpuInfo (model c)
                               (atoi (drop (length speed_marker) buf)))
                        si ci) mi (S si))
          as (ci' & Hrun & Hlen & Hci').
        exists ci'. rewrite Hrun. split; [done|].
        split; [by rewrite Hlen, length_alter|].
        intros i. rewrite Hci'.
        assert (Hsame : ∀ j, model <$> alter (λ c, CpuInfo (model c)
                               (atoi (drop (length speed_marker) buf)))
                        si ci !! j = model <$> ci !! j).
        { intros j. destruct (decide (si = j)) as [->|Hne].
          - rewrite list_lookup_alter_eq. by destruct (ci !! j).
          - by rewrite list_lookup_alter_ne. }
        destruct (decide _); [|apply Hsame].
        pose proof (Hsame i) as Hs.
        destruct (alter _ si ci !! i), (ci !! i); done.
      * apply IH.
Qed.

Lemma fill_models_spec (fuel : nat) (inferred : list Z) (numcpus : nat) :
  ∀ ci model_idx,
  (numcpus - model_idx < fuel)%nat →
  ∃ ci',
    fill_models ENOMEM_ strndup_ok fuel inferred numcpus ci model_idx
      = Some (0, ci') ∧
    length ci' = length ci ∧
    ∀ i,
      model <$> ci' !! i =
        if decide (model_idx ≤ i < numcpus)%nat
        then (λ _, Some inferred) <$> ci !! i
        else model <$> ci !! i.
Proof.
  induction fuel as [|fuel IH]; intros ci mi Hfuel; [lia|].
  cbn [fill_models]. destruct (mi <? numcpus)%nat eqn:Elt.
  - apply Nat.ltb_lt in Elt. rewrite Hstrndup.
    destruct (IH (alter (λ c, CpuInfo (Some inferred) (speed c)) mi ci)
                (S mi)) as (ci' & Hrun & Hlen & Hci'); [lia|].
    exists ci'. split; [done|]. split; [by rewrite Hlen, length_alter|].
    intros i. rewrite Hci'. destruct (decide (i = mi)) as [->|Hne].
    + rewrite decide_False by lia. rewrite decide_True by lia.
      rewrite list_lookup_alter_eq. by destruct (ci !! mi).
    + rewrite list_lookup_alter_ne by done.
      destruct (decide (S mi ≤ i < numcpus)%nat).
      * by rewrite decide_True by lia.
      * by rewrite decide_False by lia.
  - apply Nat.ltb_ge in Elt. exists ci. split; [done|]. split; [done|].
    intros i. by rewrite decide_False by lia.
Qed.

(** X25.  read_models leaves no model pointer NULL.  When /proc/cpuinfo can be
    opened and strndup does not fail, it returns 0 and every element of
    the array has a model: element i has the i-th model name of the file,
    without its newline, and the elements for which the file has no name
    have a copy of the last name of the file, or of "unknown" when the file
    names no model at all. *)
Theorem read_models_names_every_cpu (numcpus : nat)
    (ci : list uv_cpu_info_t) (lines : list (list Z)) :
  length ci = numcpus →
  ∃ ci',
    read_models ENOMEM_ atoi strndup_ok numcpus ci (inr lines)
      = Some (0, ci') ∧
    length ci' = numcpus ∧
    ∀ i, (i < numcpus)%nat →
      model <$> ci' !! i
        = Some (Some (match model_lines lines !! i with
                      | Some m => m
                      | None => default unknown_model
                                  (last (model_lines lines))
                      end)).
Proof.
  intros Hlen. unfold read_models.
  destruct (read_models_lines_spec lines numcpus ci 0 0)
    as (ci1 & Hrun & Hlen1 & Hci1).
  rewrite Hrun. cbn [Nat.add]. rewrite Nat.max_0_l.
  set (models := model_lines lines) in *.
  set (mi := (numcpus `min` length models)%nat) in *.
  assert (Hinf : ∃ inferred,
    (if (0 <? mi)%nat then ci1 !! (mi - 1)%nat ≫= model
     else Some unknown_model) = Some inferred ∧
    (length models ≤ numcpus → inferred = default unknown_model (last models))%nat).
  { destruct (0 <? mi)%nat eqn:E.
    - apply Nat.ltb_lt in E.
      pose proof (Hci1 (mi - 1)%nat) as H1.
      rewrite decide_True in H1 by lia. rewrite Nat.sub_0_r in H1.
      destruct (lookup_lt_is_Some_2 ci (mi - 1)%nat) as [c Hc]; [lia|].
      destruct (lookup_lt_is_Some_2 models (mi - 1)%nat) as [m Hm]; [lia|].
      rewrite Hc, Hm in H1. cbn in H1.
      destruct (ci1 !! (mi - 1)%nat) as [c1|] eqn:Hc1; [|done].
      cbn in H1. injection H1 as H1. exists m. cbn. split; [done|].
      intros Hle. rewrite last_lookup.
      replace (pred (length models)) with (mi - 1)%nat by lia.
      by rewrite Hm.
    - apply Nat.ltb_ge in E. exists unknown_model. split; [done|].
      intros Hle. assert (length models = 0%nat) as Hz by lia.
      destruct models; [done|]. cbn in Hz. lia. }
  destruct Hinf as (inferred & -> & Hinferred).
  destruct (fill_models_spec (S numcpus) inferred numcpus ci1 mi)
    as (ci' & Hfill & Hlen' & Hci'); [lia|].
  exists ci'. split; [done|]. split; [lia|].
  intros i Hi. rewrite Hci'.
  destruct (lookup_lt_is_Some_2 ci i) as [c Hc]; [lia|].
  destruct (lookup_lt_is_Some_2 ci1 i) as [c1 Hc1]; [lia|].
  destruct (decide (mi ≤ i < numcpus)%nat) as [Hin|Hout].
  - rewrite Hc1. cbn.
    rewrite (lookup_ge_None_2 models i) by lia.
    rewrite Hinferred by lia. done.
  - rewrite Hci1, Nat.sub_0_r. rewrite decide_True by lia. rewrite Hc. cbn.
    destruct (lookup_lt_is_Some_2 models i) as [m Hm]; [lia|].
    by rewrite Hm.
Qed.

End ReadModelsFacts.

(** *** Concrete runs of the system information functions *)

Lemma uv__hrtime_exact_witness :
  let ts := Timespec 5 999999999 in
  uv__hrtime ts = 5 * NANOSEC + 999999999 ∧
  uv__hrtime ts / NANOSEC = 5 ∧
  uv__hrtime ts mod NANOSEC = 999999999 ∧
  ∀ ts',
    0 ≤ tv_sec ts' → tv_sec ts' < UINT64_MOD / NANOSEC →
    0 ≤ tv_nsec ts' < NANOSEC →
    (5 < tv_sec ts' ∨ (5 = tv_sec ts' ∧ 999999999 < tv_nsec ts')) →
    uv__hrtime ts < uv__hrtime ts'.
Proof.
  intros ts. apply (uv__hrtime_exact ts); subst ts; cbn [tv_sec tv_nsec];
    change (UINT64_MOD / NANOSEC) with 18446744073; unfold NANOSEC; lia.
Defined.

Lemma read_times_len_digits_witness :
  ∃ digits,
    read_times_len 128 = Some (4 + digits) ∧
    1 ≤ digits ≤ 10 ∧
    128 < 10 ^ digits ∧
    (digits = 1 ∨ 10 ^ (digits - 1) ≤ 128).
Proof. apply (read_times_len_digits 128). unfold UINT_MOD. lia. Defined.

Lemma uv_exepath_in_bounds_witness :
  let buf := replicate 8 255 in
  let readlink := readlink_of [47; 98; 105; 110; 47; 115; 104] in
  uv_exepath 22 readlink None (Some 6) = Some (- 22, None, Some 6) ∧
  uv_exepath 22 readlink (Some buf) None = Some (- 22, Some buf, None) ∧
  match readlink (6 - 1) with
  | inl errno =>
      uv_exepath 22 readlink (Some buf) (Some 6)
        = Some (- errno, Some buf, Some 6)
  | inr bytes =>
      ∃ buf',
        uv_exepath 22 readlink (Some buf) (Some 6)
          = Some (0, Some buf', Some (Z.of_nat (length bytes))) ∧
        Z.of_nat (length bytes) < 6 ∧
        length buf' = length buf ∧
        take (length bytes) buf' = bytes ∧
        buf' !! length bytes = Some 0 ∧
        drop (S (length bytes)) buf' = drop (S (length bytes)) buf
  end.
Proof.
  intros buf readlink.
  apply (uv_exepath_in_bounds 22 readlink buf 6).
  - intros k bytes Hk. subst readlink. unfold readlink_of. cbn zeta.
    pose proof (Z.mod_le (k + 2 ^ 31) (2 ^ 32)) as Hle.
    destruct (_ <=? 0); [done|]. intros [= <-]. rewrite length_take. lia.
  - cbn. lia.
  - reflexivity.
Defined.

Lemma demo_ifaddrs_reported :
  filter (λ ent, @reported linux_net ent = true) demo_ifaddrs
    = [ Ifaddrs [108; 111] 73 (Some (Sockaddr 2 [127; 0; 0; 1] []))
          (Some (Sockaddr 2 [255; 0; 0; 0] []));
        Ifaddrs [101; 116; 104; 48] 67 (Some (Sockaddr 2 [10; 0; 0; 2] []))
          (Some (Sockaddr 2 [255; 255; 255; 0] []));
        Ifaddrs [101; 116; 104; 48] 67 (Some (Sockaddr 10 [254; 128] []))
          (Some (Sockaddr 10 [255; 255] [])) ].
Proof. reflexivity. Qed.

Lemma uv_interface_addresses_reports_witness :
  ∃ cells,
    @uv_interface_addresses linux_net (λ _, true) (λ _, true)
      (inr demo_ifaddrs)
      = Some (InterfacesResult 0 (Some (Some (Some <$> cells)))
                (Some (Z.of_nat (length cells)))) ∧
    length cells
      = length (filter (λ ent, @reported linux_net ent = true) demo_ifaddrs) ∧
    ∀ i ent,
      filter (λ ent, @reported linux_net ent = true) demo_ifaddrs !! i
        = Some ent →
      ∃ sa nm,
        ifa_addr ent = Some sa ∧ ifa_netmask ent = Some nm ∧
        cells !! i = Some
          (InterfaceAddress
             (Some (ifa_name ent))
             (@last_hw linux_net demo_ifaddrs (ifa_name ent) None)
             (if sa_family sa =? 10 then In6 sa else In4 sa)
             (if sa_family nm =? 10 then In6 nm else In4 nm)
             (if Z.land (ifa_flags ent) 8 =? 0 then 0 else 1)).
Proof.
  apply (@uv_interface_addresses_reports linux_net (λ _, true) (λ _, true)
           demo_ifaddrs).
  - reflexivity.
  - intros ent Hin Hrep.
    assert (Hsel : ent ∈ filter (λ ent, @reported linux_net ent = true)
                           demo_ifaddrs)
      by (by apply list_elem_of_filter).
    rewrite demo_ifaddrs_reported in Hsel.
    repeat (apply elem_of_cons in Hsel as [->|Hsel]; [by split; [eexists|]|]).
    by apply elem_of_nil in Hsel.
Defined.

Lemma uv_interface_addresses_failures_witness :
  @uv_interface_addresses linux_net (λ _, true) (λ _, true)
    (inr tunnel_ifaddrs) = None.
Proof.
  destruct (@uv_interface_addresses_failures linux_net (λ _, true)
              (λ _, true) tunnel_ifaddrs 0) as (_ & _ & H).
  apply H; [reflexivity|].
  eexists. split; [by left|]. split; reflexivity.
Defined.

Lemma stat_line_clean (comm : list Z) :
  0 ∉ comm → 0 ∉ stat_line comm.
Proof.
  intros Hcomm. unfold stat_line. rewrite !not_elem_of_app, !not_elem_of_cons.
  rewrite not_elem_of_app, not_elem_of_cons.
  split; [split; [done|apply not_elem_of_nil]|].
  split; [done|]. split; [done|]. split; [done|]. split; [done|].
  apply (bool_decide_unpack _). vm_compute. exact I.
Qed.

Lemma demo_fields_no_space : Forall (λ f, SPACE ∉ f) demo_fields.
Proof. apply (bool_decide_unpack _). vm_compute. exact I. Qed.

Lemma uv_resident_set_memory_reads_rss_witness :
  @uv_resident_set_memory (list Z) stat_file 22 4 4096 decimal_strtol 1
    (stat_line [115; 104])
  = Some (0, Some (7 * 4096), stat_line [115; 104]).
Proof.
  apply (@uv_resident_set_memory_reads_rss (list Z) stat_file 22 4 4096
           decimal_strtol 0 (stat_line [115; 104]) (stat_line [115; 104])
           (stat_line [115; 104]) 3 [49] [115; 104] demo_fields).
  - reflexivity.
  - reflexivity.
  - vm_compute. discriminate.
  - apply stat_line_clean. apply (bool_decide_unpack _). vm_compute. exact I.
  - apply (bool_decide_unpack _). vm_compute. exact I.
  - apply (bool_decide_unpack _). vm_compute. exact I.
  - exact demo_fields_no_space.
  - cbn. lia.
Defined.

Lemma uv_resident_set_memory_paren_in_comm_witness :
  @uv_resident_set_memory (list Z) stat_file 22 4 4096 decimal_strtol 1
    (stat_line [97; 41; 32; 98])
  = Some (0, Some (5 * 4096), stat_line [97; 41; 32; 98]).
Proof.
  apply (@uv_resident_set_memory_paren_in_comm (list Z) stat_file 22 4 4096
           decimal_strtol 0 (stat_line [97; 41; 32; 98])
           (stat_line [97; 41; 32; 98]) (stat_line [97; 41; 32; 98])
           3 [49] [97] [98] demo_fields).
  - reflexivity.
  - reflexivity.
  - vm_compute. discriminate.
  - apply (stat_line_clean [97; 41; 32; 98]).
    apply (bool_decide_unpack _). vm_compute. exact I.
  - apply (bool_decide_unpack _). vm_compute. exact I.
  - apply (bool_decide_unpack _). vm_compute. exact I.
  - apply (bool_decide_unpack _). vm_compute. exact I.
  - exact demo_fields_no_space.
  - cbn. lia.
Defined.

Lemma uv_resident_set_memory_gives_up_witness :
  @uv_resident_set_memory unit no_procfs 22 4 4096 decimal_strtol 1 tt
    = Some (- 2, None, tt) ∧
  @uv_resident_set_memory (list Z) stat_file 22 4 4096 decimal_strtol 1
    [49; 50; 51] = Some (- 22, None, [49; 50; 51]).
Proof.
  split.
  - destruct (@uv_resident_set_memory_gives_up unit no_procfs 22 4 4096
                decimal_strtol 0 tt tt tt 0 2 []) as (H & _ & _); [done|].
    by apply H.
  - destruct (@uv_resident_set_memory_gives_up (list Z) stat_file 22 4 4096
                decimal_strtol 0 [49; 50; 51] [49; 50; 51] [49; 50; 51] 3 2
                [49; 50; 51]) as (_ & _ & H); [done|].
    apply H; [reflexivity|reflexivity|vm_compute; discriminate| |].
    + apply (bool_decide_unpack _). vm_compute. exact I.
    + left. apply (bool_decide_unpack _). vm_compute. exact I.
Defined.

Lemma read_models_names_every_cpu_witness :
  ∃ ci',
    read_models 12 (λ s, digits_value s 0) (λ _, true) 3
      (replicate 3 (CpuInfo None 0)) (inr demo_cpuinfo) = Some (0, ci') ∧
    length ci' = 3%nat ∧
    ∀ i, (i < 3)%nat →
      model <$> ci' !! i
        = Some (Some (match model_lines demo_cpuinfo !! i with
                      | Some m => m
                      | None => default unknown_model
                                  (last (model_lines demo_cpuinfo))
                      end)).
Proof.
  apply (read_models_names_every_cpu 12 (λ s, digits_value s 0) (λ _, true)
           (λ _, eq_refl) 3 (replicate 3 (CpuInfo None 0)) demo_cpuinfo).
  reflexivity.
Defined.

